(** * Kuramoto oscillator ring: the simulator of [kuramoto.js] and the
    batch driver of [experiments.js], embedded in Rocq.

    Numbers.  The source computes on IEEE doubles ([Float64Array]).  The
    embedding idealises a double as a real number of [R]: rounding, NaN and
    the infinities are not modelled, so every statement below is about the
    exact-arithmetic reading of the code.  Integers that the code only uses
    as sizes and loop counters are [Z] where a negative value is possible
    and [nat] once the code has established that they are sizes.  Where
    rounding decides a property, the order parameter against its bounds,
    the function is embedded a second time on binary64 numbers
    (module [F64]).

    Arrays.  A [Float64Array] is a [list R]; [a[i]] is stdpp's lookup and
    [a[i] = v] stdpp's insert, which like a typed array ignores a store
    past the end.

    Randomness.  [Math.random()] is an explicit stream of draws from
    [0, 1) together with a cursor that each call advances. *)

From Stdlib Require Import PrimFloat.
From Stdlib Require FloatAxioms Uint63.
From Stdlib Require Import Reals Lra Lia ZArith String.
From stdpp Require Import base list.

Open Scope R_scope.

(** ** JavaScript number primitives over the reals *)

Module Js.

(** [Math.trunc]: the integer part towards zero. *)
Definition trunc (x : R) : Z :=
  if Rle_dec 0 x then Int_part x else (- Int_part (- x))%Z.

(** The [%] operator on numbers: the remainder of the truncated division,
    with the sign of the dividend. *)
Definition rem (x y : R) : R := x - y * IZR (trunc (x / y)).

(** [Math.round]: the nearest integer, halves rounded towards +infinity. *)
Definition round (x : R) : Z := Int_part (x + / 2).

(** The comparisons [x < y] and [x > y] on numbers. *)
Definition lt (x y : R) : bool := if Rlt_dec x y then true else false.
Definition gt (x y : R) : bool := if Rgt_dec x y then true else false.

(** [Math.abs] on an integer-valued number. *)
Definition abs (q : Z) : Z := Z.abs q.

(** [Math.max]. *)
Definition max (x y : R) : R := Rmax x y.

(** A [for (let i = 0; i < n; i++) body] loop over a state of type [S]. *)
Definition for_loop {S : Type} (n : nat) (body : nat -> S -> S) (s : S) : S :=
  fold_left (fun acc i => body i acc) (seq 0 n) s.

(** Reading [a[i]]; inside the bounds of the array this is the stored
    number.  (Outside, JavaScript yields [undefined]; the loops of the
    simulator never read there, see [wf].) *)
Definition load (a : list R) (i : nat) : R := default 0 (a !! i).

(** Writing [a[i] = v]; a typed array drops a store outside its bounds. *)
Definition store (a : list R) (i : nat) (v : R) : list R := <[i:=v]> a.

(** [new Float64Array(n)]: [n] zeros. *)
Definition zeros (n : nat) : list R := replicate n 0.

(** [a.fill(v)] *)
Definition fill (a : list R) (v : R) : list R := replicate (length a) v.

(** [a.set(b)] for [b] no longer than [a]: copies [b] over the front. *)
Definition set (a b : list R) : list R := b ++ drop (length b) a.

(** [Math.atan2(y, x)] *)
Definition atan2 (y x : R) : R :=
  if Rlt_dec 0 x then atan (y / x)
  else if Rlt_dec x 0 then
    (if Rle_dec 0 y then atan (y / x) + PI else atan (y / x) - PI)
  else if Rlt_dec 0 y then PI / 2
  else if Rlt_dec y 0 then - PI / 2
  else 0.

(** [Math.min]. *)
Definition min (x y : R) : R := Rmin x y.

(** The comparisons [x <= y] and [x >= y] on numbers. *)
Definition le (x y : R) : bool := if Rle_dec x y then true else false.
Definition ge (x y : R) : bool := if Rge_dec x y then true else false.

End Js.

Definition TWO_PI : R := 2 * PI.

(** The body of [normalizePhases] on one phase:
    [((x % TWO_PI) + TWO_PI) % TWO_PI]. *)
Definition normalize (x : R) : R :=
  Js.rem (Js.rem x TWO_PI + TWO_PI) TWO_PI.

(** ** The random source *)

(** [Math.random()] returns a number in [0, 1); the stream carries that
    contract.  A cursor of type [nat] is threaded through every method
    that draws. *)
Record Rng := mkRng {
  draw : nat -> R;
  draw_range : forall k : nat, 0 <= draw k < 1
}.

(** ** Outcomes of code that can throw *)

(** [new Float64Array(n)] throws a [RangeError] on a negative length; it
    is the only exception the simulator can raise. *)
Inductive result (A : Type) : Type :=
  | Ok (a : A)
  | RangeError.
Arguments Ok {A} a.
Arguments RangeError {A}.

(** ** class KuramotoSimulator *)

Record KuramotoSimulator := mkSim {
  N : nat;                  (* this.N, a size once construction succeeded *)
  phases : list R;          (* θᵢ *)
  frequencies : list R;     (* ωᵢ *)
  dPhases : list R;         (* dθᵢ/dt, scratch buffer of the integrator *)
  K : R                     (* coupling strength *)
}.

Definition set_phases (s : KuramotoSimulator) (p : list R) : KuramotoSimulator :=
  mkSim (N s) p (frequencies s) (dPhases s) (K s).
Definition set_frequencies (s : KuramotoSimulator) (f : list R) : KuramotoSimulator :=
  mkSim (N s) (phases s) f (dPhases s) (K s).
Definition set_dPhases (s : KuramotoSimulator) (d : list R) : KuramotoSimulator :=
  mkSim (N s) (phases s) (frequencies s) d (K s).
Definition set_K (s : KuramotoSimulator) (k : R) : KuramotoSimulator :=
  mkSim (N s) (phases s) (frequencies s) (dPhases s) k.

(** [normalizePhases()] *)
Definition normalizePhases (s : KuramotoSimulator) : KuramotoSimulator :=
  set_phases s
    (Js.for_loop (N s)
       (fun i p => Js.store p i (normalize (Js.load p i))) (phases s)).

(** [setFrequencies(type)]; the [switch] has no [default] branch. *)
Definition setFrequencies (g : Rng) (type : string) (s : KuramotoSimulator)
    (c : nat) : KuramotoSimulator * nat :=
  if String.eqb type "identical" then
    (set_frequencies s (Js.fill (frequencies s) 1), c)
  else if String.eqb type "random" then
    let '(f, c') :=
      Js.for_loop (N s)
        (fun i '(f, c) => (Js.store f i (0.8 + draw g c * 0.4), S c))
        (frequencies s, c) in
    (set_frequencies s f, c')
  else if String.eqb type "twoGroups" then
    (set_frequencies s
       (Js.for_loop (N s)
          (fun i f =>
             Js.store f i (if Js.lt (INR i) (INR (N s) / 2) then 0.8 else 1.2))
          (frequencies s)), c)
  else (s, c).

(** [setInitialPhases(type)]; again no [default] branch, and the
    normalisation runs whatever [type] is. *)
Definition setInitialPhases (g : Rng) (type : string) (s : KuramotoSimulator)
    (c : nat) : KuramotoSimulator * nat :=
  let '(p, c') :=
    if String.eqb type "random" then
      Js.for_loop (N s)
        (fun i '(p, c) => (Js.store p i (draw g c * TWO_PI), S c))
        (phases s, c)
    else if String.eqb type "quasiSync" then
      let center := draw g c * TWO_PI in
      Js.for_loop (N s)
        (fun i '(p, c) =>
           (Js.store p i (center + (draw g c - 0.5) * 0.3), S c))
        (phases s, S c)
    else if String.eqb type "twisted1" then
      (Js.for_loop (N s)
         (fun i p => Js.store p i ((TWO_PI * INR i) / INR (N s)))
         (phases s), c)
    else if String.eqb type "twisted2" then
      (Js.for_loop (N s)
         (fun i p => Js.store p i ((4 * PI * INR i) / INR (N s)))
         (phases s), c)
    else (phases s, c) in
  (normalizePhases (set_phases s p), c').

(** [new KuramotoSimulator(N)] *)
Definition constructor (g : Rng) (N : Z) (c : nat)
    : result (KuramotoSimulator * nat) :=
  if (N <? 0)%Z then RangeError
  else
    let n := Z.to_nat N in
    let this := mkSim n (Js.zeros n) (Js.zeros n) (Js.zeros n) 1 in
    let '(this, c) := setFrequencies g "identical" this c in
    Ok (setInitialPhases g "random" this c).

(** [perturb(intensity)] *)
Definition perturb (g : Rng) (intensity : R) (s : KuramotoSimulator)
    (c : nat) : KuramotoSimulator * nat :=
  let '(p, c') :=
    Js.for_loop (N s)
      (fun i '(p, c) =>
         (Js.store p i (Js.load p i + (draw g c - 0.5) * 2 * intensity * PI),
          S c))
      (phases s, c) in
  (normalizePhases (set_phases s p), c').

(** The ring neighbours [(i - 1 + N) % N] and [(i + 1) % N]. *)
Definition iPrev (n i : nat) : nat :=
  Z.to_nat (Z.rem (Z.of_nat i - 1 + Z.of_nat n) (Z.of_nat n)).
Definition iNext (n i : nat) : nat := (i + 1) mod n.

(** [computeDerivativesFor(phases, output)]; returns the new [output]. *)
Definition computeDerivativesFor (s : KuramotoSimulator)
    (ph output : list R) : list R :=
  let halfK := K s / 2 in
  Js.for_loop (N s)
    (fun i out =>
       let coupling :=
         halfK * (sin (Js.load ph (iNext (N s) i) - Js.load ph i) +
                  sin (Js.load ph (iPrev (N s) i) - Js.load ph i)) in
       Js.store out i (Js.load (frequencies s) i + coupling))
    output.

(** [computeDerivatives()]: the same loop, written a second time in the
    source, on [this.phases] and [this.dPhases]. *)
Definition computeDerivatives (s : KuramotoSimulator) : KuramotoSimulator :=
  let halfK := K s / 2 in
  set_dPhases s
    (Js.for_loop (N s)
       (fun i d =>
          let coupling :=
            halfK * (sin (Js.load (phases s) (iNext (N s) i) - Js.load (phases s) i) +
                     sin (Js.load (phases s) (iPrev (N s) i) - Js.load (phases s) i)) in
          Js.store d i (Js.load (frequencies s) i + coupling))
       (dPhases s)).

(** [step(dt)]: explicit Euler. *)
Definition step (dt : R) (s : KuramotoSimulator) : KuramotoSimulator :=
  let s := computeDerivatives s in
  let p :=
    Js.for_loop (N s)
      (fun i p => Js.store p i (Js.load p i + Js.load (dPhases s) i * dt))
      (phases s) in
  normalizePhases (set_phases s p).

(** [stepRK4(dt)] *)
Definition stepRK4 (dt : R) (s : KuramotoSimulator) : KuramotoSimulator :=
  let n := N s in
  let k2 := Js.zeros n in
  let k3 := Js.zeros n in
  let k4 := Js.zeros n in
  let temp := Js.zeros n in
  (* k1 *)
  let s := computeDerivatives s in
  let k1 := Js.set (Js.zeros n) (dPhases s) in
  (* k2 *)
  let temp :=
    Js.for_loop n
      (fun i t => Js.store t i (Js.load (phases s) i + 0.5 * dt * Js.load k1 i))
      temp in
  let k2 := computeDerivativesFor s temp k2 in
  (* k3 *)
  let temp :=
    Js.for_loop n
      (fun i t => Js.store t i (Js.load (phases s) i + 0.5 * dt * Js.load k2 i))
      temp in
  let k3 := computeDerivativesFor s temp k3 in
  (* k4 *)
  let temp :=
    Js.for_loop n
      (fun i t => Js.store t i (Js.load (phases s) i + dt * Js.load k3 i))
      temp in
  let k4 := computeDerivativesFor s temp k4 in
  (* combine *)
  let p :=
    Js.for_loop n
      (fun i p =>
         Js.store p i
           (Js.load p i +
            (dt / 6) * (Js.load k1 i + 2 * Js.load k2 i + 2 * Js.load k3 i
                        + Js.load k4 i)))
      (phases s) in
  normalizePhases (set_phases s p).

(** [getOrderParameter()] returns the object [{ r, psi }]. *)
Record OrderParameter := mkOrder { r : R; psi : R }.

Definition getOrderParameter (s : KuramotoSimulator) : OrderParameter :=
  let '(sumCos, sumSin) :=
    Js.for_loop (N s)
      (fun i '(sc, ss) =>
         (sc + cos (Js.load (phases s) i), ss + sin (Js.load (phases s) i)))
      (0, 0) in
  let sumCos := sumCos / INR (N s) in
  let sumSin := sumSin / INR (N s) in
  mkOrder (sqrt (sumCos * sumCos + sumSin * sumSin)) (Js.atan2 sumSin sumCos).

(** The two [while] loops that wrap a phase difference.  Each runs on the
    fuel [turns diff], which the loop never exhausts ([wrap_range]). *)
Fixpoint while_above (fuel : nat) (diff : R) : R :=
  match fuel with
  | O => diff
  | S fuel => if Js.gt diff PI then while_above fuel (diff - TWO_PI) else diff
  end.

Fixpoint while_below (fuel : nat) (diff : R) : R :=
  match fuel with
  | O => diff
  | S fuel => if Js.lt diff (- PI) then while_below fuel (diff + TWO_PI) else diff
  end.

Definition turns (diff : R) : nat := Z.to_nat (up (Rabs diff / TWO_PI)).

Definition wrap (diff : R) : R :=
  let diff := while_above (turns diff) diff in
  while_below (turns diff) diff.

(** [getWindingNumber()] *)
Definition getWindingNumber (s : KuramotoSimulator) : Z :=
  let totalWinding :=
    Js.for_loop (N s)
      (fun i total =>
         let diff := Js.load (phases s) (iNext (N s) i) - Js.load (phases s) i in
         total + wrap diff)
      0 in
  Js.round (totalWinding / TWO_PI).

(** [getPhaseVariance()] *)
Definition getPhaseVariance (s : KuramotoSimulator) : R :=
  1 - r (getOrderParameter s).

(** The labels [classifyState()] returns.  The source builds strings; each
    constructor stands for one string template and carries the values the
    template interpolates. *)
Inductive StateLabel : Type :=
  | Synchronise                 (* 'Synchronisé (q=0)' *)
  | Twisted (q : Z)             (* `Twisted (q=${q})` *)
  | Desynchronise               (* 'Désynchronisé' *)
  | Partiel (r : R) (q : Z).    (* `Partiel (r=${r.toFixed(2)}, q=${q})` *)

(** [classifyState()] *)
Definition classifyState (s : KuramotoSimulator) : StateLabel :=
  let r := r (getOrderParameter s) in
  let q := getWindingNumber s in
  if Js.gt r 0.9 then Synchronise
  else if (Js.abs q =? 1)%Z && Js.lt r 0.5 then Twisted q
  else if (Js.abs q =? 2)%Z && Js.lt r 0.3 then Twisted q
  else if Js.lt r 0.3 then Desynchronise
  else Partiel r q.

(** [getPhases()]: a copy of the array. *)
Definition getPhases (s : KuramotoSimulator) : list R := phases s.

(** [setCoupling(K)] *)
Definition setCoupling (K : R) (s : KuramotoSimulator) : KuramotoSimulator :=
  set_K s (Js.max 0 K).

(** ** class Experiments *)

Module Experiments.

(** The [results] object of [run]. *)
Record Results := mkResults {
  sync : Z; twisted1 : Z; twisted2 : Z; other : Z; total : Z
}.

(** The four branches that classify the final state of one simulation. *)
Definition tally (r : R) (q : Z) (res : Results) : Results :=
  if Js.gt r 0.85 then
    mkResults (sync res + 1) (twisted1 res) (twisted2 res) (other res) (total res)
  else if (Js.abs q =? 1)%Z then
    mkResults (sync res) (twisted1 res + 1) (twisted2 res) (other res) (total res)
  else if (Js.abs q =? 2)%Z then
    mkResults (sync res) (twisted1 res) (twisted2 res + 1) (other res) (total res)
  else
    mkResults (sync res) (twisted1 res) (twisted2 res) (other res + 1) (total res).

(** One pass of the body of the [for] loop of [run], up to and including
    the classification.  The writes to the page and the [await] between
    simulations touch neither the simulator nor the counters and are left
    out. *)
Definition simulation (g : Rng) (K : R) (N : Z) (steps : Z) (c : nat)
    : result (KuramotoSimulator * nat) :=
  match constructor g N c with
  | RangeError => RangeError
  | Ok (sim, c) =>
      let sim := setCoupling K sim in
      let '(sim, c) := setFrequencies g "identical" sim c in
      let '(sim, c) := setInitialPhases g "random" sim c in
      let sim := Js.for_loop (Z.to_nat steps) (fun _ sim => step 0.02 sim) sim in
      Ok (sim, c)
  end.

(** [run(numSims, K, N, steps)]; an exception of one simulation ends the
    run. *)
Definition run (g : Rng) (numSims : Z) (K : R) (N : Z) (steps : Z) (c : nat)
    : result (Results * nat) :=
  Js.for_loop (Z.to_nat numSims)
    (fun i acc =>
       match acc with
       | RangeError => RangeError
       | Ok (results, c) =>
           match simulation g K N steps c with
           | RangeError => RangeError
           | Ok (sim, c) =>
               let r := r (getOrderParameter sim) in
               let q := getWindingNumber sim in
               Ok (tally r q results, c)
           end
       end)
    (Ok (mkResults 0 0 0 0 numSims, c)).

End Experiments.

(** ** Invariants and reachable states *)

(** The three arrays have the length the constructor gave them. *)
Definition wf (s : KuramotoSimulator) : Prop :=
  length (phases s) = N s /\ length (frequencies s) = N s /\
  length (dPhases s) = N s.

(** A phase in [0, 2π). *)
Definition in_range (x : R) : Prop := 0 <= x < TWO_PI.

(** The invariant of the class: arrays of length [N], phases in [0, 2π). *)
Definition invariant (s : KuramotoSimulator) : Prop :=
  wf s /\ Forall in_range (phases s).

(** The simulators a program can hold: built by [new], then changed by
    any of the mutating methods, with arbitrary arguments and at any
    position of the random stream. *)
Inductive reachable (g : Rng) : KuramotoSimulator -> Prop :=
  | reach_new (n : Z) (c : nat) (s : KuramotoSimulator) (c' : nat) :
      constructor g n c = Ok (s, c') -> reachable g s
  | reach_setFrequencies (type : string) (c : nat) (s : KuramotoSimulator) :
      reachable g s -> reachable g (fst (setFrequencies g type s c))
  | reach_setInitialPhases (type : string) (c : nat) (s : KuramotoSimulator) :
      reachable g s -> reachable g (fst (setInitialPhases g type s c))
  | reach_perturb (intensity : R) (c : nat) (s : KuramotoSimulator) :
      reachable g s -> reachable g (fst (perturb g intensity s c))
  | reach_step (dt : R) (s : KuramotoSimulator) :
      reachable g s -> reachable g (step dt s)
  | reach_stepRK4 (dt : R) (s : KuramotoSimulator) :
      reachable g s -> reachable g (stepRK4 dt s)
  | reach_setCoupling (k : R) (s : KuramotoSimulator) :
      reachable g s -> reachable g (setCoupling k s).

(** A loop that rewrites slot [i] at pass [i] from the old content of that
    slot alone; every array loop of the simulator has this shape. *)
Definition sweep (f : nat -> R -> R) (n : nat) (a : list R) : list R :=
  Js.for_loop n (fun i a => Js.store a i (f i (Js.load a i))) a.

(** A random source whose every draw is 0, and the ring [new
    KuramotoSimulator(n)] builds from it; used to run the methods on
    concrete inputs. *)
Definition zero_rng : Rng :=
  mkRng (fun _ => 0) (fun _ => conj (Rle_refl 0) Rlt_0_1).

Definition ring_of (g : Rng) (n : Z) : KuramotoSimulator :=
  match constructor g n 0 with
  | Ok (s, _) => s
  | RangeError => mkSim 0 [] [] [] 0
  end.

(** The right-hand side of the model at oscillator [i], as both
    derivative loops compute it:
    ωᵢ + (K/2)·[sin(θᵢ₊₁ − θᵢ) + sin(θᵢ₋₁ − θᵢ)]. *)
Definition derivative (s : KuramotoSimulator) (ph : list R) (i : nat) : R :=
  Js.load (frequencies s) i +
  K s / 2 * (sin (Js.load ph (iNext (N s) i) - Js.load ph i) +
             sin (Js.load ph (iPrev (N s) i) - Js.load ph i)).


(** The sum of a list of reals. *)
Definition Rsum (l : list R) : R := foldr Rplus 0 l.

(** The means (1/N)·Σ cos θⱼ and (1/N)·Σ sin θⱼ of the order parameter. *)
Definition meanCos (s : KuramotoSimulator) : R := Rsum (cos <$> phases s) / INR (N s).
Definition meanSin (s : KuramotoSimulator) : R := Rsum (sin <$> phases s) / INR (N s).

(** All oscillators have the same phase. *)
Definition all_equal (l : list R) : Prop :=
  forall (i j : nat) (x y : R), l !! i = Some x -> l !! j = Some y -> x = y.

(** Four oscillators a quarter turn apart: phases {0, π/2, π, 3π/2}. *)
Definition quarter_turn_ring : KuramotoSimulator :=
  mkSim 4 [0; PI / 2; PI; 3 * (PI / 2)] [1; 1; 1; 1] [0; 0; 0; 0] 1.

(** ** The experiment, as the specification words it *)

(** The ring a simulation of [run] integrates: [n] oscillators, coupling
    [K] clamped at 0, all frequencies 1, phases from [n] draws starting at
    cursor [c]. *)
Definition start_ring (g : Rng) (K : R) (n : nat) (c : nat) : KuramotoSimulator :=
  mkSim n ((fun i => draw g (c + i) * TWO_PI) <$> seq 0 n)
    (replicate n 1) (replicate n 0) (Js.max 0 K).

(** The final state of simulation number [j] of a run that starts at
    cursor [c]: each simulation takes [2n] draws, the first [n] of them in
    the constructor, the last [n] in [setInitialPhases('random')], and then
    makes [steps] Euler steps of 0.02. *)
Definition trial_final (g : Rng) (K : R) (n steps c j : nat) : KuramotoSimulator :=
  Nat.iter steps (step 0.02) (start_ring g K n (c + 2 * n * j + n)).

(** The four classes of a final state. *)
Inductive Outcome : Type := Sync | Twisted1 | Twisted2 | Other.

Definition Outcome_eqb (a b : Outcome) : bool :=
  match a, b with
  | Sync, Sync | Twisted1, Twisted1 | Twisted2, Twisted2 | Other, Other => true
  | _, _ => false
  end.

(** sync iff r > 0.85, else twisted1 iff |q| = 1, else twisted2 iff
    |q| = 2, else other. *)
Definition outcome (sim : KuramotoSimulator) : Outcome :=
  if Js.gt (r (getOrderParameter sim)) 0.85 then Sync
  else if (Z.abs (getWindingNumber sim) =? 1)%Z then Twisted1
  else if (Z.abs (getWindingNumber sim) =? 2)%Z then Twisted2
  else Other.

(** How many of the final states fall in class [o]. *)
Definition count (o : Outcome) (l : list KuramotoSimulator) : Z :=
  Z.of_nat (length (List.filter (fun sim => Outcome_eqb (outcome sim) o) l)).

(** The counters after the final states [l] have been tallied on top of
    [res]. *)
Definition add_counts (res : Experiments.Results) (l : list KuramotoSimulator)
    : Experiments.Results :=
  Experiments.mkResults
    (Experiments.sync res + count Sync l)
    (Experiments.twisted1 res + count Twisted1 l)
    (Experiments.twisted2 res + count Twisted2 l)
    (Experiments.other res + count Other l)
    (Experiments.total res).

(** The phases a twisted policy leaves behind: slot [i] holds
    [c·i/n], normalised; [c = 2π] for [twisted1], [c = 4π] for
    [twisted2]. *)
Definition twist (c : R) (n : nat) : list R :=
  (fun i => normalize (c * INR i / INR n)) <$> seq 0 n.

(** ** The stages of the Runge-Kutta step *)

(** The slopes [computeDerivativesFor] returns for a phase vector, and the
    trial vector [phases[i] + h * k[i]] that [stepRK4] builds in [temp]. *)
Definition slopes (s : KuramotoSimulator) (ph : list R) : list R :=
  derivative s ph <$> seq 0 (N s).
Definition stage (s : KuramotoSimulator) (h : R) (k : list R) : list R :=
  (fun i => Js.load (phases s) i + h * Js.load k i) <$> seq 0 (N s).

Definition rk4_k1 (s : KuramotoSimulator) : list R := slopes s (phases s).
Definition rk4_k2 (dt : R) (s : KuramotoSimulator) : list R :=
  slopes s (stage s (0.5 * dt) (rk4_k1 s)).
Definition rk4_k3 (dt : R) (s : KuramotoSimulator) : list R :=
  slopes s (stage s (0.5 * dt) (rk4_k2 dt s)).
Definition rk4_k4 (dt : R) (s : KuramotoSimulator) : list R :=
  slopes s (stage s dt (rk4_k3 dt s)).


(** The sum [getWindingNumber] accumulates before it divides and rounds. *)
Definition totalWinding (s : KuramotoSimulator) : R :=
  Js.for_loop (N s)
    (fun i total =>
       let diff := Js.load (phases s) (iNext (N s) i) - Js.load (phases s) i in
       total + wrap diff)
    0.

(** ** class AppState (state.js)

    The record has the fields of the class.  [onStateChange] is [null] in
    the constructor and no code of the repository assigns it; the model
    keeps whether a callback is installed and, in [notified], the property
    names [notifyChange] has passed to it.  What a callback would do to the
    state is outside the model.  [getModeDescription] only selects one of
    four fixed texts and is not modelled. *)

(** The objects [{ K, r }] of the hysteresis curves. *)
Module Point.
Record t := mk { K : R; r : R }.
End Point.

Module AppState.

Record t := mk {
  N : nat;   (* Number of oscillators *)
  K : R;   (* Coupling strength *)
  dt : R;   (* Base time step *)
  speedMultiplier : R;
  running : bool;
  time : R;
  mode : Z;   (* Current mode (1-4) *)
  frequencyType : string;
  sweeping : bool;
  sweepDirection : R;   (* 1 = up, -1 = down *)
  sweepSpeed : R;
  rHistory : list R;   (* r(t) values *)
  maxHistoryLength : nat;
  hysteresisUp : list Point.t;   (* {K, r} pairs for K increasing *)
  hysteresisDown : list Point.t;   (* {K, r} pairs for K decreasing *)
  experimentResults : option Experiments.Results;
  onStateChange : bool;   (* is a callback installed? *)
  notified : list string   (* the calls made to the callback, oldest first *)
}.

Definition set_K (st : t) (v : R) : t :=
  mk (N st) v (dt st) (speedMultiplier st) (running st) (time st) (mode st)
    (frequencyType st) (sweeping st) (sweepDirection st) (sweepSpeed st)
    (rHistory st) (maxHistoryLength st) (hysteresisUp st)
    (hysteresisDown st) (experimentResults st) (onStateChange st)
    (notified st).
Definition set_speedMultiplier (st : t) (v : R) : t :=
  mk (N st) (K st) (dt st) v (running st) (time st) (mode st)
    (frequencyType st) (sweeping st) (sweepDirection st) (sweepSpeed st)
    (rHistory st) (maxHistoryLength st) (hysteresisUp st)
    (hysteresisDown st) (experimentResults st) (onStateChange st)
    (notified st).
Definition set_running (st : t) (v : bool) : t :=
  mk (N st) (K st) (dt st) (speedMultiplier st) v (time st) (mode st)
    (frequencyType st) (sweeping st) (sweepDirection st) (sweepSpeed st)
    (rHistory st) (maxHistoryLength st) (hysteresisUp st)
    (hysteresisDown st) (experimentResults st) (onStateChange st)
    (notified st).
Definition set_time (st : t) (v : R) : t :=
  mk (N st) (K st) (dt st) (speedMultiplier st) (running st) v (mode st)
    (frequencyType st) (sweeping st) (sweepDirection st) (sweepSpeed st)
    (rHistory st) (maxHistoryLength st) (hysteresisUp st)
    (hysteresisDown st) (experimentResults st) (onStateChange st)
    (notified st).
Definition set_mode (st : t) (v : Z) : t :=
  mk (N st) (K st) (dt st) (speedMultiplier st) (running st) (time st) v
    (frequencyType st) (sweeping st) (sweepDirection st) (sweepSpeed st)
    (rHistory st) (maxHistoryLength st) (hysteresisUp st)
    (hysteresisDown st) (experimentResults st) (onStateChange st)
    (notified st).
Definition set_frequencyType (st : t) (v : string) : t :=
  mk (N st) (K st) (dt st) (speedMultiplier st) (running st) (time st)
    (mode st) v (sweeping st) (sweepDirection st) (sweepSpeed st)
    (rHistory st) (maxHistoryLength st) (hysteresisUp st)
    (hysteresisDown st) (experimentResults st) (onStateChange st)
    (notified st).
Definition set_sweeping (st : t) (v : bool) : t :=
  mk (N st) (K st) (dt st) (speedMultiplier st) (running st) (time st)
    (mode st) (frequencyType st) v (sweepDirection st) (sweepSpeed st)
    (rHistory st) (maxHistoryLength st) (hysteresisUp st)
    (hysteresisDown st) (experimentResults st) (onStateChange st)
    (notified st).
Definition set_sweepDirection (st : t) (v : R) : t :=
  mk (N st) (K st) (dt st) (speedMultiplier st) (running st) (time st)
    (mode st) (frequencyType st) (sweeping st) v (sweepSpeed st)
    (rHistory st) (maxHistoryLength st) (hysteresisUp st)
    (hysteresisDown st) (experimentResults st) (onStateChange st)
    (notified st).
Definition set_rHistory (st : t) (v : list R) : t :=
  mk (N st) (K st) (dt st) (speedMultiplier st) (running st) (time st)
    (mode st) (frequencyType st) (sweeping st) (sweepDirection st)
    (sweepSpeed st) v (maxHistoryLength st) (hysteresisUp st)
    (hysteresisDown st) (experimentResults st) (onStateChange st)
    (notified st).
Definition set_hysteresisUp (st : t) (v : list Point.t) : t :=
  mk (N st) (K st) (dt st) (speedMultiplier st) (running st) (time st)
    (mode st) (frequencyType st) (sweeping st) (sweepDirection st)
    (sweepSpeed st) (rHistory st) (maxHistoryLength st) v
    (hysteresisDown st) (experimentResults st) (onStateChange st)
    (notified st).
Definition set_hysteresisDown (st : t) (v : list Point.t) : t :=
  mk (N st) (K st) (dt st) (speedMultiplier st) (running st) (time st)
    (mode st) (frequencyType st) (sweeping st) (sweepDirection st)
    (sweepSpeed st) (rHistory st) (maxHistoryLength st) (hysteresisUp st) v
    (experimentResults st) (onStateChange st) (notified st).
Definition set_experimentResults (st : t) (v : option Experiments.Results) : t :=
  mk (N st) (K st) (dt st) (speedMultiplier st) (running st) (time st)
    (mode st) (frequencyType st) (sweeping st) (sweepDirection st)
    (sweepSpeed st) (rHistory st) (maxHistoryLength st) (hysteresisUp st)
    (hysteresisDown st) v (onStateChange st) (notified st).
Definition set_onStateChange (st : t) (v : bool) : t :=
  mk (N st) (K st) (dt st) (speedMultiplier st) (running st) (time st)
    (mode st) (frequencyType st) (sweeping st) (sweepDirection st)
    (sweepSpeed st) (rHistory st) (maxHistoryLength st) (hysteresisUp st)
    (hysteresisDown st) (experimentResults st) v (notified st).
Definition set_notified (st : t) (v : list string) : t :=
  mk (N st) (K st) (dt st) (speedMultiplier st) (running st) (time st)
    (mode st) (frequencyType st) (sweeping st) (sweepDirection st)
    (sweepSpeed st) (rHistory st) (maxHistoryLength st) (hysteresisUp st)
    (hysteresisDown st) (experimentResults st) (onStateChange st) v.

(** [new AppState()] *)
Definition new : t :=
  mk 16 1 0.02 1 false 0 1 "identical" false 0 0.005 [] 500 [] [] None false [].

(** [notifyChange(property)] *)
Definition notifyChange (property : string) (st : t) : t :=
  if onStateChange st then set_notified st (notified st ++ [property]) else st.

(** [setRunning(running)] *)
Definition setRunning (running : bool) (st : t) : t :=
  notifyChange "running" (set_running st running).

(** [toggleRunning()]; returns the new value of [running]. *)
Definition toggleRunning (st : t) : t * bool :=
  let st := set_running st (negb (running st)) in
  let st := notifyChange "running" st in
  (st, running st).

(** [setK(K)] *)
Definition setK (K : R) (st : t) : t :=
  notifyChange "K" (set_K st (Js.max 0 (Js.min 5 K))).

(** [setMode(mode)] *)
Definition setMode (mode : Z) (st : t) : t :=
  notifyChange "mode" (set_mode st mode).

(** [setFrequencyType(type)] *)
Definition setFrequencyType (type : string) (st : t) : t :=
  notifyChange "frequencyType" (set_frequencyType st type).

(** [setSpeed(multiplier)] *)
Definition setSpeed (multiplier : R) (st : t) : t :=
  notifyChange "speed"
    (set_speedMultiplier st (Js.max 0.25 (Js.min 4 multiplier))).

(** [startSweep(direction)] *)
Definition startSweep (direction : R) (st : t) : t :=
  let st := set_sweeping st true in
  let st := set_sweepDirection st direction in
  let st :=
    if Js.gt direction 0 then set_hysteresisUp st []
    else set_hysteresisDown st [] in
  notifyChange "sweep" st.

(** [stopSweep()] *)
Definition stopSweep (st : t) : t :=
  let st := set_sweeping st false in
  let st := set_sweepDirection st 0 in
  notifyChange "sweep" st.

(** [updateSweep()]; returns whether the sweep goes on. *)
Definition updateSweep (st : t) : t * bool :=
  if negb (sweeping st) then (st, false)
  else
    let st := set_K st (K st + sweepDirection st * sweepSpeed st) in
    let st :=
      if Js.le (K st) 0 then stopSweep (set_K st 0)
      else if Js.ge (K st) 5 then stopSweep (set_K st 5)
      else st in
    (st, sweeping st).

(** [addToHistory(r, K)].  The second parameter, [K] in the source, is
    never read: the point recorded takes [this.K]. *)
Definition addToHistory (r : R) (K_param : R) (st : t) : t :=
  let st := set_rHistory st (rHistory st ++ [r]) in
  let st :=
    if (maxHistoryLength st <? length (rHistory st))%nat
    then set_rHistory st (tail (rHistory st))
    else st in
  if sweeping st then
    let point := Point.mk (K st) r in
    if Js.gt (sweepDirection st) 0
    then set_hysteresisUp st (hysteresisUp st ++ [point])
    else set_hysteresisDown st (hysteresisDown st ++ [point])
  else st.

(** [clearHistory()] *)
Definition clearHistory (st : t) : t :=
  let st := set_rHistory st [] in
  set_time st 0.

(** [clearHysteresis()] *)
Definition clearHysteresis (st : t) : t :=
  let st := set_hysteresisUp st [] in
  set_hysteresisDown st [].

(** [reset()] *)
Definition reset (st : t) : t :=
  let st := set_K st 1 in
  let st := set_running st false in
  let st := set_time st 0 in
  let st := set_sweeping st false in
  let st := set_sweepDirection st 0 in
  let st := clearHistory st in
  notifyChange "reset" st.

(** [fullReset()] *)
Definition fullReset (st : t) : t :=
  let st := reset st in
  let st := clearHysteresis st in
  let st := set_experimentResults st None in
  notifyChange "fullReset" st.

(** [getEffectiveDt()] *)
Definition getEffectiveDt (st : t) : R := dt st * speedMultiplier st.

(** What every method keeps true. *)
Definition ok (st : t) : Prop :=
  0 <= K st <= 5 /\ 0.25 <= speedMultiplier st <= 4 /\
  dt st = 0.02 /\ sweepSpeed st = 0.005 /\ maxHistoryLength st = 500%nat /\
  (length (rHistory st) <= 500)%nat /\
  (sweeping st = false -> sweepDirection st = 0).

(** The states a program can see: the constructor's, then any method
    with any argument, a callback installed or removed, and [time]
    written from outside as the animation loop does. *)
Inductive reachable : t -> Prop :=
  | reach_new : reachable new
  | reach_setRunning b st : reachable st -> reachable (setRunning b st)
  | reach_toggleRunning st : reachable st -> reachable (fst (toggleRunning st))
  | reach_setK k st : reachable st -> reachable (setK k st)
  | reach_setMode m st : reachable st -> reachable (setMode m st)
  | reach_setFrequencyType ty st :
      reachable st -> reachable (setFrequencyType ty st)
  | reach_setSpeed v st : reachable st -> reachable (setSpeed v st)
  | reach_startSweep d st : reachable st -> reachable (startSweep d st)
  | reach_stopSweep st : reachable st -> reachable (stopSweep st)
  | reach_updateSweep st : reachable st -> reachable (fst (updateSweep st))
  | reach_addToHistory r k st : reachable st -> reachable (addToHistory r k st)
  | reach_clearHistory st : reachable st -> reachable (clearHistory st)
  | reach_clearHysteresis st : reachable st -> reachable (clearHysteresis st)
  | reach_reset st : reachable st -> reachable (reset st)
  | reach_fullReset st : reachable st -> reachable (fullReset st)
  | reach_callback b st : reachable st -> reachable (set_onStateChange st b)
  | reach_time v st : reachable st -> reachable (set_time st v).

End AppState.

(** One call of [updateSweep()], keeping the state only. *)
Definition sweep_tick (st : AppState.t) : AppState.t :=
  fst (AppState.updateSweep st).

(** [addToHistory] called once for each pair [(r, K)] of a list, in
    order. *)
Definition record_all (rks : list (R * R)) (st : AppState.t) : AppState.t :=
  fold_left (fun st rk => AppState.addToHistory (fst rk) (snd rk) st) rks st.

(** ** class App (main.js) and class Controls (controls.js)

    The application owns one simulator; [appState] is the singleton of
    state.js; [random] is the cursor of [Math.random()].  The canvases and
    the page (the renderers, [textContent], [classList]) are written but
    never read back and are left out, and with them
    [Controls.updateDisplays].  The experiment button starts the
    asynchronous [Experiments.run], whose simulations interleave with the
    animation frames; it touches neither the simulator nor [appState] and
    is left out as well. *)
Module App.

Record t := mk {
  simulator : KuramotoSimulator;
  appState : AppState.t;
  random : nat
}.

(** [updateVisuals()]: the diagnostics are read and [r] goes to the
    history; the renderers and displays follow. *)
Definition updateVisuals (app : t) : t :=
  let phases := getPhases (simulator app) in
  let orderParam := getOrderParameter (simulator app) in
  let q := getWindingNumber (simulator app) in
  let variance := getPhaseVariance (simulator app) in
  mk (simulator app)
     (AppState.addToHistory (r orderParam) (AppState.K (appState app))
        (appState app))
     (random app).

(** [new App()], on a page whose state is the freshly loaded singleton. *)
Definition constructor (g : Rng) (c : nat) : result t :=
  match constructor g 16 c with
  | RangeError => RangeError
  | Ok (sim, c) => Ok (updateVisuals (mk sim AppState.new c))
  end.

(** [animate(currentTime)]: one animation frame. *)
Definition animate (app : t) : t :=
  if AppState.running (appState app) then
    let dt := AppState.getEffectiveDt (appState app) in
    let sim := step dt (simulator app) in
    let st := AppState.set_time (appState app)
                (AppState.time (appState app) + dt) in
    let '(sim, st) :=
      if AppState.sweeping st then
        let st := fst (AppState.updateSweep st) in
        (setCoupling (AppState.K st) sim, st)
      else (sim, st) in
    updateVisuals (mk sim st (random app))
  else app.

(** What the user can do; each constructor is one listener that
    [Controls.setupEventListeners] installs, with the value read from the
    control. *)
Inductive Event : Type :=
  | ModeClick (mode : Z)
  | KSliderInput (value : R)
  | SweepUpClick
  | SweepDownClick
  | StopSweepClick
  | FreqClick (freq : string)
  | InitClick (init : string)
  | PerturbClick (intensity : R)
  | SpeedInput (value : R)
  | PlayPauseClick
  | StepClick
  | ResetClick
  | Frame.

(** The listeners. *)
Definition handle (g : Rng) (ev : Event) (app : t) : t :=
  let sim := simulator app in
  let st := appState app in
  let c := random app in
  match ev with
  | ModeClick mode => mk sim (AppState.setMode mode st) c
  | KSliderInput value =>
      let st := AppState.setK value st in
      mk (setCoupling (AppState.K st) sim) st c
  | SweepUpClick =>
      mk sim (AppState.setRunning true (AppState.startSweep 1 st)) c
  | SweepDownClick =>
      mk sim (AppState.setRunning true (AppState.startSweep (-1) st)) c
  | StopSweepClick => mk sim (AppState.stopSweep st) c
  | FreqClick freq =>
      let '(sim, c) := setFrequencies g freq sim c in
      mk sim (AppState.setFrequencyType freq st) c
  | InitClick init =>
      let '(sim, c) := setInitialPhases g init sim c in
      updateVisuals (mk sim (AppState.clearHistory st) c)
  | PerturbClick intensity =>
      let '(sim, c) := perturb g intensity sim c in
      updateVisuals (mk sim st c)
  | SpeedInput value => mk sim (AppState.setSpeed value st) c
  | PlayPauseClick => mk sim (fst (AppState.toggleRunning st)) c
  | StepClick =>
      updateVisuals (mk (step (AppState.getEffectiveDt st) sim) st c)
  | ResetClick =>
      let st := AppState.reset st in
      let sim := setCoupling 1.0 sim in
      let '(sim, c) := setInitialPhases g "random" sim c in
      updateVisuals (mk sim st c)
  | Frame => animate app
  end.

(** The states of a running application. *)
Inductive reachable (g : Rng) : t -> Prop :=
  | reach_start (c : nat) (app : t) : constructor g c = Ok app -> reachable g app
  | reach_event (ev : Event) (app : t) :
      reachable g app -> reachable g (handle g ev app).

(** A value that can be plotted: [r] in [0, 1], and for a point of a
    hysteresis curve also [K] in [0, 5]. *)
Definition unit_value (x : R) : Prop := 0 <= x <= 1.
Definition in_plot (p : Point.t) : Prop :=
  0 <= Point.K p <= 5 /\ 0 <= Point.r p <= 1.

(** What the application can be said to record: [r] is a square root and
    so not negative, and the [K] of a point is the clamped coupling.  No
    bound above is put on [r]: computed in doubles it exceeds 1 by
    rounding on some synchronised rings. *)
Definition recorded_value (x : R) : Prop := 0 <= x.
Definition recorded_point (p : Point.t) : Prop :=
  0 <= Point.K p <= 5 /\ 0 <= Point.r p.

End App.

(** What is kept for plotting is as recorded. *)
Definition plots_ok (st : AppState.t) : Prop :=
  Forall App.recorded_value (AppState.rHistory st) /\
  Forall App.recorded_point (AppState.hysteresisUp st) /\
  Forall App.recorded_point (AppState.hysteresisDown st).

(** What holds in every state of the running application. *)
Definition app_inv (g : Rng) (app : App.t) : Prop :=
  reachable g (App.simulator app) /\
  AppState.reachable (App.appState app) /\
  K (App.simulator app) = AppState.K (App.appState app) /\
  N (App.simulator app) = 16%nat /\
  plots_ok (App.appState app).

(** The application right after [new App()], the random stream at its
    start. *)
Definition app_of (g : Rng) : App.t :=
  App.updateVisuals (App.mk (ring_of g 16) AppState.new 16).

(** [n] animation frames in a row. *)
Definition frames (n : nat) (app : App.t) : App.t := Nat.iter n App.animate app.

(** Two states in which a sweep stands at the same point. *)
Definition same_sweep (st1 st2 : AppState.t) : Prop :=
  AppState.K st1 = AppState.K st2 /\
  AppState.sweeping st1 = AppState.sweeping st2 /\
  AppState.sweepDirection st1 = AppState.sweepDirection st2 /\
  AppState.sweepSpeed st1 = AppState.sweepSpeed st2.

(** ** The two plots ([graphs.js]) *)

(** A 2D canvas is modelled by its size and by the calls its drawing
    context has received, oldest first; an assignment to a property of the
    context ([ctx.fillStyle = ...]) counts as a call.  The two canvases
    stand beside [App.t]: [App.updateVisuals] hands [appState.rHistory] and
    the two hysteresis curves to the functions below and reads nothing
    back.  The ring view and the phase circle build their colours and
    labels from numbers printed into strings and are not modelled. *)
Module Canvas.

Inductive Call : Type :=
  | fillStyle (v : string)
  | strokeStyle (v : string)
  | lineWidth (v : R)
  | font (v : string)
  | textAlign (v : string)
  | setLineDash (segments : list R)
  | fillRect (x y w h : R)
  | beginPath
  | moveTo (x y : R)
  | lineTo (x y : R)
  | stroke
  | fillText (text : string) (x y : R).

Record t := mk { width : R; height : R; calls : list Call }.

Definition call (c : Call) (ctx : t) : t :=
  mk (width ctx) (height ctx) (calls ctx ++ [c]).

(** [ctx'] is [ctx] after some more calls, each of which satisfies [P]. *)
Definition extends (P : Call -> Prop) (ctx ctx' : t) : Prop :=
  width ctx' = width ctx /\ height ctx' = height ctx /\
  exists new : list Call, calls ctx' = calls ctx ++ new /\ Forall P new.

End Canvas.

Notation "ctx '.>' c" := (Canvas.call c ctx) (at level 50, left associativity).

Module Graphs.

Record Padding := mkPadding { top : R; right : R; bottom : R; left : R }.

Record t := mk { rCanvas : Canvas.t; hCanvas : Canvas.t; padding : Padding }.

(** [new Graphs(rGraphCanvas, hysteresisCanvas)] *)
Definition constructor (rGraphCanvas hysteresisCanvas : Canvas.t) : t :=
  mk rGraphCanvas hysteresisCanvas (mkPadding 20 20 30 45).

(** [data[i]] of an array of points, inside its bounds. *)
Definition point (data : list Point.t) (i : nat) : Point.t :=
  default (Point.mk 0 0) (data !! i).

(** [renderRGraph(rHistory)] *)
Definition renderRGraph (rHistory : list R) (this : t) : t :=
  let ctx := rCanvas this in
  let w := Canvas.width (rCanvas this) in
  let h := Canvas.height (rCanvas this) in
  let p := padding this in
  let ctx := ctx .> Canvas.fillStyle "#0a0a0f"
                 .> Canvas.fillRect 0 0 w h in
  let plotW := w - left p - right p in
  let plotH := h - top p - bottom p in
  (* Axes *)
  let ctx := ctx .> Canvas.strokeStyle "rgba(100, 100, 150, 0.5)"
                 .> Canvas.lineWidth 1
                 .> Canvas.beginPath
                 .> Canvas.moveTo (left p) (top p)
                 .> Canvas.lineTo (left p) (h - bottom p)
                 .> Canvas.lineTo (w - right p) (h - bottom p)
                 .> Canvas.stroke in
  (* Y-axis labels *)
  let ctx := ctx .> Canvas.fillStyle "rgba(160, 160, 176, 0.8)"
                 .> Canvas.font "11px monospace"
                 .> Canvas.textAlign "right"
                 .> Canvas.fillText "1.0" (left p - 5) (top p + 5)
                 .> Canvas.fillText "0.5" (left p - 5) (top p + plotH / 2 + 3)
                 .> Canvas.fillText "0.0" (left p - 5) (h - bottom p + 3) in
  (* Grid lines *)
  let ctx := ctx .> Canvas.strokeStyle "rgba(100, 100, 150, 0.2)"
                 .> Canvas.setLineDash [3; 3]
                 .> Canvas.beginPath
                 .> Canvas.moveTo (left p) (top p + plotH / 2)
                 .> Canvas.lineTo (w - right p) (top p + plotH / 2)
                 .> Canvas.stroke
                 .> Canvas.setLineDash [] in
  (* Plot r(t) *)
  let ctx :=
    if (1 <? length rHistory)%nat then
      let ctx := ctx .> Canvas.beginPath
                     .> Canvas.strokeStyle "rgba(6, 182, 212, 0.9)"
                     .> Canvas.lineWidth 2 in
      let ctx :=
        Js.for_loop (length rHistory)
          (fun i ctx =>
             let x := left p + (INR i / (INR (length rHistory) - 1)) * plotW in
             let y := h - bottom p - Js.load rHistory i * plotH in
             if (i =? 0)%nat then ctx .> Canvas.moveTo x y
             else ctx .> Canvas.lineTo x y)
          ctx in
      ctx .> Canvas.stroke
    else ctx in
  (* X label *)
  let ctx := ctx .> Canvas.fillStyle "rgba(160, 160, 176, 0.6)"
                 .> Canvas.textAlign "center"
                 .> Canvas.fillText "temps →" (w / 2) (h - 5) in
  mk ctx (hCanvas this) (padding this).

(** [plotCurve(ctx, data, plotW, plotH, p, color, w, h)] *)
Definition plotCurve (ctx : Canvas.t) (data : list Point.t) (plotW plotH : R)
    (p : Padding) (color : string) (w h : R) : Canvas.t :=
  if (length data <? 2)%nat then ctx
  else
    let ctx := ctx .> Canvas.beginPath
                   .> Canvas.strokeStyle color
                   .> Canvas.lineWidth 2 in
    let ctx :=
      Js.for_loop (length data)
        (fun i ctx =>
           let x := left p + (Point.K (point data i) / 5) * plotW in
           let y := h - bottom p - Point.r (point data i) * plotH in
           if (i =? 0)%nat then ctx .> Canvas.moveTo x y
           else ctx .> Canvas.lineTo x y)
        ctx in
    ctx .> Canvas.stroke.

(** [renderHysteresis(upData, downData)] *)
Definition renderHysteresis (upData downData : list Point.t) (this : t) : t :=
  let ctx := hCanvas this in
  let w := Canvas.width (hCanvas this) in
  let h := Canvas.height (hCanvas this) in
  let p := padding this in
  let ctx := ctx .> Canvas.fillStyle "#0a0a0f"
                 .> Canvas.fillRect 0 0 w h in
  let plotW := w - left p - right p in
  let plotH := h - top p - bottom p in
  (* Axes *)
  let ctx := ctx .> Canvas.strokeStyle "rgba(100, 100, 150, 0.5)"
                 .> Canvas.lineWidth 1
                 .> Canvas.beginPath
                 .> Canvas.moveTo (left p) (top p)
                 .> Canvas.lineTo (left p) (h - bottom p)
                 .> Canvas.lineTo (w - right p) (h - bottom p)
                 .> Canvas.stroke in
  (* Labels *)
  let ctx := ctx .> Canvas.fillStyle "rgba(160, 160, 176, 0.8)"
                 .> Canvas.font "11px monospace"
                 .> Canvas.textAlign "right"
                 .> Canvas.fillText "1.0" (left p - 5) (top p + 5)
                 .> Canvas.fillText "0.0" (left p - 5) (h - bottom p + 3)
                 .> Canvas.textAlign "center"
                 .> Canvas.fillText "0" (left p) (h - 8)
                 .> Canvas.fillText "5" (w - right p) (h - 8)
                 .> Canvas.fillText "K" (w / 2) (h - 5) in
  (* Plot up sweep (cyan) *)
  let ctx := plotCurve ctx upData plotW plotH p "rgba(6, 182, 212, 0.9)" w h in
  (* Plot down sweep (magenta) *)
  let ctx := plotCurve ctx downData plotW plotH p "rgba(236, 72, 153, 0.9)" w h in
  (* Legend *)
  let ctx :=
    if ((0 <? length upData)%nat || (0 <? length downData)%nat)%bool then
      ctx .> Canvas.font "10px sans-serif"
          .> Canvas.fillStyle "rgba(6, 182, 212, 0.9)"
          .> Canvas.fillText "▲ K↑" (w - 40) (top p + 10)
          .> Canvas.fillStyle "rgba(236, 72, 153, 0.9)"
          .> Canvas.fillText "▼ K↓" (w - 40) (top p + 22)
    else ctx in
  mk (rCanvas this) ctx (padding this).

End Graphs.

(** A call that moves the pen does so to a point of the closed rectangle
    between the axes, [x0 <= x <= x1] and [y0 <= y <= y1]; other calls are
    not constrained. *)
Definition pen_inside (x0 x1 y0 y1 : R) (c : Canvas.Call) : Prop :=
  match c with
  | Canvas.moveTo x y | Canvas.lineTo x y => x0 <= x <= x1 /\ y0 <= y <= y1
  | _ => True
  end.

(** The rectangle between the axes of a plot on a canvas of the given
    size, with the padding of [Graphs]. *)
Definition inside_axes (cv : Canvas.t) : Canvas.Call -> Prop :=
  pen_inside 45 (Canvas.width cv - 20) 20 (Canvas.height cv - 30).

(** A call that moves the pen does so to a point between the two ends of
    the x-axis, [x0 <= x <= x1], and on or above it, [y <= y1] (on a
    canvas [y] grows downwards); nothing is said of how high. *)
Definition pen_above (x0 x1 y1 : R) (c : Canvas.Call) : Prop :=
  match c with
  | Canvas.moveTo x y | Canvas.lineTo x y => x0 <= x <= x1 /\ y <= y1
  | _ => True
  end.

(** The half-strip over the x-axis of a plot on a canvas of the given
    size, with the padding of [Graphs]. *)
Definition over_baseline (cv : Canvas.t) : Canvas.Call -> Prop :=
  pen_above 45 (Canvas.width cv - 20) (Canvas.height cv - 30).

(** ** The order parameter on binary64 numbers

    The second embedding of [getOrderParameter()]: the same loop, sums and
    square root, on the doubles the program computes with.  [Math.cos] and
    [Math.sin] are the engine's and ECMAScript leaves their precision to
    the implementation, so they are a parameter; [psi], which does not
    enter [r], is left out.  A read past the end of the array yields
    [undefined], whose cosine and sine are NaN. *)
Module F64.

Local Open Scope float_scope.

Record Math := mkMath { cos : float -> float; sin : float -> float }.

Record Ring := mkRing { N : nat; phases : list float }.

(** The number [this.N]. *)
Definition of_nat (n : nat) : float :=
  PrimFloat.of_uint63 (Uint63.of_Z (Z.of_nat n)).

(** [f(phases[i])] for [f] one of [Math.cos], [Math.sin]. *)
Definition at_phase (f : float -> float) (a : list float) (i : nat) : float :=
  match a !! i with
  | Some x => f x
  | None => PrimFloat.nan
  end.

(** The field [r] of [getOrderParameter()]. *)
Definition getOrderParameter_r (M : Math) (s : Ring) : float :=
  let '(sumCos, sumSin) :=
    Js.for_loop (N s)
      (fun i '(sc, ss) =>
         (sc + at_phase (cos M) (phases s) i,
          ss + at_phase (sin M) (phases s) i))
      (0, 0) in
  let sumCos := sumCos / of_nat (N s) in
  let sumSin := sumSin / of_nat (N s) in
  PrimFloat.sqrt (sumCos * sumCos + sumSin * sumSin).

(** The sum a loop [acc += x] builds from 0, left to right. *)
Definition sum (xs : list float) : float := fold_left PrimFloat.add xs 0.

Definition meanCos (M : Math) (s : Ring) : float :=
  sum (at_phase (cos M) (phases s) <$> seq 0 (N s)) / of_nat (N s).

Definition meanSin (M : Math) (s : Ring) : float :=
  sum (at_phase (sin M) (phases s) <$> seq 0 (N s)) / of_nat (N s).





End F64.

(** * Properties *)

Lemma TWO_PI_pos : 0 < TWO_PI.
Proof. unfold TWO_PI. pose proof PI_RGT_0. lra. Qed.

Lemma Int_part_spec (x : R) : IZR (Int_part x) <= x < IZR (Int_part x) + 1.
Proof.
  unfold Int_part. rewrite minus_IZR.
  destruct (archimed x) as [H1 H2]. lra.
Qed.

Lemma Int_part_unique (x : R) (k : Z) : IZR k <= x < IZR k + 1 -> Int_part x = k.
Proof.
  intros [H1 H2]. destruct (Int_part_spec x) as [H3 H4].
  assert (Hlt1 : (Int_part x < k + 1)%Z).
  { apply lt_IZR. rewrite plus_IZR. lra. }
  assert (Hlt2 : (k < Int_part x + 1)%Z).
  { apply lt_IZR. rewrite plus_IZR. lra. }
  lia.
Qed.

(** ** Facts about the remainder and the normalisation *)

Lemma div_bounds (x y : R) (k : Z) :
  0 < y -> IZR k <= x / y < IZR k + 1 -> y * IZR k <= x < y * IZR k + y.
Proof.
  intros Hy [H1 H2].
  assert (Hx : x = (x / y) * y) by (field; lra).
  split.
  - rewrite Hx at 1. rewrite (Rmult_comm y). apply Rmult_le_compat_r; lra.
  - rewrite Hx at 1.
    replace (y * IZR k + y) with ((IZR k + 1) * y) by ring.
    apply Rmult_lt_compat_r; lra.
Qed.

Lemma rem_nonneg (x y : R) : 0 <= x -> 0 < y -> 0 <= Js.rem x y < y.
Proof.
  intros Hx Hy. unfold Js.rem, Js.trunc.
  assert (Hq : 0 <= x / y).
  { apply Rmult_le_pos; [lra|]. left. now apply Rinv_0_lt_compat. }
  destruct (Rle_dec 0 (x / y)) as [_|Hn]; [|lra].
  pose proof (div_bounds x y _ Hy (Int_part_spec (x / y))). lra.
Qed.

Lemma rem_neg (x y : R) : x < 0 -> 0 < y -> - y < Js.rem x y <= 0.
Proof.
  intros Hx Hy. unfold Js.rem, Js.trunc.
  assert (Hq : x / y < 0).
  { unfold Rdiv. rewrite <- (Rmult_0_l (/ y)).
    apply Rmult_lt_compat_r; [now apply Rinv_0_lt_compat | lra]. }
  destruct (Rle_dec 0 (x / y)) as [Hn|_]; [lra|].
  rewrite opp_IZR.
  assert (Hd : - (x / y) = (- x) / y) by (field; lra).
  pose proof (Int_part_spec (- (x / y))) as Hs. rewrite Hd in Hs.
  pose proof (div_bounds (- x) y _ Hy Hs) as Hb. rewrite Hd. lra.
Qed.

Lemma rem_bounds (x y : R) : 0 < y -> - y < Js.rem x y < y.
Proof.
  intros Hy. destruct (Rle_lt_dec 0 x) as [Hx|Hx].
  - pose proof (rem_nonneg x y Hx Hy). lra.
  - pose proof (rem_neg x y Hx Hy). lra.
Qed.

(** The normalisation lands in [0, 2π) on every real. *)
Lemma normalize_range (x : R) : 0 <= normalize x < TWO_PI.
Proof.
  unfold normalize. pose proof TWO_PI_pos as HT.
  apply rem_nonneg; [|exact HT].
  pose proof (rem_bounds x TWO_PI HT). lra.
Qed.

(** It only ever adds a whole number of turns. *)
Lemma normalize_turns (x : R) : exists k : Z, normalize x = x + IZR k * TWO_PI.
Proof.
  unfold normalize, Js.rem.
  set (k1 := Js.trunc (x / TWO_PI)).
  set (k2 := Js.trunc (_ / TWO_PI)).
  exists (1 - k1 - k2)%Z. rewrite !minus_IZR. ring.
Qed.

Lemma turns_unique (a b : R) (k : Z) :
  0 <= a < TWO_PI -> 0 <= b < TWO_PI -> a = b + IZR k * TWO_PI -> a = b.
Proof.
  intros Ha Hb Hk. pose proof TWO_PI_pos as HT.
  assert (Hk0 : k = 0%Z).
  { assert (H1 : (k < 1)%Z).
    { apply lt_IZR. apply Rmult_lt_reg_r with TWO_PI; [exact HT|]. lra. }
    assert (H2 : (-1 < k)%Z).
    { apply lt_IZR. apply Rmult_lt_reg_r with TWO_PI; [exact HT|]. lra. }
    lia. }
  subst k. lra.
Qed.

(** So it is the true modulo: the one representative in [0, 2π). *)
Lemma normalize_unique (x y : R) (k : Z) :
  0 <= y < TWO_PI -> x = y + IZR k * TWO_PI -> normalize x = y.
Proof.
  intros Hy Hx. destruct (normalize_turns x) as [j Hj].
  apply (turns_unique _ _ (j + k)%Z); [apply normalize_range | exact Hy |].
  rewrite plus_IZR, Hj, Hx. ring.
Qed.

Lemma normalize_id (x : R) : 0 <= x < TWO_PI -> normalize x = x.
Proof. intros Hx. apply (normalize_unique x x 0); [exact Hx | lra]. Qed.

Lemma normalize_shift (x y : R) : normalize (normalize x + y) = normalize (x + y).
Proof.
  destruct (normalize_turns x) as [k Hk].
  destruct (normalize_turns (x + y)) as [j Hj].
  apply (normalize_unique _ _ (k - j)%Z); [apply normalize_range|].
  rewrite minus_IZR, Hk, Hj. ring.
Qed.

(** ** Loops *)

Lemma for_loop_0 {S : Type} (body : nat -> S -> S) (s : S) :
  Js.for_loop 0 body s = s.
Proof. reflexivity. Qed.

Lemma for_loop_S {S : Type} (n : nat) (body : nat -> S -> S) (s : S) :
  Js.for_loop (Datatypes.S n) body s = body n (Js.for_loop n body s).
Proof.
  unfold Js.for_loop. rewrite seq_S, fold_left_app. reflexivity.
Qed.

Section Pointwise.
  Variable f : nat -> R -> R.
Local Abbreviation sweep := (sweep f).

Lemma sweep_length (n : nat) (a : list R) : length (sweep n a) = length a.
  Proof.
    unfold sweep. induction n as [|n IH]; [reflexivity|].
    rewrite for_loop_S. unfold Js.store. rewrite length_insert. exact IH.
  Qed.

Lemma sweep_lookup (n : nat) (a : list R) (j : nat) :
    sweep n a !! j = if decide (j < n)%nat then f j <$> a !! j else a !! j.
  Proof.
    unfold sweep. induction n as [|n IH].
    - rewrite for_loop_0. destruct (decide (j < 0)%nat); [lia | reflexivity].
    - rewrite for_loop_S. fold (sweep n a) in *. unfold Js.store, Js.load.
      destruct (decide (j = n)) as [->|Hne].
      + destruct (decide (n < Datatypes.S n)%nat); [|lia].
        rewrite IH. destruct (decide (n < n)%nat); [lia|].
        destruct (a !! n) as [x|] eqn:Hx.
        * rewrite list_lookup_insert_eq; [reflexivity|].
          rewrite sweep_length. eapply lookup_lt_Some, Hx.
        * rewrite list_insert_ge.
          -- rewrite IH. reflexivity.
          -- rewrite sweep_length. apply lookup_ge_None, Hx.
      + rewrite list_lookup_insert_ne by congruence. rewrite IH.
        destruct (decide (j < n)%nat), (decide (j < Datatypes.S n)%nat);
          try reflexivity; lia.
  Qed.

Lemma sweep_full (a : list R) : sweep (length a) a = imap f a.
  Proof.
    apply list_eq. intros j. rewrite sweep_lookup, list_lookup_imap.
    destruct (decide (j < length a)%nat) as [|Hge]; [reflexivity|].
    rewrite lookup_ge_None_2 by lia. reflexivity.
  Qed.
End Pointwise.

(** The same loop when each pass also takes one draw: the cursor moves by
    one per pass and pass [i] sees draw [c + i]. *)
Lemma for_loop_draws (h : nat -> R -> nat -> R) (n : nat) (a : list R) (c : nat) :
  Js.for_loop n
    (fun i '(p, c) => (Js.store p i (h i (Js.load p i) c), S c)) (a, c)
  = (sweep (fun i x => h i x (c + i)%nat) n a, (c + n)%nat).
Proof.
  unfold sweep. induction n as [|n IH].
  - rewrite !for_loop_0. f_equal. lia.
  - rewrite !for_loop_S, IH. f_equal. lia.
Qed.

(** ** What each method does to the arrays *)

(** Decides the tests of a [switch] on a literal policy name and keeps the
    branch that runs. *)
Ltac pick_case :=
  repeat match goal with
         | |- context [String.eqb ?a ?b] =>
             let v := eval vm_compute in (String.eqb a b) in
             change (String.eqb a b) with v
         end;
  cbv iota.

Lemma normalizePhases_phases (s : KuramotoSimulator) :
  length (phases s) = N s ->
  phases (normalizePhases s) = normalize <$> phases s.
Proof.
  intros Hlen. unfold normalizePhases. cbn [phases set_phases].
  change (Js.for_loop (N s) _ (phases s))
    with (sweep (fun _ => normalize) (N s) (phases s)).
  rewrite <- Hlen, sweep_full. apply imap_const.
Qed.

Lemma normalizePhases_in_range (s : KuramotoSimulator) :
  length (phases s) = N s -> Forall in_range (phases (normalizePhases s)).
Proof.
  intros Hlen. rewrite normalizePhases_phases by exact Hlen.
  apply Forall_fmap, Forall_forall. intros x _. apply normalize_range.
Qed.


Lemma wf_set_phases (s : KuramotoSimulator) (p : list R) :
  wf s -> length p = N s -> wf (set_phases s p).
Proof. intros (_ & Hf & Hd) Hp. repeat split; assumption. Qed.

Lemma wf_normalizePhases (s : KuramotoSimulator) : wf s -> wf (normalizePhases s).
Proof.
  intros (Hp & Hf & Hd). repeat split; try assumption.
  rewrite normalizePhases_phases by exact Hp. rewrite length_fmap. exact Hp.
Qed.

Lemma wf_computeDerivatives (s : KuramotoSimulator) :
  wf s -> wf (computeDerivatives s).
Proof.
  intros (Hp & Hf & Hd). repeat split; try assumption.
  unfold computeDerivatives. cbn [dPhases set_dPhases N].
  match goal with
  | |- length (Js.for_loop _ (fun i d => Js.store d i (@?e i)) _) = _ =>
      change (Js.for_loop (N s) _ (dPhases s))
        with (sweep (fun i _ => e i) (N s) (dPhases s))
  end.
  rewrite sweep_length. exact Hd.
Qed.

(** Every method that writes phases ends in [normalizePhases] on arrays of
    unchanged length. *)
Lemma setInitialPhases_shape (g : Rng) (type : string) (s : KuramotoSimulator) (c : nat) :
  exists p, length p = length (phases s) /\
    fst (setInitialPhases g type s c) = normalizePhases (set_phases s p).
Proof.
  unfold setInitialPhases.
  destruct (String.eqb type "random").
  { rewrite (for_loop_draws (fun _ _ c => draw g c * TWO_PI)).
    eexists; split; [|reflexivity]. apply sweep_length. }
  destruct (String.eqb type "quasiSync").
  { rewrite (for_loop_draws
               (fun _ _ c' => draw g c * TWO_PI + (draw g c' - 0.5) * 0.3)).
    eexists; split; [|reflexivity]. apply sweep_length. }
  destruct (String.eqb type "twisted1").
  { eexists; split; [|reflexivity].
    apply (sweep_length (fun i _ => TWO_PI * INR i / INR (N s))). }
  destruct (String.eqb type "twisted2").
  { eexists; split; [|reflexivity].
    apply (sweep_length (fun i _ => 4 * PI * INR i / INR (N s))). }
  exists (phases s). split; reflexivity.
Qed.

Lemma perturb_shape (g : Rng) (intensity : R) (s : KuramotoSimulator) (c : nat) :
  exists p, length p = length (phases s) /\
    fst (perturb g intensity s c) = normalizePhases (set_phases s p).
Proof.
  unfold perturb.
  rewrite (for_loop_draws
             (fun _ x c => x + (draw g c - 0.5) * 2 * intensity * PI)).
  eexists; split; [|reflexivity]. apply sweep_length.
Qed.

Lemma step_shape (dt : R) (s : KuramotoSimulator) :
  exists p, length p = length (phases s) /\
    step dt s = normalizePhases (set_phases (computeDerivatives s) p).
Proof.
  unfold step. eexists; split; [|reflexivity].
  apply (sweep_length
           (fun i x => x + Js.load (dPhases (computeDerivatives s)) i * dt)).
Qed.

Lemma stepRK4_shape (dt : R) (s : KuramotoSimulator) :
  exists p, length p = length (phases s) /\
    stepRK4 dt s = normalizePhases (set_phases (computeDerivatives s) p).
Proof.
  unfold stepRK4. eexists; split; [|reflexivity].
  match goal with
  | |- length (Js.for_loop _ (fun i p => Js.store p i (Js.load p i + @?e i)) _) = _ =>
      apply (sweep_length (fun i x => x + e i))
  end.
Qed.

(** ** Well-formedness is preserved *)

Lemma wf_of_shape (s : KuramotoSimulator) (p : list R) :
  wf s -> length p = length (phases s) ->
  wf (normalizePhases (set_phases s p)) /\
  Forall in_range (phases (normalizePhases (set_phases s p))).
Proof.
  intros Hwf Hp. pose proof Hwf as (Hl & _ & _).
  assert (Hlen : length p = N s) by congruence.
  split.
  - apply wf_normalizePhases, wf_set_phases; assumption.
  - apply normalizePhases_in_range. exact Hlen.
Qed.

Lemma wf_setFrequencies (g : Rng) (type : string) (s : KuramotoSimulator) (c : nat) :
  wf s -> wf (fst (setFrequencies g type s c)).
Proof.
  intros (Hp & Hf & Hd). unfold setFrequencies.
  destruct (String.eqb type "identical").
  { repeat split; try assumption. cbn. unfold Js.fill.
    rewrite length_replicate. exact Hf. }
  destruct (String.eqb type "random").
  { rewrite (for_loop_draws (fun _ _ c => 0.8 + draw g c * 0.4)).
    repeat split; try assumption. cbn. rewrite sweep_length. exact Hf. }
  destruct (String.eqb type "twoGroups").
  { repeat split; try assumption. cbn [fst frequencies set_frequencies N].
    etransitivity; [|exact Hf].
    apply (sweep_length
             (fun i _ => if Js.lt (INR i) (INR (N s) / 2) then 0.8 else 1.2)). }
  repeat split; assumption.
Qed.

Lemma setFrequencies_phases (g : Rng) (type : string) (s : KuramotoSimulator) (c : nat) :
  phases (fst (setFrequencies g type s c)) = phases s.
Proof.
  unfold setFrequencies.
  destruct (String.eqb type "identical"); [reflexivity|].
  destruct (String.eqb type "random").
  { rewrite (for_loop_draws (fun _ _ c => 0.8 + draw g c * 0.4)). reflexivity. }
  destruct (String.eqb type "twoGroups"); reflexivity.
Qed.

Lemma invariant_setInitialPhases (g : Rng) (type : string) (s : KuramotoSimulator) (c : nat) :
  wf s -> invariant (fst (setInitialPhases g type s c)).
Proof.
  intros Hwf. destruct (setInitialPhases_shape g type s c) as (p & Hp & ->).
  apply (wf_of_shape s p Hwf Hp).
Qed.

Lemma invariant_perturb (g : Rng) (intensity : R) (s : KuramotoSimulator) (c : nat) :
  wf s -> invariant (fst (perturb g intensity s c)).
Proof.
  intros Hwf. destruct (perturb_shape g intensity s c) as (p & Hp & ->).
  apply (wf_of_shape s p Hwf Hp).
Qed.

Lemma invariant_step (dt : R) (s : KuramotoSimulator) :
  wf s -> invariant (step dt s).
Proof.
  intros Hwf. destruct (step_shape dt s) as (p & Hp & ->).
  apply (wf_of_shape _ p (wf_computeDerivatives s Hwf) Hp).
Qed.

Lemma invariant_stepRK4 (dt : R) (s : KuramotoSimulator) :
  wf s -> invariant (stepRK4 dt s).
Proof.
  intros Hwf. destruct (stepRK4_shape dt s) as (p & Hp & ->).
  apply (wf_of_shape _ p (wf_computeDerivatives s Hwf) Hp).
Qed.

Lemma constructor_ok (g : Rng) (n : Z) (c : nat) :
  (0 <= n)%Z ->
  constructor g n c =
    Ok (setInitialPhases g "random"
          (mkSim (Z.to_nat n) (Js.zeros (Z.to_nat n))
             (Js.fill (Js.zeros (Z.to_nat n)) 1) (Js.zeros (Z.to_nat n)) 1) c).
Proof.
  intros Hn. unfold constructor.
  destruct (Z.ltb_spec n 0) as [Hlt|_]; [lia|]. reflexivity.
Qed.

Lemma constructor_error (g : Rng) (n : Z) (c : nat) :
  (n < 0)%Z -> constructor g n c = RangeError.
Proof.
  intros Hn. unfold constructor.
  destruct (Z.ltb_spec n 0) as [_|Hge]; [reflexivity | lia].
Qed.

Lemma invariant_constructor (g : Rng) (n : Z) (c : nat) (s : KuramotoSimulator) (c' : nat) :
  constructor g n c = Ok (s, c') -> invariant s.
Proof.
  intros Hc. destruct (Z.lt_ge_cases n 0) as [Hn|Hn].
  { rewrite constructor_error in Hc by exact Hn. discriminate. }
  rewrite constructor_ok in Hc by exact Hn.
  injection Hc as Hc.
  replace s with (fst (setInitialPhases g "random"
          (mkSim (Z.to_nat n) (Js.zeros (Z.to_nat n))
             (Js.fill (Js.zeros (Z.to_nat n)) 1) (Js.zeros (Z.to_nat n)) 1) c))
    by (rewrite Hc; reflexivity).
  apply invariant_setInitialPhases.
  unfold wf, Js.fill, Js.zeros. cbn. rewrite !length_replicate. auto.
Qed.

Lemma reachable_invariant (g : Rng) (s : KuramotoSimulator) :
  reachable g s -> invariant s.
Proof.
  induction 1 as [n c s c' Hc | type c s _ [Hwf Hr] | type c s _ [Hwf _]
                 | a c s _ [Hwf _] | dt s _ [Hwf _] | dt s _ [Hwf _]
                 | k s _ [Hwf Hr]].
  - eapply invariant_constructor, Hc.
  - split; [apply wf_setFrequencies, Hwf|].
    rewrite setFrequencies_phases. exact Hr.
  - apply invariant_setInitialPhases, Hwf.
  - apply invariant_perturb, Hwf.
  - apply invariant_step, Hwf.
  - apply invariant_stepRK4, Hwf.
  - split; [exact Hwf | exact Hr].
Qed.


Lemma ring_of_reachable (g : Rng) (n : Z) : (0 <= n)%Z -> reachable g (ring_of g n).
Proof.
  intros Hn. unfold ring_of.
  destruct (constructor g n 0) as [[s c']|] eqn:Hc.
  - exact (reach_new g n 0 s c' Hc).
  - rewrite constructor_ok in Hc by exact Hn. discriminate.
Defined.


(** ** Frame: what the integrators and the perturbation leave alone *)

(** C10. For every [dt] and every [intensity], [step(dt)], [stepRK4(dt)]
    and [perturb(intensity)] leave [N], the [frequencies] array and the
    coupling strength [K] unchanged. *)
Theorem integrators_frame (g : Rng) (dt intensity : R) (c : nat) (s : KuramotoSimulator) :
  (N (step dt s) = N s /\ frequencies (step dt s) = frequencies s /\
   K (step dt s) = K s) /\
  (N (stepRK4 dt s) = N s /\ frequencies (stepRK4 dt s) = frequencies s /\
   K (stepRK4 dt s) = K s) /\
  (N (fst (perturb g intensity s c)) = N s /\
   frequencies (fst (perturb g intensity s c)) = frequencies s /\
   K (fst (perturb g intensity s c)) = K s).
Proof.
  split; [|split].
  - repeat split.
  - repeat split.
  - unfold perturb.
    destruct (Js.for_loop (N s) _ (phases s, c)) as [p c'].
    repeat split.
Qed.

(** [perturb] does not touch the scratch buffer either.  The integrators
    overwrite it; what they compute does not depend on its old content
    ([step_ignores_scratch]). *)
Lemma perturb_dPhases (g : Rng) (intensity : R) (c : nat) (s : KuramotoSimulator) :
  dPhases (fst (perturb g intensity s c)) = dPhases s.
Proof.
  unfold perturb.
  destruct (Js.for_loop (N s) _ (phases s, c)) as [p c']. reflexivity.
Qed.

(** ** Construction *)

Lemma sim_eq (s : KuramotoSimulator) n p f d k :
  N s = n -> phases s = p -> frequencies s = f -> dPhases s = d -> K s = k ->
  s = mkSim n p f d k.
Proof. destruct s. cbn. intros. subst. reflexivity. Qed.

Lemma setInitialPhases_frame (g : Rng) (type : string) (s : KuramotoSimulator) (c : nat) :
  N (fst (setInitialPhases g type s c)) = N s /\
  frequencies (fst (setInitialPhases g type s c)) = frequencies s /\
  dPhases (fst (setInitialPhases g type s c)) = dPhases s /\
  K (fst (setInitialPhases g type s c)) = K s.
Proof.
  destruct (setInitialPhases_shape g type s c) as (p & _ & ->). repeat split.
Qed.

Lemma draw_phase_in_range (g : Rng) (k : nat) : in_range (draw g k * TWO_PI).
Proof.
  pose proof (draw_range g k) as [H0 H1]. pose proof TWO_PI_pos as HT.
  unfold in_range. split; [apply Rmult_le_pos; lra|].
  rewrite <- (Rmult_1_l TWO_PI) at 2. apply Rmult_lt_compat_r; lra.
Qed.

(** The [random] policy: slot [i] receives draw [c + i], scaled to a turn;
    the normalisation that follows leaves it as it is. *)
Lemma setInitialPhases_random (g : Rng) (s : KuramotoSimulator) (c : nat) :
  length (phases s) = N s ->
  phases (fst (setInitialPhases g "random" s c))
    = (fun i => draw g (c + i) * TWO_PI) <$> seq 0 (N s) /\
  snd (setInitialPhases g "random" s c) = (c + N s)%nat.
Proof.
  intros Hlen. unfold setInitialPhases.
  pick_case.
  rewrite (for_loop_draws (fun _ _ c => draw g c * TWO_PI)).
  cbn [fst snd]. split; [|reflexivity].
  rewrite normalizePhases_phases
    by (cbn [phases set_phases N]; rewrite sweep_length; exact Hlen).
  cbn [phases set_phases]. rewrite <- Hlen at 1. rewrite sweep_full.
  apply list_eq. intros i.
  rewrite !list_lookup_fmap, list_lookup_imap.
  destruct (decide (i < length (phases s))%nat) as [Hi|Hi].
  - rewrite lookup_seq_lt by lia.
    destruct (lookup_lt_is_Some_2 (phases s) i Hi) as [x ->]. cbn.
    f_equal. apply normalize_id, draw_phase_in_range.
  - rewrite lookup_seq_ge by lia. rewrite lookup_ge_None_2 by lia. reflexivity.
Qed.

Lemma constructor_success (g : Rng) (n : Z) (c : nat) :
  (0 <= n)%Z ->
  constructor g n c =
    Ok (mkSim (Z.to_nat n)
          ((fun i => draw g (c + i) * TWO_PI) <$> seq 0 (Z.to_nat n))
          (replicate (Z.to_nat n) 1)
          (replicate (Z.to_nat n) 0)
          1,
        (c + Z.to_nat n)%nat).
Proof.
  intros Hn. rewrite constructor_ok by exact Hn.
  set (s0 := mkSim _ _ _ _ _).
  assert (Hlen : length (phases s0) = N s0).
  { unfold s0, Js.zeros. cbn. apply length_replicate. }
  destruct (setInitialPhases_random g s0 c Hlen) as [Hp Hc].
  destruct (setInitialPhases_frame g "random" s0 c) as (HN & Hf & Hd & HK).
  destruct (setInitialPhases g "random" s0 c) as [s c']. cbn [fst snd] in *.
  subst c'. f_equal. f_equal. apply sim_eq; try assumption.
  rewrite Hf. unfold s0, Js.fill, Js.zeros. cbn.
  rewrite length_replicate. reflexivity.
Qed.

(** C3 (as the code has it). [new KuramotoSimulator(N)] is rejected only
    for a negative [N], by the allocation of the arrays; for every
    [N >= 0], [N = 0] and [N = 1] included, it succeeds and yields a ring of
    [N] oscillators with all frequencies 1.0, phases drawn at random (draw
    times 2π, already in [0, 2π)), and coupling 1.0. *)
Theorem constructor_outcome (g : Rng) (n : Z) (c : nat) :
  ((n < 0)%Z -> constructor g n c = RangeError) /\
  ((0 <= n)%Z ->
     constructor g n c =
       Ok (mkSim (Z.to_nat n)
             ((fun i => draw g (c + i) * TWO_PI) <$> seq 0 (Z.to_nat n))
             (replicate (Z.to_nat n) 1)
             (replicate (Z.to_nat n) 0)
             1,
           (c + Z.to_nat n)%nat)).
Proof.
  split; [apply constructor_error | apply constructor_success].
Qed.

Lemma constructor_outcome_witness :
  constructor zero_rng 2 0 =
    Ok (mkSim 2 [0 * TWO_PI; 0 * TWO_PI] [1; 1] [0; 0] 1, 2%nat).
Proof.
  apply (proj2 (constructor_outcome zero_rng 2 0)). lia.
Defined.

(** C3, counterexample: a ring of a single oscillator is built without
    complaint. *)
Lemma constructor_accepts_one :
  constructor zero_rng 1 0 = Ok (mkSim 1 [0 * TWO_PI] [1] [0] 1, 1%nat).
Proof.
  apply (constructor_success zero_rng 1 0). lia.
Qed.

(** ** Frequency policies *)

Lemma lt_half (i n : nat) : Js.lt (INR i) (INR n / 2) = (2 * i <? n)%nat.
Proof.
  unfold Js.lt.
  destruct (Nat.ltb_spec (2 * i) n) as [H|H].
  - apply lt_INR in H. rewrite mult_INR in H. cbn [INR] in H.
    destruct (Rlt_dec (INR i) (INR n / 2)) as [_|Hn]; [reflexivity | lra].
  - apply le_INR in H. rewrite mult_INR in H. cbn [INR] in H.
    destruct (Rlt_dec (INR i) (INR n / 2)) as [Hl|_]; [lra | reflexivity].
Qed.

Lemma setFrequencies_twoGroups (g : Rng) (s : KuramotoSimulator) (c : nat) :
  length (frequencies s) = N s ->
  setFrequencies g "twoGroups" s c =
    (set_frequencies s
       ((fun i => if (2 * i <? N s)%nat then 0.8 else 1.2) <$> seq 0 (N s)), c).
Proof.
  intros Hlen. unfold setFrequencies.
  pick_case.
  f_equal. f_equal.
  change (Js.for_loop (N s) _ (frequencies s))
    with (sweep (fun i _ => if Js.lt (INR i) (INR (N s) / 2) then 0.8 else 1.2)
            (N s) (frequencies s)).
  rewrite <- Hlen at 1. rewrite sweep_full.
  apply list_eq. intros i. rewrite list_lookup_fmap, list_lookup_imap.
  destruct (decide (i < length (frequencies s))%nat) as [Hi|Hi].
  - rewrite lookup_seq_lt by lia.
    destruct (lookup_lt_is_Some_2 (frequencies s) i Hi) as [x ->]. cbn [fmap option_fmap option_map].
    rewrite lt_half. reflexivity.
  - rewrite lookup_seq_ge by lia. rewrite lookup_ge_None_2 by lia. reflexivity.
Qed.

(** C5 (as the code has it). After [setFrequencies('twoGroups')] on a ring
    of [N] oscillators, oscillator [i] has frequency 0.8 exactly when
    [i < N/2] in real arithmetic, that is for the first ⌈N/2⌉ indices, and
    1.2 otherwise; [N], the phases, the scratch buffer, the coupling and the
    random stream are unchanged. *)
Theorem twoGroups_ceiling (g : Rng) (s : KuramotoSimulator) (c : nat) :
  wf s ->
  (forall i : nat, (i < N s)%nat ->
     frequencies (fst (setFrequencies g "twoGroups" s c)) !! i
       = Some (if (i <? N s - N s / 2)%nat then 0.8 else 1.2)) /\
  length (frequencies (fst (setFrequencies g "twoGroups" s c))) = N s /\
  N (fst (setFrequencies g "twoGroups" s c)) = N s /\
  phases (fst (setFrequencies g "twoGroups" s c)) = phases s /\
  dPhases (fst (setFrequencies g "twoGroups" s c)) = dPhases s /\
  K (fst (setFrequencies g "twoGroups" s c)) = K s /\
  snd (setFrequencies g "twoGroups" s c) = c.
Proof.
  intros (Hp & Hf & Hd). rewrite setFrequencies_twoGroups by exact Hf.
  cbn [fst snd frequencies set_frequencies N phases dPhases K].
  repeat split.
  - intros i Hi. rewrite list_lookup_fmap, lookup_seq_lt by exact Hi.
    change (0 + i)%nat with i. cbv [fmap option_fmap option_map]. cbv beta iota.
    assert (Hdiv : (N s = 2 * (N s / 2) + N s mod 2)%nat)
      by apply Nat.div_mod_eq.
    assert (Hmod : (N s mod 2 < 2)%nat) by (apply Nat.mod_upper_bound; lia).
    destruct (Nat.ltb_spec (2 * i) (N s)), (Nat.ltb_spec i (N s - N s / 2));
      try reflexivity; exfalso; lia.
  - rewrite length_fmap, length_seq. reflexivity.
Qed.

Lemma ring_of_eq (g : Rng) (n : Z) :
  (0 <= n)%Z ->
  ring_of g n =
    mkSim (Z.to_nat n)
      ((fun i => draw g (0 + i) * TWO_PI) <$> seq 0 (Z.to_nat n))
      (replicate (Z.to_nat n) 1) (replicate (Z.to_nat n) 0) 1.
Proof.
  intros Hn. unfold ring_of. rewrite constructor_success by exact Hn.
  reflexivity.
Qed.

Lemma ring_of_invariant (g : Rng) (n : Z) : (0 <= n)%Z -> invariant (ring_of g n).
Proof. intros Hn. eapply reachable_invariant, ring_of_reachable, Hn. Qed.

Lemma ring_of_N (g : Rng) (n : Z) : (0 <= n)%Z -> N (ring_of g n) = Z.to_nat n.
Proof. intros Hn. rewrite ring_of_eq by exact Hn. reflexivity. Qed.

Lemma twoGroups_ceiling_witness :
  frequencies (fst (setFrequencies zero_rng "twoGroups" (ring_of zero_rng 3) 0))
    !! 1%nat = Some 0.8.
Proof.
  assert (Hwf : wf (ring_of zero_rng 3)) by (apply ring_of_invariant; lia).
  destruct (twoGroups_ceiling zero_rng (ring_of zero_rng 3) 0 Hwf) as [H _].
  rewrite ring_of_N in H by lia. apply (H 1%nat). cbn. lia.
Defined.

(** C5, counterexample: on a ring of three oscillators the second one
    (index 1, beyond the first ⌊3/2⌋ = 1) also gets 0.8, so the frequencies
    are not "0.8 on the first ⌊N/2⌋ indices, 1.2 on the rest". *)
Lemma twoGroups_floor_fails :
  ~ (forall i : nat, (i < 3)%nat ->
       frequencies
         (fst (setFrequencies zero_rng "twoGroups" (ring_of zero_rng 3) 0)) !! i
       = Some (if (i <? 3 / 2)%nat then 0.8 else 1.2)).
Proof.
  intros Hclaim. specialize (Hclaim 1%nat ltac:(lia)).
  rewrite setFrequencies_twoGroups in Hclaim
    by (apply ring_of_invariant; lia).
  rewrite ring_of_N in Hclaim by lia.
  cbn in Hclaim. injection Hclaim as Hclaim. lra.
Qed.

(** ** Unrecognised policy names *)







(** ** The Euler step *)



Lemma load_lookup (a : list R) (i : nat) (x : R) : a !! i = Some x -> Js.load a i = x.
Proof. intros H. unfold Js.load. rewrite H. reflexivity. Qed.

Lemma computeDerivatives_lookup (s : KuramotoSimulator) (i : nat) :
  length (dPhases s) = N s -> (i < N s)%nat ->
  dPhases (computeDerivatives s) !! i = Some (derivative s (phases s) i).
Proof.
  intros Hd Hi. unfold computeDerivatives. cbn [dPhases set_dPhases].
  change (Js.for_loop (N s) _ (dPhases s))
    with (sweep (fun i _ => derivative s (phases s) i) (N s) (dPhases s)).
  rewrite sweep_lookup. destruct (decide (i < N s)%nat); [|lia].
  destruct (lookup_lt_is_Some_2 (dPhases s) i ltac:(lia)) as [x ->].
  reflexivity.
Qed.

(** One Euler step, slot by slot. *)
Lemma step_phases (dt : R) (s : KuramotoSimulator) :
  wf s ->
  phases (step dt s)
    = imap (fun i x => normalize (x + derivative s (phases s) i * dt)) (phases s).
Proof.
  intros (Hp & Hf & Hd). unfold step.
  rewrite normalizePhases_phases.
  2:{ cbn [phases set_phases N].
      etransitivity; [|exact Hp].
      apply (sweep_length
               (fun i x => x + Js.load (dPhases (computeDerivatives s)) i * dt)). }
  cbn [phases set_phases N computeDerivatives set_dPhases].
  change (Js.for_loop (N s) _ (phases s))
    with (sweep (fun i x => x + Js.load (dPhases (computeDerivatives s)) i * dt)
            (N s) (phases s)).
  rewrite <- Hp at 1. rewrite sweep_full.
  apply list_eq. intros i. rewrite list_lookup_fmap, !list_lookup_imap.
  destruct (phases s !! i) as [x|] eqn:Hx; [|reflexivity].
  cbn. f_equal. f_equal. f_equal. f_equal.
  apply load_lookup, computeDerivatives_lookup; [exact Hd|].
  rewrite <- Hp. eapply lookup_lt_Some, Hx.
Qed.

(** [dPhases] is scratch space: its content before the call has no
    influence on the phases after it. *)
Lemma step_ignores_scratch (dt : R) (s : KuramotoSimulator) (d : list R) :
  wf s -> length d = N s ->
  phases (step dt (set_dPhases s d)) = phases (step dt s).
Proof.
  intros Hwf Hd. rewrite !step_phases; [reflexivity | exact Hwf |].
  destruct Hwf as (Hp & Hf & _). repeat split; assumption.
Qed.









(** ** The order parameter *)

Lemma Rsum_snoc (f : R -> R) (l : list R) (x : R) :
  Rsum (f <$> l ++ [x]) = Rsum (f <$> l) + f x.
Proof.
  unfold Rsum. induction l as [|y l IH]; cbn; [ring|]. rewrite IH. ring.
Qed.

Lemma order_loop (p : list R) (n : nat) :
  (n <= length p)%nat ->
  Js.for_loop n
    (fun i '(sc, ss) => (sc + cos (Js.load p i), ss + sin (Js.load p i)))
    (0, 0)
  = (Rsum (cos <$> take n p), Rsum (sin <$> take n p)).
Proof.
  induction n as [|n IH]; intros Hn.
  - rewrite for_loop_0, take_0. reflexivity.
  - rewrite for_loop_S, IH by lia.
    destruct (lookup_lt_is_Some_2 p n ltac:(lia)) as [x Hx].
    rewrite (take_S_r p n x Hx), !Rsum_snoc.
    rewrite (load_lookup p n x Hx). reflexivity.
Qed.

Lemma getOrderParameter_r (s : KuramotoSimulator) :
  length (phases s) = N s ->
  r (getOrderParameter s) = sqrt (meanCos s * meanCos s + meanSin s * meanSin s).
Proof.
  intros Hlen. unfold getOrderParameter.
  rewrite order_loop by lia.
  replace (take (N s) (phases s)) with (phases s)
    by (rewrite <- Hlen; symmetry; apply firstn_all).
  reflexivity.
Qed.

(** The resultant of [n] unit vectors is no longer than [n]. *)
Lemma resultant_bound (l : list R) :
  Rsum (cos <$> l) * Rsum (cos <$> l) + Rsum (sin <$> l) * Rsum (sin <$> l)
    <= INR (length l) * INR (length l) /\
  (forall t : R,
     Rsum (cos <$> l) * cos t + Rsum (sin <$> l) * sin t <= INR (length l)).
Proof.
  assert (Hcs : forall C S n t : R,
             0 <= n -> C * C + S * S <= n * n -> C * cos t + S * sin t <= n).
  { intros C S n t Hn HCS. pose proof (sin2_cos2 t) as Ht. unfold Rsqr in Ht.
    destruct (Rle_lt_dec (C * cos t + S * sin t) n) as [|Hgt]; [assumption|].
    exfalso.
    assert (H1 : n * n < (C * cos t + S * sin t) * (C * cos t + S * sin t))
      by nra.
    assert (H2 : (C * cos t + S * sin t) * (C * cos t + S * sin t)
                 = (C * C + S * S) * (sin t * sin t + cos t * cos t)
                   - (C * sin t - S * cos t) * (C * sin t - S * cos t)) by ring.
    rewrite Ht, Rmult_1_r in H2.
    pose proof (Rle_0_sqr (C * sin t - S * cos t)) as H3. unfold Rsqr in H3.
    lra. }
  induction l as [|x l [IH1 IH2]].
  - cbn. split; [lra|]. intros t. lra.
  - assert (Hstep : Rsum (cos <$> x :: l) * Rsum (cos <$> x :: l)
                    + Rsum (sin <$> x :: l) * Rsum (sin <$> x :: l)
                    <= INR (length (x :: l)) * INR (length (x :: l))).
    { cbn [fmap list_fmap Rsum foldr length]. rewrite S_INR.
      fold (Rsum (cos <$> l)). fold (Rsum (sin <$> l)).
      pose proof (sin2_cos2 x) as Hx. unfold Rsqr in Hx.
      pose proof (IH2 x) as Hb. pose proof (pos_INR (length l)) as Hpos.
      set (C := Rsum (cos <$> l)) in *. set (S := Rsum (sin <$> l)) in *.
      replace ((cos x + C) * (cos x + C) + (sin x + S) * (sin x + S))
        with ((C * C + S * S) + 2 * (C * cos x + S * sin x)
              + (sin x * sin x + cos x * cos x)) by ring.
      rewrite Hx. nra. }
    split; [exact Hstep|]. intros t.
    apply Hcs; [apply pos_INR | exact Hstep].
Qed.

Lemma cos_one_small (x : R) : cos x = 1 -> - TWO_PI < x < TWO_PI -> x = 0.
Proof.
  intros Hc Hx. unfold TWO_PI in Hx. pose proof PI_RGT_0 as Hpi.
  assert (Hs : sin x = 0).
  { pose proof (sin2_cos2 x) as H. unfold Rsqr in H. rewrite Hc in H.
    assert (H0 : sin x * sin x = 0) by lra.
    apply Rmult_integral in H0. destruct H0; assumption. }
  destruct (sin_eq_0_0 x Hs) as [k Hk].
  assert (Hk1 : (k < 2)%Z).
  { apply lt_IZR. apply Rmult_lt_reg_r with PI; [exact Hpi | lra]. }
  assert (Hk2 : (-2 < k)%Z).
  { apply lt_IZR. apply Rmult_lt_reg_r with PI; [exact Hpi | lra]. }
  assert (Hcases : k = (-1)%Z \/ k = 0%Z \/ k = 1%Z) by lia.
  destruct Hcases as [-> | [-> | ->]].
  - exfalso. replace x with (- PI) in Hc by lra.
    rewrite cos_neg, cos_PI in Hc. lra.
  - lra.
  - exfalso. replace x with PI in Hc by lra. rewrite cos_PI in Hc. lra.
Qed.

Lemma Rsum_replicate (f : R -> R) (n : nat) (t : R) :
  Rsum (f <$> replicate n t) = INR n * f t.
Proof.
  induction n as [|n IH]; [cbn; ring|].
  change (Rsum (f <$> replicate (S n) t))
    with (f t + Rsum (f <$> replicate n t)).
  rewrite IH, S_INR. ring.
Qed.

Lemma all_equal_replicate (l : list R) :
  all_equal l <-> exists t, l = replicate (length l) t.
Proof.
  split.
  - intros Heq. destruct l as [|x l]; [exists 0; reflexivity|].
    exists x. apply list_eq. intros i.
    destruct (decide (i < length (x :: l))%nat) as [Hi|Hi].
    + rewrite lookup_replicate_2 by exact Hi.
      destruct (lookup_lt_is_Some_2 (x :: l) i Hi) as [y Hy].
      rewrite Hy. f_equal. exact (Heq i 0%nat y x Hy eq_refl).
    + rewrite lookup_ge_None_2 by lia. symmetry.
      apply lookup_replicate_None. lia.
  - intros [t Ht] i j x y Hi Hj. rewrite Ht in Hi, Hj.
    apply lookup_replicate_1 in Hi as [-> _].
    apply lookup_replicate_1 in Hj as [-> _]. reflexivity.
Qed.

(** The resultant has full length only if the vectors coincide. *)
Lemma resultant_max (l : list R) :
  Forall in_range l ->
  Rsum (cos <$> l) * Rsum (cos <$> l) + Rsum (sin <$> l) * Rsum (sin <$> l)
    = INR (length l) * INR (length l) ->
  exists t, l = replicate (length l) t.
Proof.
  induction 1 as [|x l Hx Hl IH]; intros Heq; [exists 0; reflexivity|].
  cbn [fmap list_fmap Rsum foldr length] in Heq. rewrite S_INR in Heq.
  fold (Rsum (cos <$> l)) in Heq. fold (Rsum (sin <$> l)) in Heq.
  destruct (resultant_bound l) as [Hb1 Hb2]. specialize (Hb2 x).
  pose proof (sin2_cos2 x) as Hsc. unfold Rsqr in Hsc.
  pose proof (pos_INR (length l)) as Hpos.
  set (C := Rsum (cos <$> l)) in *. set (S := Rsum (sin <$> l)) in *.
  assert (Hexp : (cos x + C) * (cos x + C) + (sin x + S) * (sin x + S)
                 = (C * C + S * S) + 2 * (C * cos x + S * sin x)
                   + (sin x * sin x + cos x * cos x)) by ring.
  rewrite Hexp, Hsc in Heq.
  assert (H1 : C * C + S * S = INR (length l) * INR (length l)) by nra.
  assert (H2 : C * cos x + S * sin x = INR (length l)) by nra.
  destruct (IH H1) as [t Ht].
  destruct (Nat.eq_dec (length l) 0%nat) as [Hz|Hnz].
  { apply nil_length_inv in Hz. subst l. exists x. reflexivity. }
  exists x.
  assert (Hn : 0 < INR (length l)) by (apply lt_0_INR; lia).
  assert (Hin : in_range t).
  { apply (proj1 (Forall_lookup _ _) Hl 0%nat t).
    rewrite Ht. apply lookup_replicate_2. lia. }
  assert (HC : C = INR (length l) * cos t).
  { unfold C. rewrite Ht, Rsum_replicate, length_replicate. reflexivity. }
  assert (HS : S = INR (length l) * sin t).
  { unfold S. rewrite Ht, Rsum_replicate, length_replicate. reflexivity. }
  rewrite HC, HS in H2.
  assert (Hcos : cos (t - x) = 1).
  { rewrite cos_minus. apply Rmult_eq_reg_l with (INR (length l)); lra. }
  assert (Htx : t - x = 0).
  { apply cos_one_small; [exact Hcos|]. unfold in_range in *. lra. }
  replace t with x in Ht by lra.
  cbn [length replicate]. f_equal. exact Ht.
Qed.

Lemma resultant_of_equal (n : nat) (t : R) :
  Rsum (cos <$> replicate n t) * Rsum (cos <$> replicate n t)
  + Rsum (sin <$> replicate n t) * Rsum (sin <$> replicate n t)
  = INR n * INR n.
Proof.
  rewrite !Rsum_replicate. pose proof (sin2_cos2 t) as H. unfold Rsqr in H.
  replace (INR n * cos t * (INR n * cos t) + INR n * sin t * (INR n * sin t))
    with (INR n * INR n * (sin t * sin t + cos t * cos t)) by ring.
  rewrite H. ring.
Qed.

Lemma sqrt_eq_1 (y : R) : 0 <= y -> (sqrt y = 1 <-> y = 1).
Proof.
  intros Hy. split.
  - intros H. rewrite <- (sqrt_sqrt y Hy), H. ring.
  - intros ->. apply sqrt_1.
Qed.

Lemma mean_squares (s : KuramotoSimulator) :
  (1 <= N s)%nat ->
  meanCos s * meanCos s + meanSin s * meanSin s
  = (Rsum (cos <$> phases s) * Rsum (cos <$> phases s)
     + Rsum (sin <$> phases s) * Rsum (sin <$> phases s))
    / (INR (N s) * INR (N s)).
Proof.
  intros HN. unfold meanCos, meanSin.
  assert (0 < INR (N s)) by (apply lt_0_INR; lia). field. lra.
Qed.

Lemma mean_squares_bounds (s : KuramotoSimulator) :
  length (phases s) = N s -> (1 <= N s)%nat ->
  0 <= meanCos s * meanCos s + meanSin s * meanSin s <= 1.
Proof.
  intros Hlen HN.
  split; [apply Rplus_le_le_0_compat; apply Rle_0_sqr|].
  rewrite mean_squares by exact HN.
  destruct (resultant_bound (phases s)) as [Hb _]. rewrite Hlen in Hb.
  assert (Hn : 0 < INR (N s)) by (apply lt_0_INR; lia).
  assert (Hpos : 0 < INR (N s) * INR (N s)) by nra.
  apply Rmult_le_reg_r with (INR (N s) * INR (N s)); [exact Hpos|].
  unfold Rdiv. rewrite Rmult_assoc, Rinv_l by lra. lra.
Qed.

Lemma mean_squares_one (s : KuramotoSimulator) :
  length (phases s) = N s -> (1 <= N s)%nat ->
  meanCos s * meanCos s + meanSin s * meanSin s = 1 <->
  Rsum (cos <$> phases s) * Rsum (cos <$> phases s)
  + Rsum (sin <$> phases s) * Rsum (sin <$> phases s)
  = INR (length (phases s)) * INR (length (phases s)).
Proof.
  intros Hlen HN. rewrite mean_squares by exact HN. rewrite Hlen.
  assert (Hn : 0 < INR (N s)) by (apply lt_0_INR; lia).
  assert (Hpos : 0 < INR (N s) * INR (N s)) by nra.
  split; intros H.
  - apply Rmult_eq_compat_r with (r := INR (N s) * INR (N s)) in H.
    unfold Rdiv in H. rewrite Rmult_assoc, Rinv_l in H by lra. lra.
  - rewrite H. field. lra.
Qed.

Lemma quarter_turn_r : r (getOrderParameter quarter_turn_ring) = 0.
Proof.
  rewrite getOrderParameter_r by reflexivity.
  unfold meanCos, meanSin, quarter_turn_ring. cbn [phases N fmap list_fmap Rsum foldr].
  rewrite cos_0, cos_PI2, cos_PI, cos_3PI2, sin_0, sin_PI2, sin_PI, sin_3PI2.
  replace (1 + (0 + (-1 + (0 + 0)))) with 0 by ring.
  replace (0 + (1 + (0 + (-1 + 0)))) with 0 by ring.
  unfold Rdiv. rewrite !Rmult_0_l, Rplus_0_r. apply sqrt_0.
Qed.

(** The exact-arithmetic reading of the order parameter: over the reals,
    on a ring of [N >= 1] oscillators, [r = sqrt(meanCos² + meanSin²)] lies
    in [0, 1]; with the phases in [0, 2π) it is 1 exactly when all phases
    are equal; and on the quarter-turn ring the contributions cancel and
    it is 0.  The doubles of the program follow this up to rounding only;
    module [F64] has the reading on doubles. *)
Lemma order_parameter_exact (s : KuramotoSimulator) :
  length (phases s) = N s -> (1 <= N s)%nat ->
  r (getOrderParameter s)
    = sqrt (meanCos s * meanCos s + meanSin s * meanSin s) /\
  0 <= r (getOrderParameter s) <= 1 /\
  (Forall in_range (phases s) ->
   (r (getOrderParameter s) = 1 <-> all_equal (phases s))) /\
  (phases s = [0; PI / 2; PI; 3 * (PI / 2)] -> r (getOrderParameter s) = 0).
Proof.
  intros Hlen HN.
  pose proof (getOrderParameter_r s Hlen) as Hr.
  pose proof (mean_squares_bounds s Hlen HN) as [Hy0 Hy1].
  split; [exact Hr|]. rewrite Hr. split; [|split].
  - split; [apply sqrt_pos|].
    rewrite <- sqrt_1. apply sqrt_le_1_alt. exact Hy1.
  - intros Hrange. rewrite (sqrt_eq_1 _ Hy0).
    rewrite (mean_squares_one s Hlen HN), all_equal_replicate. split.
    + apply resultant_max. exact Hrange.
    + intros [t Ht]. rewrite Ht, length_replicate. apply resultant_of_equal.
  - intros Hp. rewrite <- Hr.
    assert (Hs : s = mkSim 4 (phases quarter_turn_ring) (frequencies s) (dPhases s) (K s)).
    { apply sim_eq; try reflexivity; [|exact Hp]. rewrite <- Hlen, Hp. reflexivity. }
    pose proof quarter_turn_r as Hq.
    rewrite getOrderParameter_r in Hq by reflexivity.
    rewrite getOrderParameter_r by exact Hlen.
    rewrite Hs. exact Hq.
Qed.

(** *** The order parameter as the program computes it *)






Lemma synchronised_r (s : KuramotoSimulator) (t : R) :
  (1 <= N s)%nat -> phases s = replicate (N s) t ->
  r (getOrderParameter s) = 1.
Proof.
  intros HN Hp.
  assert (Hlen : length (phases s) = N s) by (rewrite Hp; apply length_replicate).
  rewrite getOrderParameter_r by exact Hlen.
  apply sqrt_eq_1; [apply (mean_squares_bounds s Hlen HN)|].
  apply (mean_squares_one s Hlen HN).
  rewrite Hp, length_replicate. apply resultant_of_equal.
Qed.

(** ** Classification of the live state *)

Lemma gt_true (x y : R) : x > y -> Js.gt x y = true.
Proof. intros H. unfold Js.gt. destruct (Rgt_dec x y); [reflexivity | contradiction]. Qed.

Lemma gt_false (x y : R) : x <= y -> Js.gt x y = false.
Proof. intros H. unfold Js.gt. destruct (Rgt_dec x y); [lra | reflexivity]. Qed.

Lemma lt_true (x y : R) : x < y -> Js.lt x y = true.
Proof. intros H. unfold Js.lt. destruct (Rlt_dec x y); [reflexivity | contradiction]. Qed.

Lemma lt_false (x y : R) : y <= x -> Js.lt x y = false.
Proof. intros H. unfold Js.lt. destruct (Rlt_dec x y); [lra | reflexivity]. Qed.

(** C9. [classifyState()] depends on the state only through [(r, q)] and
    tests them in a fixed order: [r > 0.9] gives the synchronised label
    whatever [q] is; otherwise [|q| = 1] with [r < 0.5], or [|q| = 2] with
    [r < 0.3], gives the twisted label; otherwise [r < 0.3] gives the
    desynchronised label; everything else is partial synchrony.  Two
    states with the same [(r, q)] get the same label. *)
Theorem classifyState_rule (s : KuramotoSimulator) :
  (r (getOrderParameter s) > 0.9 -> classifyState s = Synchronise) /\
  (r (getOrderParameter s) <= 0.9 -> Z.abs (getWindingNumber s) = 1%Z ->
   r (getOrderParameter s) < 0.5 ->
   classifyState s = Twisted (getWindingNumber s)) /\
  (r (getOrderParameter s) <= 0.9 -> Z.abs (getWindingNumber s) = 2%Z ->
   r (getOrderParameter s) < 0.3 ->
   classifyState s = Twisted (getWindingNumber s)) /\
  (r (getOrderParameter s) <= 0.9 ->
   ~ (Z.abs (getWindingNumber s) = 1%Z /\ r (getOrderParameter s) < 0.5) ->
   ~ (Z.abs (getWindingNumber s) = 2%Z /\ r (getOrderParameter s) < 0.3) ->
   (r (getOrderParameter s) < 0.3 -> classifyState s = Desynchronise) /\
   (0.3 <= r (getOrderParameter s) ->
    classifyState s = Partiel (r (getOrderParameter s)) (getWindingNumber s))) /\
  (forall s' : KuramotoSimulator,
     r (getOrderParameter s') = r (getOrderParameter s) ->
     getWindingNumber s' = getWindingNumber s ->
     classifyState s' = classifyState s).
Proof.
  unfold classifyState, Js.abs.
  set (x := r (getOrderParameter s)). set (q := getWindingNumber s).
  split; [|split; [|split; [|split]]].
  - intros H. rewrite gt_true by exact H. reflexivity.
  - intros H Hq Hx. rewrite gt_false by exact H.
    rewrite Hq, lt_true by exact Hx. reflexivity.
  - intros H Hq Hx. rewrite gt_false by exact H.
    rewrite Hq, (lt_true x 0.3) by exact Hx. cbn.
    destruct (Js.lt x 0.5); reflexivity.
  - intros H Hn1 Hn2. rewrite gt_false by exact H.
    assert (Hb1 : (Z.abs q =? 1)%Z && Js.lt x 0.5 = false).
    { destruct (Z.eqb_spec (Z.abs q) 1) as [Hq|_]; [|reflexivity].
      cbn. apply lt_false. destruct (Rle_lt_dec 0.5 x); [assumption|].
      exfalso. apply Hn1. split; assumption. }
    assert (Hb2 : (Z.abs q =? 2)%Z && Js.lt x 0.3 = false).
    { destruct (Z.eqb_spec (Z.abs q) 2) as [Hq|_]; [|reflexivity].
      cbn. apply lt_false. destruct (Rle_lt_dec 0.3 x); [assumption|].
      exfalso. apply Hn2. split; assumption. }
    rewrite Hb1, Hb2. split; intros Hx.
    + rewrite lt_true by exact Hx. reflexivity.
    + rewrite lt_false by exact Hx. reflexivity.
  - intros s' Hr Hq. rewrite Hr, Hq. reflexivity.
Qed.

Lemma classifyState_rule_witness : classifyState (ring_of zero_rng 16) = Synchronise.
Proof.
  apply (classifyState_rule (ring_of zero_rng 16)).
  rewrite (synchronised_r _ (0 * TWO_PI)).
  - lra.
  - rewrite ring_of_N; lia.
  - rewrite ring_of_eq by lia. reflexivity.
Defined.

(** ** The batch experiment *)

Lemma for_loop_iter {S : Type} (n : nat) (f : S -> S) (s : S) :
  Js.for_loop n (fun _ s => f s) s = Nat.iter n f s.
Proof.
  induction n as [|n IH]; [reflexivity|]. rewrite for_loop_S, IH. reflexivity.
Qed.

Lemma setFrequencies_identical (g : Rng) (s : KuramotoSimulator) (c : nat) :
  setFrequencies g "identical" s c
    = (set_frequencies s (replicate (length (frequencies s)) 1), c).
Proof. reflexivity. Qed.

(** One simulation of [run]: it succeeds for every size [N >= 0], ends in
    the state [trial_final] describes, and moves the cursor by [2N]. *)
Lemma simulation_spec (g : Rng) (K : R) (n : Z) (steps : Z) (c : nat) :
  (0 <= n)%Z ->
  Experiments.simulation g K n steps c
    = Ok (Nat.iter (Z.to_nat steps) (step 0.02)
            (start_ring g K (Z.to_nat n) (c + Z.to_nat n)),
          (c + 2 * Z.to_nat n)%nat).
Proof.
  intros Hn. unfold Experiments.simulation.
  rewrite constructor_success by exact Hn.
  rewrite setFrequencies_identical.
  set (s1 := set_frequencies _ _).
  assert (Hlen : length (phases s1) = N s1).
  { unfold s1. cbn. rewrite length_fmap, length_seq. reflexivity. }
  destruct (setInitialPhases_random g s1 (c + Z.to_nat n) Hlen) as [Hp Hc].
  destruct (setInitialPhases_frame g "random" s1 (c + Z.to_nat n))
    as (HN & Hf & Hd & HK).
  destruct (setInitialPhases g "random" s1 (c + Z.to_nat n)) as [s2 c2].
  cbn [fst snd] in *. rewrite for_loop_iter. f_equal. f_equal.
  - f_equal. apply sim_eq; try assumption.
    rewrite Hf. unfold s1. cbn. rewrite length_replicate. reflexivity.
  - rewrite Hc. unfold s1. cbn. lia.
Qed.

Lemma count_snoc (o : Outcome) (l : list KuramotoSimulator) (sim : KuramotoSimulator) :
  count o (l ++ [sim])
    = (count o l + if Outcome_eqb (outcome sim) o then 1 else 0)%Z.
Proof.
  unfold count. rewrite List.filter_app, length_app. cbn [List.filter].
  destruct (Outcome_eqb (outcome sim) o); cbn [length]; lia.
Qed.

Lemma count_nonneg (o : Outcome) (l : list KuramotoSimulator) : (0 <= count o l)%Z.
Proof. unfold count. lia. Qed.

(** Every final state falls in exactly one class. *)
Lemma count_partition (l : list KuramotoSimulator) :
  (count Sync l + count Twisted1 l + count Twisted2 l + count Other l
   = Z.of_nat (length l))%Z.
Proof.
  induction l as [|sim l IH] using rev_ind; [reflexivity|].
  rewrite !count_snoc, length_app. cbn [length].
  destruct (outcome sim); cbn [Outcome_eqb]; lia.
Qed.

Lemma tally_add (sim : KuramotoSimulator) (res : Experiments.Results)
    (l : list KuramotoSimulator) :
  Experiments.tally (r (getOrderParameter sim)) (getWindingNumber sim)
    (add_counts res l)
  = add_counts res (l ++ [sim]).
Proof.
  unfold Experiments.tally, add_counts. rewrite !count_snoc.
  unfold outcome, Js.abs. cbn [Experiments.sync Experiments.twisted1
    Experiments.twisted2 Experiments.other Experiments.total].
  destruct (Js.gt (r (getOrderParameter sim)) 0.85);
    [cbn [Outcome_eqb]; f_equal; lia|].
  destruct (Z.abs (getWindingNumber sim) =? 1)%Z;
    [cbn [Outcome_eqb]; f_equal; lia|].
  destruct (Z.abs (getWindingNumber sim) =? 2)%Z;
    cbn [Outcome_eqb]; f_equal; lia.
Qed.

Lemma run_loop (g : Rng) (K : R) (n steps : Z) (c : nat)
    (res : Experiments.Results) (m : nat) :
  (0 <= n)%Z ->
  Js.for_loop m
    (fun (i : nat) (acc : result (Experiments.Results * nat)) =>
       match acc with
       | RangeError => RangeError
       | Ok (results, c) =>
           match Experiments.simulation g K n steps c with
           | RangeError => RangeError
           | Ok (sim, c) =>
               Ok (Experiments.tally (r (getOrderParameter sim))
                     (getWindingNumber sim) results, c)
           end
       end)
    (Ok (add_counts res [], c))
  = Ok (add_counts res
          (trial_final g K (Z.to_nat n) (Z.to_nat steps) c <$> seq 0 m),
        (c + 2 * Z.to_nat n * m)%nat).
Proof.
  intros Hn. induction m as [|m IH].
  - rewrite for_loop_0. do 2 f_equal. lia.
  - rewrite for_loop_S, IH, simulation_spec by exact Hn.
    rewrite tally_add, seq_S, fmap_app.
    replace (c + 2 * Z.to_nat n * S m)%nat
      with (c + 2 * Z.to_nat n * m + 2 * Z.to_nat n)%nat by lia.
    reflexivity.
Qed.

(** C2. For every [numTrials >= 0], every [K], every ring size [N] and
    every [steps], [run] returns a record with [total = numTrials] whose
    four counters are non-negative and sum to [total]; the counters count
    the final states of the [numTrials] simulations, each a fresh ring with
    coupling [K], identical frequencies and random phases after [steps]
    Euler steps of 0.02, classed sync iff [r > 0.85], else twisted1 iff
    [|q| = 1], else twisted2 iff [|q| = 2], else other. *)
Theorem run_counts (g : Rng) (numTrials : Z) (K : R) (n steps : Z) (c : nat) :
  (0 <= numTrials)%Z -> (0 <= n)%Z ->
  exists res : Experiments.Results,
    Experiments.run g numTrials K n steps c
      = Ok (res, (c + 2 * Z.to_nat n * Z.to_nat numTrials)%nat) /\
    Experiments.total res = numTrials /\
    (0 <= Experiments.sync res /\ 0 <= Experiments.twisted1 res /\
     0 <= Experiments.twisted2 res /\ 0 <= Experiments.other res)%Z /\
    (Experiments.sync res + Experiments.twisted1 res
     + Experiments.twisted2 res + Experiments.other res
     = Experiments.total res)%Z /\
    let finals :=
      trial_final g K (Z.to_nat n) (Z.to_nat steps) c
        <$> seq 0 (Z.to_nat numTrials) in
    Experiments.sync res = count Sync finals /\
    Experiments.twisted1 res = count Twisted1 finals /\
    Experiments.twisted2 res = count Twisted2 finals /\
    Experiments.other res = count Other finals.
Proof.
  intros Hm Hn.
  set (finals := trial_final g K (Z.to_nat n) (Z.to_nat steps) c
                   <$> seq 0 (Z.to_nat numTrials)).
  exists (add_counts (Experiments.mkResults 0 0 0 0 numTrials) finals).
  split.
  - unfold Experiments.run.
    exact (run_loop g K n steps c (Experiments.mkResults 0 0 0 0 numTrials)
             (Z.to_nat numTrials) Hn).
  - cbn [add_counts Experiments.sync Experiments.twisted1 Experiments.twisted2
         Experiments.other Experiments.total].
    pose proof (count_partition finals) as Hsum.
    assert (Hlen : length finals = Z.to_nat numTrials).
    { unfold finals. rewrite length_fmap, length_seq. reflexivity. }
    pose proof (count_nonneg Sync finals). pose proof (count_nonneg Twisted1 finals).
    pose proof (count_nonneg Twisted2 finals). pose proof (count_nonneg Other finals).
    repeat split; lia.
Qed.

Lemma run_counts_witness :
  exists res : Experiments.Results,
    Experiments.run zero_rng 100 3 16 2000 0 = Ok (res, 3200%nat) /\
    (Experiments.sync res + Experiments.twisted1 res
     + Experiments.twisted2 res + Experiments.other res = 100)%Z.
Proof.
  destruct (run_counts zero_rng 100 3 16 2000 0 ltac:(lia) ltac:(lia))
    as (res & Hrun & Htot & _ & Hsum & _).
  exists res. split; [exact Hrun|]. rewrite Hsum. exact Htot.
Defined.

(** ** Wrapping a phase difference *)

Lemma while_above_le (fuel : nat) (d : R) :
  d <= PI + TWO_PI * INR fuel -> while_above fuel d <= PI.
Proof.
  revert d. induction fuel as [|fuel IH]; intros d Hd.
  - cbn in *. lra.
  - cbn [while_above]. unfold Js.gt. destruct (Rgt_dec d PI) as [Hgt|Hle]; [|lra].
    apply IH. rewrite S_INR in Hd. lra.
Qed.

Lemma while_below_ge (fuel : nat) (d : R) :
  - PI - TWO_PI * INR fuel <= d -> - PI <= while_below fuel d.
Proof.
  revert d. induction fuel as [|fuel IH]; intros d Hd.
  - cbn in *. lra.
  - cbn [while_below]. unfold Js.lt.
    destruct (Rlt_dec d (- PI)) as [Hlt|Hge]; [|lra].
    apply IH. rewrite S_INR in Hd. lra.
Qed.

Lemma while_below_le (fuel : nat) (d : R) :
  d <= PI -> while_below fuel d <= PI.
Proof.
  pose proof PI_RGT_0 as Hpi.
  revert d. induction fuel as [|fuel IH]; intros d Hd; [cbn; lra|].
  cbn [while_below]. unfold Js.lt.
  destruct (Rlt_dec d (- PI)) as [Hlt|Hge]; [|lra].
  apply IH. unfold TWO_PI. lra.
Qed.

Lemma turns_enough (d : R) : Rabs d <= TWO_PI * INR (turns d).
Proof.
  pose proof TWO_PI_pos as HT. unfold turns.
  set (q := Rabs d / TWO_PI).
  assert (Hq : 0 <= q).
  { unfold q. apply Rmult_le_pos; [apply Rabs_pos|].
    left. apply Rinv_0_lt_compat, HT. }
  destruct (archimed q) as [Hup _].
  assert (Hpos : (0 <= up q)%Z) by (apply le_IZR; lra).
  rewrite INR_IZR_INZ, Z2Nat.id by exact Hpos.
  assert (Hd : Rabs d = q * TWO_PI) by (unfold q; field; lra).
  rewrite Hd. nra.
Qed.

Lemma turns_pos (d : R) : (1 <= turns d)%nat.
Proof.
  pose proof TWO_PI_pos as HT. unfold turns.
  set (q := Rabs d / TWO_PI).
  assert (Hq : 0 <= q).
  { unfold q. apply Rmult_le_pos; [apply Rabs_pos|].
    left. apply Rinv_0_lt_compat, HT. }
  destruct (archimed q) as [Hup _].
  assert (Hpos : (0 < up q)%Z) by (apply lt_IZR; lra). lia.
Qed.

(** The fuel is never exhausted: both loops reach their exit test, so the
    wrapped difference lies in [-π, π]. *)
Lemma wrap_range (d : R) : - PI <= wrap d <= PI.
Proof.
  unfold wrap. set (d1 := while_above (turns d) d).
  assert (H1 : d1 <= PI).
  { apply while_above_le. pose proof (turns_enough d). pose proof (Rle_abs d).
    pose proof PI_RGT_0. lra. }
  split.
  - apply while_below_ge. pose proof (turns_enough d1).
    pose proof (Rle_abs (- d1)). rewrite Rabs_Ropp in *. pose proof PI_RGT_0. lra.
  - apply while_below_le, H1.
Qed.

Lemma wrap_id (d : R) : - PI <= d <= PI -> wrap d = d.
Proof.
  intros [Hl Hu]. unfold wrap.
  assert (Ha : forall fuel, while_above fuel d = d).
  { intros [|fuel]; [reflexivity|]. cbn. unfold Js.gt.
    destruct (Rgt_dec d PI); [lra | reflexivity]. }
  rewrite Ha.
  destruct (turns d) as [|fuel]; [reflexivity|]. cbn. unfold Js.lt.
  destruct (Rlt_dec d (- PI)); [lra | reflexivity].
Qed.

Lemma wrap_up (d : R) : - 3 * PI <= d < - PI -> wrap d = d + TWO_PI.
Proof.
  intros [Hl Hu]. pose proof PI_RGT_0 as Hpi. unfold wrap.
  assert (Ha : forall fuel, while_above fuel d = d).
  { intros [|fuel]; [reflexivity|]. cbn. unfold Js.gt.
    destruct (Rgt_dec d PI); [lra | reflexivity]. }
  rewrite Ha. pose proof (turns_pos d) as Hf.
  destruct (turns d) as [|fuel]; [lia|]. cbn [while_below]. unfold Js.lt.
  destruct (Rlt_dec d (- PI)) as [_|]; [|lra].
  destruct fuel as [|fuel]; [reflexivity|]. cbn [while_below]. unfold Js.lt.
  destruct (Rlt_dec (d + TWO_PI) (- PI)) as [Hc|_]; [|reflexivity].
  unfold TWO_PI in Hc. lra.
Qed.

(** Two successive phases of a twisted state, δ apart before the
    normalisation, are δ apart after the wrap. *)
Lemma wrap_normalized_diff (a delta : R) :
  0 < delta < PI -> wrap (normalize (a + delta) - normalize a) = delta.
Proof.
  intros [Hd0 Hd1]. pose proof PI_RGT_0 as Hpi.
  rewrite <- (normalize_shift a delta).
  pose proof (normalize_range a) as [Hu0 Hu1]. set (u := normalize a) in *.
  unfold TWO_PI in Hu1.
  destruct (Rlt_le_dec (u + delta) TWO_PI) as [Hlt|Hge].
  - rewrite normalize_id by (unfold in_range; lra).
    replace (u + delta - u) with delta by ring. apply wrap_id. lra.
  - rewrite (normalize_unique (u + delta) (u + delta - TWO_PI) 1)
      by (unfold TWO_PI in *; lra).
    replace (u + delta - TWO_PI - u) with (delta - TWO_PI) by ring.
    rewrite wrap_up by (unfold TWO_PI; lra). ring.
Qed.

(** ** The winding number of the twisted states *)

Lemma sweep_index_only (f : nat -> R) (a : list R) :
  sweep (fun i _ => f i) (length a) a = f <$> seq 0 (length a).
Proof.
  rewrite sweep_full. apply list_eq. intros i.
  rewrite list_lookup_imap, list_lookup_fmap.
  destruct (decide (i < length a)%nat) as [Hi|Hi].
  - rewrite lookup_seq_lt by exact Hi.
    destruct (lookup_lt_is_Some_2 a i Hi) as [x ->]. reflexivity.
  - rewrite lookup_seq_ge by lia. rewrite lookup_ge_None_2 by lia. reflexivity.
Qed.

Lemma normalize_twist_fmap (f : nat -> R) (n : nat) (s : KuramotoSimulator) :
  N s = n ->
  phases (normalizePhases (set_phases s (f <$> seq 0 n)))
    = (fun i => normalize (f i)) <$> seq 0 n.
Proof.
  intros HN. rewrite normalizePhases_phases.
  - cbn [phases set_phases]. rewrite <- list_fmap_compose. reflexivity.
  - cbn [phases set_phases N]. rewrite length_fmap, length_seq. congruence.
Qed.

Lemma setInitialPhases_twisted1 (g : Rng) (s : KuramotoSimulator) (c : nat) :
  length (phases s) = N s ->
  phases (fst (setInitialPhases g "twisted1" s c)) = twist TWO_PI (N s).
Proof.
  intros Hlen. unfold setInitialPhases.
  pick_case. cbn [fst].
  change (Js.for_loop (N s) _ (phases s))
    with (sweep (fun i _ => TWO_PI * INR i / INR (N s)) (N s) (phases s)).
  rewrite <- Hlen at 1. rewrite sweep_index_only, Hlen.
  apply normalize_twist_fmap. reflexivity.
Qed.

Lemma setInitialPhases_twisted2 (g : Rng) (s : KuramotoSimulator) (c : nat) :
  length (phases s) = N s ->
  phases (fst (setInitialPhases g "twisted2" s c)) = twist (4 * PI) (N s).
Proof.
  intros Hlen. unfold setInitialPhases.
  pick_case. cbn [fst].
  change (Js.for_loop (N s) _ (phases s))
    with (sweep (fun i _ => 4 * PI * INR i / INR (N s)) (N s) (phases s)).
  rewrite <- Hlen at 1. rewrite sweep_index_only, Hlen.
  apply normalize_twist_fmap. reflexivity.
Qed.

Lemma sum_loop_const (f : nat -> R) (delta : R) (m : nat) :
  (forall i, (i < m)%nat -> f i = delta) ->
  Js.for_loop m (fun i total => total + f i) 0 = INR m * delta.
Proof.
  induction m as [|m IH]; intros Hf.
  - rewrite for_loop_0. cbn. ring.
  - rewrite for_loop_S, IH by (intros; apply Hf; lia).
    rewrite (Hf m) by lia. rewrite S_INR. ring.
Qed.

Lemma round_integer (q : Z) : Js.round (IZR q) = q.
Proof. unfold Js.round. apply Int_part_unique. lra. Qed.

Lemma load_twist (c : R) (n i : nat) :
  (i < n)%nat -> Js.load (twist c n) i = normalize (c * INR i / INR n).
Proof.
  intros Hi. apply load_lookup. unfold twist.
  rewrite list_lookup_fmap, lookup_seq_lt by exact Hi. reflexivity.
Qed.

(** A state whose phases advance by [c/n] per oscillator, [c] being [q]
    whole turns and [c/n] less than half a turn, has winding number [q]. *)
Lemma winding_of_twist (s : KuramotoSimulator) (c : R) (q : Z) :
  (1 <= N s)%nat -> phases s = twist c (N s) -> c = IZR q * TWO_PI ->
  0 < c / INR (N s) < PI ->
  getWindingNumber s = q.
Proof.
  intros HN Hp Hc Hdelta. pose proof TWO_PI_pos as HT.
  assert (Hn : 0 < INR (N s)) by (apply lt_0_INR; lia).
  unfold getWindingNumber.
  rewrite (sum_loop_const _ (c / INR (N s))).
  - replace (INR (N s) * (c / INR (N s)) / TWO_PI) with (IZR q)
      by (rewrite Hc; field; lra).
    apply round_integer.
  - intros i Hi. rewrite Hp, (load_twist c (N s) i Hi).
    unfold iNext.
    destruct (decide (i + 1 < N s)%nat) as [Hlt|Hge].
    + rewrite Nat.mod_small by exact Hlt. rewrite load_twist by exact Hlt.
      replace (c * INR (i + 1) / INR (N s))
        with (c * INR i / INR (N s) + c / INR (N s))
        by (rewrite plus_INR; cbn [INR]; field; lra).
      apply wrap_normalized_diff. exact Hdelta.
    + replace (i + 1)%nat with (N s) by lia.
      rewrite Nat.Div0.mod_same. rewrite load_twist by lia.
      replace (normalize (c * INR 0 / INR (N s)))
        with (normalize (c * INR i / INR (N s) + c / INR (N s))).
      * apply wrap_normalized_diff. exact Hdelta.
      * transitivity 0.
        -- apply (normalize_unique _ 0 q); [lra|].
           replace (INR i) with (INR (N s) - 1).
           ++ rewrite Hc. field. lra.
           ++ replace (N s) with (i + 1)%nat at 1 by lia.
              rewrite plus_INR. cbn [INR]. ring.
        -- symmetry. apply (normalize_unique _ 0 0); [lra|].
           cbn [INR]. unfold Rdiv. ring.
Qed.

Lemma setInitialPhases_N (g : Rng) (type : string) (s : KuramotoSimulator) (c : nat) :
  N (fst (setInitialPhases g type s c)) = N s.
Proof. apply setInitialPhases_frame. Qed.

(** C4 (as the code has it). Immediately after
    [setInitialPhases('twisted1')] the winding number is exactly 1 for every
    [N >= 4]; immediately after [setInitialPhases('twisted2')] it is exactly
    2 for every [N >= 5].  [getWindingNumber] sums the neighbour differences
    wrapped into [-π, π], divides by 2π and rounds to the nearest
    integer. *)
Theorem twisted_winding (g : Rng) (s : KuramotoSimulator) (c : nat) :
  wf s ->
  ((4 <= N s)%nat ->
   getWindingNumber (fst (setInitialPhases g "twisted1" s c)) = 1%Z) /\
  ((5 <= N s)%nat ->
   getWindingNumber (fst (setInitialPhases g "twisted2" s c)) = 2%Z) /\
  (forall d : R, - PI <= wrap d <= PI).
Proof.
  intros (Hp & _ & _). pose proof PI_RGT_0 as Hpi.
  split; [|split; [|exact wrap_range]]; intros HN.
  - assert (Hn : 4 <= INR (N s))
      by (pose proof (le_INR 4 (N s) HN) as H; cbn [INR] in H; lra).
    apply (winding_of_twist _ TWO_PI 1).
    + rewrite setInitialPhases_N. lia.
    + rewrite setInitialPhases_N. apply setInitialPhases_twisted1, Hp.
    + ring.
    + rewrite setInitialPhases_N. unfold TWO_PI. split.
      * apply Rdiv_lt_0_compat; lra.
      * apply Rmult_lt_reg_r with (INR (N s)); [lra|].
        unfold Rdiv. rewrite Rmult_assoc, Rinv_l by lra. nra.
  - assert (Hn : 5 <= INR (N s))
      by (pose proof (le_INR 5 (N s) HN) as H; cbn [INR] in H; lra).
    apply (winding_of_twist _ (4 * PI) 2).
    + rewrite setInitialPhases_N. lia.
    + rewrite setInitialPhases_N. apply setInitialPhases_twisted2, Hp.
    + unfold TWO_PI. ring.
    + rewrite setInitialPhases_N. split.
      * apply Rdiv_lt_0_compat; lra.
      * apply Rmult_lt_reg_r with (INR (N s)); [lra|].
        unfold Rdiv. rewrite Rmult_assoc, Rinv_l by lra. nra.
Qed.

Lemma twisted_winding_witness :
  getWindingNumber (fst (setInitialPhases zero_rng "twisted1" (ring_of zero_rng 16) 0)) = 1%Z /\
  getWindingNumber (fst (setInitialPhases zero_rng "twisted2" (ring_of zero_rng 16) 0)) = 2%Z.
Proof.
  assert (Hwf : wf (ring_of zero_rng 16)) by (apply ring_of_invariant; lia).
  destruct (twisted_winding zero_rng (ring_of zero_rng 16) 0 Hwf) as (H1 & H2 & _).
  split; [apply H1 | apply H2]; rewrite ring_of_N; lia.
Defined.

Lemma winding_four (s : KuramotoSimulator) (a b c d : R) :
  N s = 4%nat -> phases s = [a; b; c; d] ->
  getWindingNumber s
    = Js.round ((0 + wrap (b - a) + wrap (c - b) + wrap (d - c) + wrap (a - d))
                / TWO_PI).
Proof. intros HN Hp. unfold getWindingNumber. rewrite HN, Hp. reflexivity. Qed.

Lemma twist_two_turns_four : twist (4 * PI) 4 = [0; PI; 0; PI].
Proof.
  pose proof PI_RGT_0 as Hpi.
  unfold twist. cbn [seq fmap list_fmap INR].
  repeat f_equal.
  - apply (normalize_unique _ 0 0); unfold TWO_PI; [lra | field].
  - apply (normalize_unique _ PI 0); unfold TWO_PI; [lra | field].
  - apply (normalize_unique _ 0 1); unfold TWO_PI; [lra | field].
  - apply (normalize_unique _ PI 1); unfold TWO_PI; [lra | field].
Qed.

(** C4, counterexample: on a ring of four oscillators [twisted2] yields
    the phases 0, π, 0, π; the neighbour differences are π, -π, π, -π, none
    of which the wrap changes, so the winding number is 0, not 2. *)
Lemma twisted2_four_winding :
  N (ring_of zero_rng 4) = 4%nat /\
  phases (fst (setInitialPhases zero_rng "twisted2" (ring_of zero_rng 4) 0))
    = [0; PI; 0; PI] /\
  getWindingNumber (fst (setInitialPhases zero_rng "twisted2" (ring_of zero_rng 4) 0))
    = 0%Z /\
  getWindingNumber (fst (setInitialPhases zero_rng "twisted2" (ring_of zero_rng 4) 0))
    <> 2%Z.
Proof.
  pose proof PI_RGT_0 as Hpi.
  assert (HN : N (ring_of zero_rng 4) = 4%nat) by (rewrite ring_of_N; lia).
  assert (Hwf : wf (ring_of zero_rng 4)) by (apply ring_of_invariant; lia).
  assert (Hp : phases (fst (setInitialPhases zero_rng "twisted2" (ring_of zero_rng 4) 0))
               = [0; PI; 0; PI]).
  { rewrite setInitialPhases_twisted2 by apply Hwf.
    rewrite HN. apply twist_two_turns_four. }
  assert (Hq : getWindingNumber
                 (fst (setInitialPhases zero_rng "twisted2" (ring_of zero_rng 4) 0))
               = 0%Z).
  { rewrite (winding_four _ 0 PI 0 PI); [| rewrite setInitialPhases_N; exact HN | exact Hp].
    rewrite !wrap_id by lra.
    replace ((0 + (PI - 0) + (0 - PI) + (PI - 0) + (0 - PI)) / TWO_PI)
      with (IZR 0) by (unfold TWO_PI; field; lra).
    apply round_integer. }
  split; [exact HN|]. split; [exact Hp|]. split; [exact Hq|].
  rewrite Hq. lia.
Qed.

(** * Further properties of the simulator *)

(** ** The ring topology *)

Lemma iPrev_spec (n i : nat) :
  (i < n)%nat -> iPrev n i = (if decide (i = 0%nat) then n - 1 else i - 1)%nat.
Proof.
  intros Hi. unfold iPrev. destruct (decide (i = 0%nat)) as [->|Hne].
  - replace (Z.of_nat 0 - 1 + Z.of_nat n)%Z with (Z.of_nat n - 1)%Z by lia.
    rewrite Z.rem_small by lia. lia.
  - replace (Z.of_nat i - 1 + Z.of_nat n)%Z
      with (Z.of_nat i - 1 + 1 * Z.of_nat n)%Z by lia.
    rewrite Z.rem_mod_nonneg by lia.
    rewrite Z.mod_add by lia. rewrite Z.mod_small by lia. lia.
Qed.

Lemma iNext_spec (n i : nat) :
  (i < n)%nat -> iNext n i = (if decide (i + 1 = n)%nat then 0 else i + 1)%nat.
Proof.
  intros Hi. unfold iNext. destruct (decide (i + 1 = n)%nat) as [<-|Hne].
  - apply Nat.Div0.mod_same.
  - apply Nat.mod_small. lia.
Qed.

(** X1. The neighbour indices [(i - 1 + N) % N] and [(i + 1) % N] of an
    oscillator [i < N] are again oscillators of the ring, and stepping to
    the next neighbour and back (or back and forth) returns to [i]. *)
Theorem ring_neighbours (n i : nat) :
  (i < n)%nat ->
  (iNext n i < n)%nat /\ (iPrev n i < n)%nat /\
  iPrev n (iNext n i) = i /\ iNext n (iPrev n i) = i.
Proof.
  intros Hi.
  assert (Hn : (iNext n i < n)%nat).
  { rewrite iNext_spec by exact Hi. destruct (decide (i + 1 = n)%nat); lia. }
  assert (Hp : (iPrev n i < n)%nat).
  { rewrite iPrev_spec by exact Hi. destruct (decide (i = 0%nat)); lia. }
  split; [exact Hn|]. split; [exact Hp|]. split.
  - rewrite iPrev_spec by exact Hn. rewrite iNext_spec by exact Hi.
    destruct (decide (i + 1 = n)%nat) as [He|He].
    + destruct (decide (0 = 0)%nat); lia.
    + destruct (decide (i + 1 = 0)%nat); lia.
  - rewrite iNext_spec by exact Hp. rewrite iPrev_spec by exact Hi.
    destruct (decide (i = 0%nat)) as [He|He].
    + destruct (decide (n - 1 + 1 = n)%nat); lia.
    + destruct (decide (i - 1 + 1 = n)%nat); lia.
Qed.

Lemma ring_neighbours_witness :
  (iNext 16 15 < 16)%nat /\ (iPrev 16 15 < 16)%nat /\
  iPrev 16 (iNext 16 15) = 15%nat /\ iNext 16 (iPrev 16 15) = 15%nat.
Proof. apply ring_neighbours. lia. Defined.

(** ** The two derivative routines *)

Lemma sweep_index_fixed (f : nat -> R) (n : nat) (a : list R) :
  length a = n -> sweep (fun i _ => f i) n a = f <$> seq 0 n.
Proof. intros <-. apply sweep_index_only. Qed.

Lemma computeDerivativesFor_eq (s : KuramotoSimulator) (ph out : list R) :
  length out = N s ->
  computeDerivativesFor s ph out = derivative s ph <$> seq 0 (N s).
Proof.
  intros Hlen. unfold computeDerivativesFor.
  change (Js.for_loop (N s) _ out)
    with (sweep (fun i _ => derivative s ph i) (N s) out).
  apply sweep_index_fixed, Hlen.
Qed.

Lemma computeDerivatives_eq (s : KuramotoSimulator) :
  length (dPhases s) = N s ->
  dPhases (computeDerivatives s) = derivative s (phases s) <$> seq 0 (N s).
Proof.
  intros Hlen. unfold computeDerivatives. cbn [dPhases set_dPhases].
  change (Js.for_loop (N s) _ (dPhases s))
    with (sweep (fun i _ => derivative s (phases s) i) (N s) (dPhases s)).
  apply sweep_index_fixed, Hlen.
Qed.

(** X2. [computeDerivativesFor(phases, output)], given a phase vector of
    the ring's length, fills [output] with
    ωᵢ + (K/2)·[sin(θᵢ₊₁ − θᵢ) + sin(θᵢ₋₁ − θᵢ)] for that vector,
    whatever [output] held before; on the ring's own phases and scratch
    buffer it computes exactly what [computeDerivatives()] leaves in
    [dPhases]. *)
Theorem derivative_routines_agree (s : KuramotoSimulator) (ph out : list R) :
  wf s -> length ph = N s -> length out = N s ->
  computeDerivativesFor s ph out = derivative s ph <$> seq 0 (N s) /\
  computeDerivativesFor s (phases s) out = dPhases (computeDerivatives s).
Proof.
  intros (_ & _ & Hd) _ Hout. split.
  - apply computeDerivativesFor_eq, Hout.
  - rewrite computeDerivativesFor_eq by exact Hout.
    rewrite computeDerivatives_eq by exact Hd. reflexivity.
Qed.

Lemma derivative_routines_agree_witness :
  computeDerivativesFor quarter_turn_ring (phases quarter_turn_ring) [7; 7; 7; 7]
    = dPhases (computeDerivatives quarter_turn_ring).
Proof.
  apply (derivative_routines_agree quarter_turn_ring
           (phases quarter_turn_ring) [7; 7; 7; 7]).
  - repeat split.
  - reflexivity.
  - reflexivity.
Defined.

(** ** The coupling strength *)

Lemma reachable_K_nonneg (g : Rng) (s : KuramotoSimulator) :
  reachable g s -> 0 <= K s.
Proof.
  induction 1 as [n c s c' Hc | type c s _ IH | type c s _ IH
                 | a c s _ IH | dt s _ IH | dt s _ IH | k s _ IH].
  - destruct (Z.lt_ge_cases n 0) as [Hn|Hn].
    { rewrite constructor_error in Hc by exact Hn. discriminate. }
    rewrite constructor_success in Hc by exact Hn.
    injection Hc as <- _. cbn. lra.
  - unfold setFrequencies.
    destruct (String.eqb type "identical"); [exact IH|].
    destruct (String.eqb type "random").
    { rewrite (for_loop_draws (fun _ _ c => 0.8 + draw g c * 0.4)). exact IH. }
    destruct (String.eqb type "twoGroups"); exact IH.
  - destruct (setInitialPhases_frame g type s c) as (_ & _ & _ & ->). exact IH.
  - destruct (perturb_shape g a s c) as (p & _ & ->). exact IH.
  - exact IH.
  - exact IH.
  - cbn. unfold Js.max. apply Rmax_l.
Qed.

(** X3. [setCoupling(K)] stores [K] itself when [K >= 0] and 0 otherwise, and
    since the constructor starts from 1.0 and no other method writes the
    field, the coupling of every reachable simulator is non-negative. *)
Theorem coupling_never_negative (g : Rng) (s : KuramotoSimulator) (k : R) :
  reachable g s ->
  0 <= K s /\
  K (setCoupling k s) = (if Rle_dec 0 k then k else 0) /\
  setCoupling (K (setCoupling k s)) (setCoupling k s) = setCoupling k s.
Proof.
  intros Hs. split; [apply (reachable_K_nonneg g s Hs)|].
  assert (HK : K (setCoupling k s) = if Rle_dec 0 k then k else 0).
  { cbn. unfold Js.max.
    destruct (Rle_dec 0 k); [apply Rmax_right | apply Rmax_left]; lra. }
  split; [exact HK|].
  unfold setCoupling, set_K, Js.max. cbn [N phases frequencies dPhases K].
  f_equal. apply Rmax_right, Rmax_l.
Qed.

Lemma coupling_never_negative_witness :
  0 <= K (setCoupling (-3) (ring_of zero_rng 16)) /\
  K (setCoupling (-3) (setCoupling (-3) (ring_of zero_rng 16)))
    = (if Rle_dec 0 (-3) then -3 else 0).
Proof.
  assert (H : reachable zero_rng (setCoupling (-3) (ring_of zero_rng 16))).
  { apply reach_setCoupling, ring_of_reachable. lia. }
  destruct (coupling_never_negative zero_rng _ (-3) H) as (H0 & H1 & _).
  split; [exact H0 | exact H1].
Defined.




(** ** The integrators, slot by slot *)

(** X5. [step(dt)] replaces the phase of every oscillator [i] by
    [θᵢ + dt·(ωᵢ + (K/2)·[sin(θᵢ₊₁ − θᵢ) + sin(θᵢ₋₁ − θᵢ)])], brought
    back into [0, 2π), where [θᵢ₊₁] and [θᵢ₋₁] are the old phases of the
    two ring neighbours; the number of phases does not change. *)
Theorem euler_step_formula (dt : R) (s : KuramotoSimulator) (i : nat)
    (x w xn xp : R) :
  wf s ->
  phases s !! i = Some x -> frequencies s !! i = Some w ->
  phases s !! iNext (N s) i = Some xn -> phases s !! iPrev (N s) i = Some xp ->
  phases (step dt s) !! i
    = Some (normalize (x + (w + K s / 2 * (sin (xn - x) + sin (xp - x))) * dt))
  /\ length (phases (step dt s)) = length (phases s).
Proof.
  intros Hwf Hx Hw Hn Hp. rewrite step_phases by exact Hwf. split.
  - rewrite list_lookup_imap, Hx. cbn. unfold derivative.
    rewrite (load_lookup _ _ _ Hx), (load_lookup _ _ _ Hw),
      (load_lookup _ _ _ Hn), (load_lookup _ _ _ Hp). reflexivity.
  - apply length_imap.
Qed.

Lemma euler_step_formula_witness :
  phases (step 0.02 quarter_turn_ring) !! 0%nat
    = Some (normalize (0 + (1 + K quarter_turn_ring / 2
                              * (sin (PI / 2 - 0) + sin (3 * (PI / 2) - 0)))
                           * 0.02)).
Proof.
  apply (euler_step_formula 0.02 quarter_turn_ring 0 0 1 (PI / 2) (3 * (PI / 2)));
    try reflexivity.
  repeat split.
Defined.

Lemma load_fmap_seq (f : nat -> R) (n i : nat) :
  (i < n)%nat -> Js.load (f <$> seq 0 n) i = f i.
Proof.
  intros Hi. apply load_lookup.
  rewrite list_lookup_fmap, lookup_seq_lt by exact Hi. reflexivity.
Qed.

Lemma js_set_whole (a b : list R) : length a = length b -> Js.set a b = b.
Proof.
  intros Hlen. unfold Js.set. rewrite drop_ge by lia. apply app_nil_r.
Qed.

Lemma stage_loop (s : KuramotoSimulator) (h : R) (k temp : list R) :
  length temp = N s ->
  Js.for_loop (N s)
    (fun i t => Js.store t i (Js.load (phases s) i + h * Js.load k i)) temp
  = stage s h k.
Proof.
  intros Hlen.
  change (Js.for_loop (N s) _ temp)
    with (sweep (fun i _ => Js.load (phases s) i + h * Js.load k i) (N s) temp).
  apply sweep_index_fixed, Hlen.
Qed.

Lemma stage_length (s : KuramotoSimulator) (h : R) (k : list R) :
  length (stage s h k) = N s.
Proof. unfold stage. rewrite length_fmap. apply length_seq. Qed.

Lemma zeros_length (n : nat) : length (Js.zeros n) = n.
Proof. apply length_replicate. Qed.

(** The phases after one Runge-Kutta step. *)
Lemma stepRK4_phases (dt : R) (s : KuramotoSimulator) :
  wf s ->
  phases (stepRK4 dt s)
    = imap (fun i x =>
              normalize (x + dt / 6 * (Js.load (rk4_k1 s) i
                                       + 2 * Js.load (rk4_k2 dt s) i
                                       + 2 * Js.load (rk4_k3 dt s) i
                                       + Js.load (rk4_k4 dt s) i)))
        (phases s).
Proof.
  intros (Hp & Hf & Hd). unfold stepRK4.
  rewrite normalizePhases_phases.
  2:{ cbn [phases set_phases N computeDerivatives set_dPhases].
      etransitivity; [|exact Hp].
      match goal with
      | |- length (Js.for_loop _ (fun i p => Js.store p i (Js.load p i + @?e i)) _) = _ =>
          apply (sweep_length (fun i x => x + e i))
      end. }
  cbn [phases set_phases N].
  assert (Hk1 : Js.set (Js.zeros (N s)) (dPhases (computeDerivatives s)) = rk4_k1 s).
  { rewrite js_set_whole.
    - apply computeDerivatives_eq, Hd.
    - rewrite zeros_length, computeDerivatives_eq by exact Hd.
      rewrite length_fmap, length_seq. reflexivity. }
  rewrite Hk1.
  change (N (computeDerivatives s)) with (N s).
  change (phases (computeDerivatives s)) with (phases s).
  rewrite (stage_loop s (0.5 * dt) (rk4_k1 s)) by apply zeros_length.
  assert (Hfor : forall ph out, length out = N s ->
            computeDerivativesFor (computeDerivatives s) ph out = slopes s ph).
  { intros ph out Hout.
    exact (computeDerivativesFor_eq (computeDerivatives s) ph out Hout). }
  rewrite (Hfor _ (Js.zeros (N s))) by apply zeros_length.
  fold (rk4_k2 dt s).
  rewrite (stage_loop s (0.5 * dt) (rk4_k2 dt s)) by apply stage_length.
  rewrite (Hfor _ (Js.zeros (N s))) by apply zeros_length.
  fold (rk4_k3 dt s).
  rewrite (stage_loop s dt (rk4_k3 dt s)) by apply stage_length.
  rewrite (Hfor _ (Js.zeros (N s))) by apply zeros_length.
  fold (rk4_k4 dt s).
  match goal with
  | |- _ <$> Js.for_loop _ (fun i p => Js.store p i (Js.load p i + @?e i)) _ = _ =>
      change (Js.for_loop (N s) _ (phases s))
        with (sweep (fun i x => x + e i) (N s) (phases s))
  end.
  rewrite <- Hp at 1. rewrite sweep_full.
  apply list_eq. intros i. rewrite list_lookup_fmap, !list_lookup_imap.
  destruct (phases s !! i); reflexivity.
Qed.

Lemma load_slopes (s : KuramotoSimulator) (ph : list R) (i : nat) :
  (i < N s)%nat -> Js.load (slopes s ph) i = derivative s ph i.
Proof. intros Hi. unfold slopes. apply load_fmap_seq, Hi. Qed.

(** X6. [stepRK4(dt)] is the classical fourth-order Runge-Kutta step: with
    [k1] the slopes at the current phases, [k2] and [k3] the slopes at the
    phases advanced by [dt/2] along [k1] and [k2], and [k4] the slopes at
    the phases advanced by [dt] along [k3], it replaces every phase [θᵢ]
    by [θᵢ + (dt/6)·(k1ᵢ + 2·k2ᵢ + 2·k3ᵢ + k4ᵢ)], brought back into
    [0, 2π). *)
Theorem rk4_step_formula (dt : R) (s : KuramotoSimulator) (i : nat) (x : R) :
  wf s -> phases s !! i = Some x ->
  phases (stepRK4 dt s) !! i
    = Some (normalize
              (x + dt / 6 *
                 (derivative s (phases s) i
                  + 2 * derivative s (stage s (0.5 * dt) (slopes s (phases s))) i
                  + 2 * derivative s
                          (stage s (0.5 * dt)
                             (slopes s (stage s (0.5 * dt) (slopes s (phases s))))) i
                  + derivative s
                      (stage s dt
                         (slopes s
                            (stage s (0.5 * dt)
                               (slopes s (stage s (0.5 * dt) (slopes s (phases s))))))) i))).
Proof.
  intros Hwf Hx. rewrite stepRK4_phases by exact Hwf.
  rewrite list_lookup_imap, Hx. cbn [fmap option_fmap option_map].
  assert (Hi : (i < N s)%nat).
  { destruct Hwf as (Hp & _). rewrite <- Hp. eapply lookup_lt_Some, Hx. }
  unfold rk4_k4, rk4_k3, rk4_k2, rk4_k1.
  rewrite !load_slopes by exact Hi. reflexivity.
Qed.

Lemma rk4_step_formula_witness :
  exists y : R, phases (stepRK4 0.02 quarter_turn_ring) !! 1%nat = Some (normalize y).
Proof.
  eexists. apply (rk4_step_formula 0.02 quarter_turn_ring 1 (PI / 2)).
  - repeat split.
  - reflexivity.
Defined.




(** ** Perturbation and random frequencies *)







(** ** Rotating waves: synchronised and twisted states under the Euler step *)




Lemma cos_turns (x : R) (k : Z) : cos (x + IZR k * TWO_PI) = cos x.
Proof.
  unfold TWO_PI. destruct (Z.le_gt_cases 0 k) as [Hk|Hk].
  - rewrite <- (Z2Nat.id k Hk), <- INR_IZR_INZ.
    rewrite <- (cos_period x (Z.to_nat k)). f_equal. ring.
  - rewrite <- (cos_period (x + IZR k * (2 * PI)) (Z.to_nat (- k))).
    f_equal. rewrite INR_IZR_INZ, Z2Nat.id by lia. rewrite opp_IZR. ring.
Qed.









(** ** The winding number is exact *)











(** ** The quasi-synchronised initial state *)

Lemma setInitialPhases_quasiSync (g : Rng) (s : KuramotoSimulator) (c : nat) :
  length (phases s) = N s ->
  phases (fst (setInitialPhases g "quasiSync" s c))
    = (fun i => normalize (draw g c * TWO_PI + (draw g (S c + i) - 0.5) * 0.3))
        <$> seq 0 (N s) /\
  snd (setInitialPhases g "quasiSync" s c) = (S c + N s)%nat.
Proof.
  intros Hlen. unfold setInitialPhases. pick_case.
  rewrite (for_loop_draws
             (fun _ _ c' => draw g c * TWO_PI + (draw g c' - 0.5) * 0.3)).
  cbn [fst snd]. split; [|reflexivity].
  rewrite sweep_index_fixed by exact Hlen.
  apply normalize_twist_fmap. reflexivity.
Qed.

Lemma cos_small_angle : 0.9 < cos 0.15.
Proof.
  pose proof PI2_1 as Hpi.
  destruct (cos_bound 0.15 0) as [Hlow _]; [lra | lra |].
  unfold cos_approx, cos_term in Hlow. cbn in Hlow. lra.
Qed.

Lemma cos_near_zero (e : R) : -0.15 <= e <= 0.15 -> cos 0.15 <= cos e.
Proof.
  intros [Hl Hu]. pose proof PI2_1 as Hpi.
  destruct (Rle_lt_dec 0 e) as [He|He].
  - apply cos_decr_1; lra.
  - rewrite <- (cos_neg e). apply cos_decr_1; lra.
Qed.

(** The resultant is at least as long as its projection on any
    direction. *)
Lemma projection_le_resultant (C S t b : R) :
  0 <= b -> b <= C * cos t + S * sin t -> b * b <= C * C + S * S.
Proof.
  intros Hb HP. pose proof (sin2_cos2 t) as Ht. unfold Rsqr in Ht.
  assert (H2 : (C * cos t + S * sin t) * (C * cos t + S * sin t)
               = (C * C + S * S) * (sin t * sin t + cos t * cos t)
                 - (C * sin t - S * cos t) * (C * sin t - S * cos t)) by ring.
  rewrite Ht, Rmult_1_r in H2.
  pose proof (Rle_0_sqr (C * sin t - S * cos t)) as H3. unfold Rsqr in H3.
  assert (b * b <= (C * cos t + S * sin t) * (C * cos t + S * sin t)) by nra.
  lra.
Qed.

Lemma near_centre_sum (l : list R) (ctr b : R) :
  Forall (fun x => b <= cos (x - ctr)) l ->
  INR (length l) * b
    <= Rsum (cos <$> l) * cos ctr + Rsum (sin <$> l) * sin ctr.
Proof.
  induction 1 as [|x l Hx _ IH]; [cbn; lra|].
  cbn [fmap list_fmap Rsum foldr length]. rewrite S_INR.
  fold (Rsum (cos <$> l)). fold (Rsum (sin <$> l)).
  rewrite cos_minus in Hx. lra.
Qed.

(** Phases that all lie within a window around one centre, so narrow that
    [cos] of the distance is at least [b >= 0], give [r >= b]. *)
Lemma r_near_centre (s : KuramotoSimulator) (ctr b : R) :
  length (phases s) = N s -> (1 <= N s)%nat -> 0 <= b ->
  Forall (fun x => b <= cos (x - ctr)) (phases s) ->
  b <= r (getOrderParameter s).
Proof.
  intros Hlen HN Hb Hnear. rewrite getOrderParameter_r by exact Hlen.
  rewrite mean_squares by exact HN.
  assert (Hn : 0 < INR (N s)) by (apply lt_0_INR; lia).
  pose proof (near_centre_sum _ ctr b Hnear) as Hsum. rewrite Hlen in Hsum.
  assert (Hsq : (INR (N s) * b) * (INR (N s) * b)
                <= Rsum (cos <$> phases s) * Rsum (cos <$> phases s)
                   + Rsum (sin <$> phases s) * Rsum (sin <$> phases s)).
  { apply (projection_le_resultant _ _ ctr); [nra | exact Hsum]. }
  rewrite <- (sqrt_square b Hb). apply sqrt_le_1_alt.
  set (X := Rsum (cos <$> phases s) * Rsum (cos <$> phases s)
            + Rsum (sin <$> phases s) * Rsum (sin <$> phases s)) in *.
  apply Rmult_le_reg_r with (INR (N s) * INR (N s)); [nra|].
  replace (X / (INR (N s) * INR (N s)) * (INR (N s) * INR (N s))) with X
    by (field; lra).
  lra.
Qed.

(** X13. [setInitialPhases('quasiSync')] takes one draw for the centre and one
    per oscillator, puts every phase within 0.15 rad of the centre (modulo
    2π), and the ring it leaves has [r >= cos 0.15 > 0.9]: on a ring of at
    least one oscillator [classifyState()] answers with the synchronised
    label right after it. *)
Theorem quasiSync_is_synchronised (g : Rng) (s : KuramotoSimulator) (c : nat) :
  wf s -> (1 <= N s)%nat ->
  (forall i : nat, (i < N s)%nat ->
     exists e : R, -0.15 <= e < 0.15 /\
       phases (fst (setInitialPhases g "quasiSync" s c)) !! i
         = Some (normalize (draw g c * TWO_PI + e))) /\
  snd (setInitialPhases g "quasiSync" s c) = (S c + N s)%nat /\
  0.9 < r (getOrderParameter (fst (setInitialPhases g "quasiSync" s c))) /\
  classifyState (fst (setInitialPhases g "quasiSync" s c)) = Synchronise.
Proof.
  intros Hwf HN. pose proof Hwf as (Hp & _).
  destruct (setInitialPhases_quasiSync g s c Hp) as [Hph Hc].
  destruct (invariant_setInitialPhases g "quasiSync" s c Hwf) as [(Hlen & _) _].
  pose proof (setInitialPhases_N g "quasiSync" s c) as HN'.
  assert (Hnoise : forall i, -0.15 <= (draw g (S c + i) - 0.5) * 0.3 < 0.15).
  { intros i. pose proof (draw_range g (S c + i)). lra. }
  assert (Hr : 0.9 < r (getOrderParameter (fst (setInitialPhases g "quasiSync" s c)))).
  { eapply Rlt_le_trans; [exact cos_small_angle|].
    apply (r_near_centre _ (draw g c * TWO_PI)).
    - exact Hlen.
    - rewrite HN'. exact HN.
    - pose proof cos_small_angle. lra.
    - rewrite Hph. apply Forall_fmap, Forall_forall. intros i _.
      unfold compose.
      destruct (normalize_turns
                  (draw g c * TWO_PI + (draw g (S c + i) - 0.5) * 0.3)) as [k Hk].
      rewrite Hk.
      replace (draw g c * TWO_PI + (draw g (S c + i) - 0.5) * 0.3
               + IZR k * TWO_PI - draw g c * TWO_PI)
        with ((draw g (S c + i) - 0.5) * 0.3 + IZR k * TWO_PI) by ring.
      rewrite cos_turns. apply cos_near_zero.
      pose proof (Hnoise i). lra. }
  split; [|split; [exact Hc | split; [exact Hr|]]].
  - intros i Hi. exists ((draw g (S c + i) - 0.5) * 0.3).
    split; [apply Hnoise|].
    rewrite Hph, list_lookup_fmap, lookup_seq_lt by exact Hi. reflexivity.
  - unfold classifyState. rewrite gt_true by exact Hr. reflexivity.
Qed.

Lemma quasiSync_is_synchronised_witness :
  classifyState (fst (setInitialPhases zero_rng "quasiSync" (ring_of zero_rng 16) 0))
    = Synchronise.
Proof.
  apply (quasiSync_is_synchronised zero_rng (ring_of zero_rng 16) 0).
  - apply (ring_of_invariant zero_rng 16). lia.
  - rewrite ring_of_N; lia.
Defined.

(** * The application state (state.js) *)

Lemma clamp_range (lo hi x : R) :
  lo <= hi -> lo <= Js.max lo (Js.min hi x) <= hi.
Proof.
  intros Hle. unfold Js.max, Js.min, Rmax, Rmin.
  destruct (Rle_dec hi x), (Rle_dec lo hi), (Rle_dec lo x); lra.
Qed.

Lemma clamp_inside (lo hi x : R) :
  lo <= x <= hi -> Js.max lo (Js.min hi x) = x.
Proof.
  intros [H1 H2]. unfold Js.max, Js.min, Rmax, Rmin.
  destruct (Rle_dec hi x), (Rle_dec lo hi), (Rle_dec lo x); lra.
Qed.

Lemma le_true (x y : R) : x <= y -> Js.le x y = true.
Proof. intros H. unfold Js.le. destruct (Rle_dec x y); [reflexivity | contradiction]. Qed.

Lemma le_false (x y : R) : y < x -> Js.le x y = false.
Proof. intros H. unfold Js.le. destruct (Rle_dec x y); [lra | reflexivity]. Qed.

Lemma ge_true (x y : R) : x >= y -> Js.ge x y = true.
Proof. intros H. unfold Js.ge. destruct (Rge_dec x y); [reflexivity | contradiction]. Qed.

Lemma ge_false (x y : R) : x < y -> Js.ge x y = false.
Proof. intros H. unfold Js.ge. destruct (Rge_dec x y); [lra | reflexivity]. Qed.

(** Unfolds the methods of [AppState] and splits on every test they
    make. *)
Ltac appstate_cases :=
  unfold AppState.setRunning, AppState.toggleRunning, AppState.setK,
    AppState.setMode, AppState.setFrequencyType, AppState.setSpeed,
    AppState.startSweep, AppState.fullReset, AppState.reset,
    AppState.clearHistory, AppState.clearHysteresis, AppState.stopSweep,
    AppState.notifyChange in *;
  cbn in *;
  repeat match goal with
         | |- context [if ?b then _ else _] => destruct b eqn:?; cbn in *
         end.

(** Closes the conjuncts of [AppState.ok] on an updated record. *)
Ltac ok_solve :=
  repeat split; cbn in *; try assumption; try lra; try lia;
  try (intros; congruence); auto.

Lemma ok_notifyChange (p : string) (st : AppState.t) :
  AppState.ok st -> AppState.ok (AppState.notifyChange p st).
Proof.
  unfold AppState.notifyChange. destruct (AppState.onStateChange st); auto.
Qed.

Lemma ok_stopSweep (st : AppState.t) :
  0 <= AppState.K st <= 5 -> 0.25 <= AppState.speedMultiplier st <= 4 ->
  AppState.dt st = 0.02 -> AppState.sweepSpeed st = 0.005 ->
  AppState.maxHistoryLength st = 500%nat ->
  (length (AppState.rHistory st) <= 500)%nat ->
  AppState.ok (AppState.stopSweep st).
Proof.
  intros. apply ok_notifyChange. repeat split; cbn; auto; lra.
Qed.

Lemma ok_updateSweep (st : AppState.t) :
  AppState.ok st -> AppState.ok (fst (AppState.updateSweep st)).
Proof.
  intros Hok. pose proof Hok as (HK & Hs & Hdt & Hv & Hmax & Hlen & Hdir).
  unfold AppState.updateSweep.
  destruct (AppState.sweeping st) eqn:Hsw; cbn [negb fst]; [|exact Hok].
  cbn [AppState.K AppState.set_K].
  set (k' := AppState.K st + AppState.sweepDirection st * AppState.sweepSpeed st).
  destruct (Rle_lt_dec k' 0) as [H0|H0].
  - rewrite le_true by exact H0. apply ok_stopSweep; cbn; auto; lra.
  - rewrite le_false by exact H0.
    destruct (Rle_lt_dec 5 k') as [H5|H5].
    + rewrite ge_true by lra. apply ok_stopSweep; cbn; auto; lra.
    + rewrite ge_false by exact H5.
      repeat split; cbn; auto; try lra. rewrite Hsw. discriminate.
Qed.

Lemma tail_length {A : Type} (l : list A) : length (tail l) = (length l - 1)%nat.
Proof. destruct l; cbn; lia. Qed.

Lemma ok_addToHistory (r k : R) (st : AppState.t) :
  AppState.ok st -> AppState.ok (AppState.addToHistory r k st).
Proof.
  intros (HK & Hs & Hdt & Hv & Hmax & Hlen & Hdir).
  unfold AppState.addToHistory.
  cbn [AppState.rHistory AppState.set_rHistory AppState.maxHistoryLength].
  rewrite Hmax, length_app. cbn [length].
  assert (Hpush : AppState.ok
            (if (500 <? length (AppState.rHistory st) + 1)%nat
             then AppState.set_rHistory
                    (AppState.set_rHistory st (AppState.rHistory st ++ [r]))
                    (tail (AppState.rHistory st ++ [r]))
             else AppState.set_rHistory st (AppState.rHistory st ++ [r]))).
  { destruct (Nat.ltb_spec 500 (length (AppState.rHistory st) + 1)).
    - repeat split; cbn; try assumption; try lra.
      rewrite tail_length, length_app. cbn [length]. lia.
    - repeat split; cbn; try assumption; try lra.
      rewrite length_app. cbn [length]. lia. }
  set (st1 := if (500 <? _)%nat then _ else _) in *.
  destruct Hpush as (HK1 & Hs1 & Hdt1 & Hv1 & Hmax1 & Hlen1 & Hdir1).
  destruct (AppState.sweeping st1) eqn:Hsw.
  - destruct (Js.gt (AppState.sweepDirection st1) 0); ok_solve.
  - ok_solve.
Qed.

Lemma reachable_ok (st : AppState.t) : AppState.reachable st -> AppState.ok st.
Proof.
  induction 1 as [ | b st _ IH | st _ IH | k st _ IH | m st _ IH | ty st _ IH
                 | v st _ IH | d st _ IH | st _ IH | st _ IH | r k st _ IH
                 | st _ IH | st _ IH | st _ IH | st _ IH | b st _ IH | v st _ IH];
    try (apply ok_updateSweep, IH); try (apply ok_addToHistory, IH).
  - repeat split; cbn; try lra; try lia.
  - apply ok_notifyChange. exact IH.
  - unfold AppState.toggleRunning. cbn [fst]. apply ok_notifyChange. exact IH.
  - apply ok_notifyChange.
    destruct IH as (HK & Hs & Hdt & Hv & Hmax & Hlen & Hdir).
    pose proof (clamp_range 0 5 k ltac:(lra)).
    repeat split; cbn; auto; lra.
  - apply ok_notifyChange. exact IH.
  - apply ok_notifyChange. exact IH.
  - apply ok_notifyChange.
    destruct IH as (HK & Hs & Hdt & Hv & Hmax & Hlen & Hdir).
    pose proof (clamp_range 0.25 4 v ltac:(lra)).
    repeat split; cbn; auto; lra.
  - apply ok_notifyChange.
    destruct IH as (HK & Hs & Hdt & Hv & Hmax & Hlen & Hdir).
    destruct (Js.gt d 0); repeat split; cbn; auto; try lra; discriminate.
  - destruct IH as (HK & Hs & Hdt & Hv & Hmax & Hlen & Hdir).
    apply ok_stopSweep; assumption.
  - destruct IH as (HK & Hs & Hdt & Hv & Hmax & Hlen & Hdir).
    repeat split; cbn; auto; try lra; lia.
  - exact IH.
  - apply ok_notifyChange.
    destruct IH as (HK & Hs & Hdt & Hv & Hmax & Hlen & Hdir).
    repeat split; cbn; auto; try lra; lia.
  - apply ok_notifyChange.
    destruct IH as (HK & Hs & Hdt & Hv & Hmax & Hlen & Hdir).
    unfold AppState.reset, AppState.notifyChange.
    destruct (AppState.onStateChange _);
      repeat split; cbn; auto; try lra; lia.
  - exact IH.
  - exact IH.
Qed.

(** X15. In every state the application can reach, whatever arguments the
    methods were given: the coupling [K] lies in [0, 5], the speed
    multiplier in [0.25, 4] and so the effective time step
    [getEffectiveDt()] in [0.005, 0.08]; [rHistory] holds at most 500
    values; and a sweep that is off has direction 0. *)
Theorem appstate_bounds (st : AppState.t) :
  AppState.reachable st ->
  0 <= AppState.K st <= 5 /\
  0.25 <= AppState.speedMultiplier st <= 4 /\
  0.005 <= AppState.getEffectiveDt st <= 0.08 /\
  (length (AppState.rHistory st) <= 500)%nat /\
  (AppState.sweeping st = false -> AppState.sweepDirection st = 0).
Proof.
  intros Hr. destruct (reachable_ok st Hr) as (HK & Hs & Hdt & Hv & Hmax & Hlen & Hdir).
  repeat split; try assumption; try lra;
    unfold AppState.getEffectiveDt; rewrite Hdt; lra.
Qed.

Lemma appstate_bounds_witness :
  0 <= AppState.K (AppState.setSpeed 100 (AppState.setK (-7) AppState.new)) <= 5 /\
  0.005 <= AppState.getEffectiveDt
             (AppState.setSpeed 100 (AppState.setK (-7) AppState.new)) <= 0.08.
Proof.
  assert (H : AppState.reachable
                (AppState.setSpeed 100 (AppState.setK (-7) AppState.new))).
  { apply AppState.reach_setSpeed, AppState.reach_setK, AppState.reach_new. }
  destruct (appstate_bounds _ H) as (HK & _ & Hdt & _).
  split; [exact HK | exact Hdt].
Defined.

(** ** The bounded history *)

Lemma addToHistory_history (r k : R) (st : AppState.t) :
  (length (AppState.rHistory st) <= AppState.maxHistoryLength st)%nat ->
  AppState.rHistory (AppState.addToHistory r k st)
    = drop (length (AppState.rHistory st ++ [r]) - AppState.maxHistoryLength st)
        (AppState.rHistory st ++ [r]) /\
  AppState.maxHistoryLength (AppState.addToHistory r k st)
    = AppState.maxHistoryLength st.
Proof.
  intros Hlen. unfold AppState.addToHistory.
  cbn [AppState.rHistory AppState.set_rHistory AppState.maxHistoryLength].
  rewrite length_app. cbn [length].
  destruct (Nat.ltb_spec (AppState.maxHistoryLength st)
              (length (AppState.rHistory st) + 1)) as [Hlt|Hge].
  - replace (length (AppState.rHistory st) + 1 - AppState.maxHistoryLength st)%nat
      with 1%nat by lia.
    set (st1 := AppState.set_rHistory _ (tail _)).
    assert (H1 : AppState.rHistory st1 = drop 1 (AppState.rHistory st ++ [r]))
      by (unfold st1; cbn; destruct (AppState.rHistory st ++ [r]); reflexivity).
    destruct (AppState.sweeping st1);
      [destruct (Js.gt (AppState.sweepDirection st1) 0)|]; split; try exact H1;
      reflexivity.
  - replace (length (AppState.rHistory st) + 1 - AppState.maxHistoryLength st)%nat
      with 0%nat by lia.
    set (st1 := AppState.set_rHistory st _).
    destruct (AppState.sweeping st1);
      [destruct (Js.gt (AppState.sweepDirection st1) 0)|]; split; reflexivity.
Qed.

Lemma record_all_snoc (rks : list (R * R)) (rk : R * R) (st : AppState.t) :
  record_all (rks ++ [rk]) st
    = AppState.addToHistory (fst rk) (snd rk) (record_all rks st).
Proof. unfold record_all. rewrite fold_left_app. reflexivity. Qed.

(** X16. [rHistory] is a sliding window: after any sequence of calls of
    [addToHistory] it holds, in order, the most recent values recorded,
    [maxHistoryLength] of them at most (500 in every reachable state), the
    older ones having been dropped from the front. *)
Theorem history_is_sliding_window (rks : list (R * R)) (st : AppState.t) :
  (length (AppState.rHistory st) <= AppState.maxHistoryLength st)%nat ->
  AppState.rHistory (record_all rks st)
    = drop (length (AppState.rHistory st ++ (fst <$> rks))
            - AppState.maxHistoryLength st)
        (AppState.rHistory st ++ (fst <$> rks)) /\
  (length (AppState.rHistory (record_all rks st))
   <= AppState.maxHistoryLength st)%nat.
Proof.
  intros Hlen.
  assert (H : AppState.rHistory (record_all rks st)
              = drop (length (AppState.rHistory st ++ (fst <$> rks))
                      - AppState.maxHistoryLength st)
                  (AppState.rHistory st ++ (fst <$> rks)) /\
              AppState.maxHistoryLength (record_all rks st)
              = AppState.maxHistoryLength st).
  { induction rks as [|rk rks [IH IHm]] using rev_ind.
    - cbn. rewrite app_nil_r.
      replace (length (AppState.rHistory st) - AppState.maxHistoryLength st)%nat
        with 0%nat by lia.
      split; reflexivity.
    - rewrite record_all_snoc.
      set (h := AppState.rHistory st) in *.
      set (m := AppState.maxHistoryLength st) in *.
      assert (Hl : (length (AppState.rHistory (record_all rks st))
                    <= AppState.maxHistoryLength (record_all rks st))%nat).
      { rewrite IH, IHm, length_drop. lia. }
      destruct (addToHistory_history (fst rk) (snd rk) _ Hl) as [Hh Hm].
      rewrite Hh, Hm, IHm. split; [|reflexivity].
      rewrite IH, fmap_app, app_assoc. cbn [fmap list_fmap].
      set (l := h ++ (fst <$> rks)) in *.
      rewrite length_app, length_drop. cbn [length].
      rewrite <- (drop_app_le l [fst rk]) by lia.
      rewrite drop_drop, length_app. cbn [length]. f_equal. lia. }
  destruct H as [Hh Hm]. split; [exact Hh|].
  rewrite Hh, length_drop. lia.
Qed.

Lemma history_is_sliding_window_witness :
  AppState.rHistory (record_all [(0.5, 1); (0.7, 1)] AppState.new) = [0.5; 0.7].
Proof.
  apply (history_is_sliding_window [(0.5, 1); (0.7, 1)] AppState.new).
  cbn. lia.
Defined.

(** ** Sweeps of the coupling *)

Lemma sweep_tick_off (st : AppState.t) :
  AppState.sweeping st = false -> AppState.updateSweep st = (st, false).
Proof. intros H. unfold AppState.updateSweep. rewrite H. reflexivity. Qed.

Lemma sweep_tick_inside (st : AppState.t) :
  AppState.sweeping st = true ->
  0 < AppState.K st + AppState.sweepDirection st * AppState.sweepSpeed st < 5 ->
  AppState.updateSweep st
    = (AppState.set_K st
         (AppState.K st + AppState.sweepDirection st * AppState.sweepSpeed st),
       true).
Proof.
  intros Hsw [H0 H5]. unfold AppState.updateSweep. rewrite Hsw. cbn [negb].
  cbn [AppState.K AppState.set_K].
  rewrite le_false by exact H0. rewrite ge_false by exact H5.
  cbn. rewrite Hsw. reflexivity.
Qed.

Lemma sweep_tick_top (st : AppState.t) :
  AppState.sweeping st = true ->
  5 <= AppState.K st + AppState.sweepDirection st * AppState.sweepSpeed st ->
  AppState.sweeping (sweep_tick st) = false /\ AppState.K (sweep_tick st) = 5 /\
  AppState.sweepDirection (sweep_tick st) = 0 /\
  snd (AppState.updateSweep st) = false.
Proof.
  intros Hsw H5. unfold sweep_tick, AppState.updateSweep. rewrite Hsw.
  cbn [negb AppState.K AppState.set_K].
  rewrite le_false by lra. rewrite ge_true by lra.
  unfold AppState.stopSweep, AppState.notifyChange. cbn.
  destruct (AppState.onStateChange st); cbn; auto.
Qed.

Lemma sweep_tick_bottom (st : AppState.t) :
  AppState.sweeping st = true ->
  AppState.K st + AppState.sweepDirection st * AppState.sweepSpeed st <= 0 ->
  AppState.sweeping (sweep_tick st) = false /\ AppState.K (sweep_tick st) = 0 /\
  AppState.sweepDirection (sweep_tick st) = 0 /\
  snd (AppState.updateSweep st) = false.
Proof.
  intros Hsw H0. unfold sweep_tick, AppState.updateSweep. rewrite Hsw.
  cbn [negb AppState.K AppState.set_K].
  rewrite le_true by lra.
  unfold AppState.stopSweep, AppState.notifyChange. cbn.
  destruct (AppState.onStateChange st); cbn; auto.
Qed.

(** A sweep in progress ramps [K] by [sweepDirection * sweepSpeed] per call
    until it would leave (0, 5). *)
Lemma sweep_runs_out (target : R) (m : nat) (st : AppState.t) :
  AppState.sweeping st = true ->
  0 <= AppState.K st <= 5 ->
  (target = 5 /\ 0 < AppState.sweepDirection st * AppState.sweepSpeed st /\
   5 - AppState.K st
     <= INR (S m) * (AppState.sweepDirection st * AppState.sweepSpeed st)) \/
  (target = 0 /\ AppState.sweepDirection st * AppState.sweepSpeed st < 0 /\
   AppState.K st
     <= INR (S m) * - (AppState.sweepDirection st * AppState.sweepSpeed st)) ->
  exists n : nat, (n <= m)%nat /\
    AppState.sweeping (Nat.iter (S n) sweep_tick st) = false /\
    AppState.K (Nat.iter (S n) sweep_tick st) = target /\
    forall j : nat, (j <= n)%nat ->
      AppState.sweeping (Nat.iter j sweep_tick st) = true /\
      AppState.K (Nat.iter j sweep_tick st)
        = AppState.K st
          + INR j * (AppState.sweepDirection st * AppState.sweepSpeed st).
Proof.
  revert st. induction m as [|m IH]; intros st Hsw HK Hcase.
  - exists 0%nat. split; [lia|]. cbn [Nat.iter nat_rect INR] in *.
    assert (Hend : AppState.sweeping (sweep_tick st) = false /\
                   AppState.K (sweep_tick st) = target).
    { destruct Hcase as [(-> & Hpos & Hm) | (-> & Hneg & Hm)].
      - destruct (sweep_tick_top st Hsw ltac:(lra)) as (H1 & H2 & _). auto.
      - destruct (sweep_tick_bottom st Hsw ltac:(lra)) as (H1 & H2 & _). auto. }
    destruct Hend as [H1 H2]. split; [exact H1|]. split; [exact H2|].
    intros j Hj. replace j with 0%nat by lia. cbn. split; [exact Hsw | lra].
  - set (dv := AppState.sweepDirection st * AppState.sweepSpeed st) in *.
    destruct (Rlt_le_dec 0 (AppState.K st + dv)) as [H0|H0];
      [destruct (Rlt_le_dec (AppState.K st + dv) 5) as [H5|H5]|].
    + (* the ramp goes on *)
      pose proof (sweep_tick_inside st Hsw (conj H0 H5)) as Hstep.
      fold dv in Hstep.
      assert (Htick : sweep_tick st = AppState.set_K st (AppState.K st + dv))
        by (unfold sweep_tick; rewrite Hstep; reflexivity).
      destruct (IH (sweep_tick st)) as (n & Hn & Hoff & Hk & Hramp).
      * rewrite Htick. exact Hsw.
      * rewrite Htick. cbn. lra.
      * rewrite Htick. cbn [AppState.K AppState.set_K AppState.sweepDirection
                            AppState.sweepSpeed]. fold dv.
        rewrite (S_INR (S m)) in Hcase.
        destruct Hcase as [(-> & Hpos & Hm) | (-> & Hneg & Hm)];
          [left | right]; repeat split; try assumption; lra.
      * exists (S n). split; [lia|].
        rewrite !Nat.iter_succ_r in *. split; [exact Hoff|]. split; [exact Hk|].
        intros [|j] Hj.
        -- cbn. split; [exact Hsw | lra].
        -- rewrite Nat.iter_succ_r.
           destruct (Hramp j ltac:(lia)) as [Hs Hkj]. split; [exact Hs|].
           rewrite Hkj, Htick. cbn [AppState.K AppState.set_K
             AppState.sweepDirection AppState.sweepSpeed]. fold dv.
           rewrite S_INR. ring.
    + (* reaches 5 *)
      exists 0%nat. split; [lia|]. cbn [Nat.iter nat_rect].
      destruct Hcase as [(-> & Hpos & Hm) | (-> & Hneg & Hm)]; [|fold dv in Hneg; lra].
      destruct (sweep_tick_top st Hsw H5) as (H1 & H2 & _).
      split; [exact H1|]. split; [exact H2|].
      intros j Hj. replace j with 0%nat by lia. cbn. split; [exact Hsw | lra].
    + (* reaches 0 *)
      exists 0%nat. split; [lia|]. cbn [Nat.iter nat_rect].
      destruct Hcase as [(-> & Hpos & Hm) | (-> & Hneg & Hm)]; [fold dv in Hpos; lra|].
      destruct (sweep_tick_bottom st Hsw H0) as (H1 & H2 & _).
      split; [exact H1|]. split; [exact H2|].
      intros j Hj. replace j with 0%nat by lia. cbn. split; [exact Hsw | lra].
Qed.

Lemma enough_ticks (x d : R) :
  0 <= x -> 0 < d -> exists m : nat, x <= INR (S m) * d.
Proof.
  intros Hx Hd. destruct (archimed (x / d)) as [Hup _].
  assert (Hq : 0 <= x / d).
  { apply Rmult_le_pos; [exact Hx|]. left. apply Rinv_0_lt_compat, Hd. }
  exists (Z.to_nat (up (x / d))).
  rewrite S_INR, INR_IZR_INZ, Z2Nat.id by (apply le_IZR; lra).
  assert (Hxd : x = x / d * d) by (field; lra).
  rewrite Hxd at 1. nra.
Qed.


Lemma startSweep_fields (d : R) (st : AppState.t) :
  AppState.K (AppState.startSweep d st) = AppState.K st /\
  AppState.sweeping (AppState.startSweep d st) = true /\
  AppState.sweepDirection (AppState.startSweep d st) = d /\
  AppState.sweepSpeed (AppState.startSweep d st) = AppState.sweepSpeed st.
Proof.
  unfold AppState.startSweep, AppState.notifyChange.
  destruct (Js.gt d 0); cbn; destruct (AppState.onStateChange st); cbn; auto.
Qed.


(** ** Reset *)

(** X18. [reset()] puts [K], [running], [time], the sweep and [rHistory] back
    to the constructor's values and keeps the speed, the mode, the
    frequency type, both hysteresis curves and the experiment results;
    [fullReset()] also empties the curves and the results.  An installed
    callback hears ['reset'], and for [fullReset()] then ['fullReset']. *)
Theorem reset_keeps_and_clears (st : AppState.t) :
  AppState.reset st
    = AppState.mk (AppState.N st) 1 (AppState.dt st)
        (AppState.speedMultiplier st) false 0 (AppState.mode st)
        (AppState.frequencyType st) false 0 (AppState.sweepSpeed st) []
        (AppState.maxHistoryLength st) (AppState.hysteresisUp st)
        (AppState.hysteresisDown st) (AppState.experimentResults st)
        (AppState.onStateChange st)
        (AppState.notified st
           ++ (if AppState.onStateChange st then ["reset"%string] else [])) /\
  AppState.fullReset st
    = AppState.mk (AppState.N st) 1 (AppState.dt st)
        (AppState.speedMultiplier st) false 0 (AppState.mode st)
        (AppState.frequencyType st) false 0 (AppState.sweepSpeed st) []
        (AppState.maxHistoryLength st) [] [] None
        (AppState.onStateChange st)
        (AppState.notified st
           ++ (if AppState.onStateChange st
               then ["reset"%string; "fullReset"%string] else [])) /\
  AppState.fullReset AppState.new = AppState.new.
Proof.
  destruct st as [n k dt sp run tm md ft sw sd ss rh mx up dn er cb nt].
  unfold AppState.fullReset, AppState.reset, AppState.clearHistory,
    AppState.clearHysteresis, AppState.notifyChange.
  destruct cb; cbn; rewrite ?app_nil_r, <- ?app_assoc; auto.
Qed.

(** * The application (main.js, controls.js) *)

Lemma order_parameter_nonneg (s : KuramotoSimulator) :
  0 <= r (getOrderParameter s).
Proof.
  unfold getOrderParameter. destruct (Js.for_loop _ _ _) as [sc ss].
  cbn [r]. apply sqrt_pos.
Qed.

Lemma setFrequencies_frame (g : Rng) (type : string) (s : KuramotoSimulator) (c : nat) :
  N (fst (setFrequencies g type s c)) = N s /\
  K (fst (setFrequencies g type s c)) = K s.
Proof.
  unfold setFrequencies.
  destruct (String.eqb type "identical"); [split; reflexivity|].
  destruct (String.eqb type "random").
  { rewrite (for_loop_draws (fun _ _ c => 0.8 + draw g c * 0.4)).
    split; reflexivity. }
  destruct (String.eqb type "twoGroups"); split; reflexivity.
Qed.

Lemma perturb_frame (g : Rng) (a : R) (s : KuramotoSimulator) (c : nat) :
  N (fst (perturb g a s c)) = N s /\ K (fst (perturb g a s c)) = K s.
Proof. destruct (perturb_shape g a s c) as (p & _ & ->). split; reflexivity. Qed.

(** Reads a field of the state after one of the methods that notify. *)
Ltac appstate_field :=
  unfold AppState.setRunning, AppState.toggleRunning, AppState.setK,
    AppState.setMode, AppState.setFrequencyType, AppState.setSpeed,
    AppState.startSweep, AppState.reset, AppState.clearHistory,
    AppState.stopSweep, AppState.addToHistory, AppState.notifyChange;
  cbn;
  repeat match goal with
         | |- context [if ?b then _ else _] => destruct b; cbn
         end;
  try reflexivity.

Lemma addToHistory_K (r k : R) (st : AppState.t) :
  AppState.K (AppState.addToHistory r k st) = AppState.K st.
Proof. appstate_field. Qed.

Lemma updateSweep_K_nonneg (st : AppState.t) :
  AppState.ok st -> 0 <= AppState.K (fst (AppState.updateSweep st)).
Proof. intros H. apply (ok_updateSweep st H). Qed.

Lemma setCoupling_nonneg (k : R) (s : KuramotoSimulator) :
  0 <= k -> K (setCoupling k s) = k.
Proof. intros Hk. cbn. unfold Js.max. apply Rmax_right, Hk. Qed.

Lemma plots_ok_addToHistory (r k : R) (st : AppState.t) :
  App.recorded_value r -> 0 <= AppState.K st <= 5 ->
  plots_ok st -> plots_ok (AppState.addToHistory r k st).
Proof.
  intros Hr HK (Hh & Hu & Hd). unfold AppState.addToHistory.
  cbn [AppState.rHistory AppState.set_rHistory AppState.maxHistoryLength].
  assert (Hpush : Forall App.recorded_value (AppState.rHistory st ++ [r])).
  { apply Forall_app. split; [exact Hh|]. constructor; [exact Hr | constructor]. }
  assert (Htail : Forall App.recorded_value (tail (AppState.rHistory st ++ [r]))).
  { destruct (AppState.rHistory st ++ [r]); [constructor|].
    inversion Hpush; assumption. }
  assert (Hpt : App.recorded_point (Point.mk (AppState.K st) r))
    by (split; assumption).
  destruct (_ <? _)%nat; cbn;
    (destruct (AppState.sweeping st); cbn;
     [destruct (Js.gt (AppState.sweepDirection st) 0); cbn|]);
    repeat split; try assumption;
    apply Forall_app; (split; [assumption|]); constructor;
    first [exact Hpt | constructor].
Qed.

Lemma plots_ok_same (st st' : AppState.t) :
  AppState.rHistory st' = AppState.rHistory st ->
  AppState.hysteresisUp st' = AppState.hysteresisUp st ->
  AppState.hysteresisDown st' = AppState.hysteresisDown st ->
  plots_ok st -> plots_ok st'.
Proof. unfold plots_ok. intros -> -> ->. auto. Qed.

Lemma plots_ok_startSweep (d : R) (st : AppState.t) :
  plots_ok st -> plots_ok (AppState.startSweep d st).
Proof.
  intros (Hh & Hu & Hd). unfold AppState.startSweep, AppState.notifyChange.
  destruct (Js.gt d 0); cbn; destruct (AppState.onStateChange st); cbn;
    repeat split; try assumption; constructor.
Qed.

Lemma plots_ok_clearHistory (st : AppState.t) :
  plots_ok st -> plots_ok (AppState.clearHistory st).
Proof. intros (Hh & Hu & Hd). repeat split; try assumption. constructor. Qed.

Lemma plots_ok_reset (st : AppState.t) :
  plots_ok st -> plots_ok (AppState.reset st).
Proof.
  intros (Hh & Hu & Hd). unfold AppState.reset, AppState.notifyChange.
  cbn. destruct (AppState.onStateChange st); cbn;
    repeat split; try assumption; constructor.
Qed.

Lemma plots_ok_updateSweep (st : AppState.t) :
  plots_ok st -> plots_ok (fst (AppState.updateSweep st)).
Proof.
  apply plots_ok_same;
    unfold AppState.updateSweep, AppState.stopSweep, AppState.notifyChange;
    cbn;
    repeat match goal with
           | |- context [if ?b then _ else _] => destruct b; cbn
           end; reflexivity.
Qed.

Lemma app_inv_intro (g : Rng) (sim : KuramotoSimulator) (st : AppState.t) (c : nat) :
  reachable g sim -> AppState.reachable st -> K sim = AppState.K st ->
  N sim = 16%nat -> plots_ok st -> app_inv g (App.mk sim st c).
Proof. intros. unfold app_inv. cbn [App.simulator App.appState]. auto. Qed.

(** The method just called left the plotted data alone. *)
Ltac plots_same Hpl := refine (plots_ok_same _ _ _ _ _ Hpl); appstate_field.

(** A listener that calls one method of [appState] which leaves [K] and the
    plotted data alone. *)
Ltac state_only_event Hinv reach :=
  let Hsim := fresh in let Hst := fresh in let HK := fresh in
  let HN := fresh in let Hpl := fresh in
  destruct Hinv as (Hsim & Hst & HK & HN & Hpl);
  apply app_inv_intro;
  [ exact Hsim
  | apply reach; exact Hst
  | rewrite HK; appstate_field
  | exact HN
  | plots_same Hpl ].

Lemma app_inv_updateVisuals (g : Rng) (app : App.t) :
  app_inv g app -> app_inv g (App.updateVisuals app).
Proof.
  intros (Hsim & Hst & HK & HN & Hpl). unfold App.updateVisuals.
  destruct (reachable_invariant g _ Hsim) as [(Hlen & _) _].
  pose proof (reachable_ok _ Hst) as (HKr & _).
  apply app_inv_intro; try assumption.
  - apply AppState.reach_addToHistory, Hst.
  - rewrite addToHistory_K. exact HK.
  - apply plots_ok_addToHistory; try assumption.
    apply order_parameter_nonneg.
Qed.

Lemma app_inv_animate (g : Rng) (app : App.t) :
  app_inv g app -> app_inv g (App.animate app).
Proof.
  intros Hinv. pose proof Hinv as (Hsim & Hst & HK & HN & Hpl).
  unfold App.animate.
  destruct (AppState.running (App.appState app)); [|exact Hinv].
  set (dt := AppState.getEffectiveDt (App.appState app)).
  set (st1 := AppState.set_time (App.appState app) _).
  assert (Hst1 : AppState.reachable st1) by (apply AppState.reach_time, Hst).
  assert (Hpl1 : plots_ok st1) by exact Hpl.
  destruct (AppState.sweeping st1) eqn:Hs.
  - apply app_inv_updateVisuals.
    pose proof (ok_updateSweep st1 (reachable_ok _ Hst1)) as (HKr & _).
    apply app_inv_intro.
    + apply reach_setCoupling, reach_step, Hsim.
    + apply AppState.reach_updateSweep, Hst1.
    + apply setCoupling_nonneg. lra.
    + exact HN.
    + apply (plots_ok_updateSweep st1 Hpl1).
  - apply app_inv_updateVisuals.
    apply app_inv_intro; try assumption.
    apply reach_step, Hsim.
Qed.

Lemma app_inv_handle (g : Rng) (ev : App.Event) (app : App.t) :
  app_inv g app -> app_inv g (App.handle g ev app).
Proof.
  intros Hinv.
  destruct ev as [mode | value | | | | freq | init | intensity | value | | | |];
    unfold App.handle.
  - state_only_event Hinv AppState.reach_setMode.
  - (* K slider *)
    destruct Hinv as (Hsim & Hst & HK & HN & Hpl).
    pose proof (reachable_ok _ (AppState.reach_setK value _ Hst)) as (HKr & _).
    apply app_inv_intro.
    + apply reach_setCoupling, Hsim.
    + apply AppState.reach_setK, Hst.
    + apply setCoupling_nonneg. lra.
    + exact HN.
    + plots_same Hpl.
  - (* sweep up *)
    destruct Hinv as (Hsim & Hst & HK & HN & Hpl).
    apply app_inv_intro; try assumption.
    + apply AppState.reach_setRunning, AppState.reach_startSweep, Hst.
    + rewrite HK. appstate_field.
    + apply (plots_ok_same (AppState.startSweep 1 (App.appState app)));
        [appstate_field | appstate_field | appstate_field |].
      apply plots_ok_startSweep, Hpl.
  - (* sweep down *)
    destruct Hinv as (Hsim & Hst & HK & HN & Hpl).
    apply app_inv_intro; try assumption.
    + apply AppState.reach_setRunning, AppState.reach_startSweep, Hst.
    + rewrite HK. appstate_field.
    + apply (plots_ok_same (AppState.startSweep (-1) (App.appState app)));
        [appstate_field | appstate_field | appstate_field |].
      apply plots_ok_startSweep, Hpl.
  - state_only_event Hinv AppState.reach_stopSweep.
  - (* frequency preset *)
    destruct Hinv as (Hsim & Hst & HK & HN & Hpl).
    pose proof (reach_setFrequencies g freq (App.random app) _ Hsim) as Hr.
    destruct (setFrequencies_frame g freq (App.simulator app) (App.random app))
      as [HN' HK'].
    destruct (setFrequencies g freq (App.simulator app) (App.random app))
      as [sim c']. cbn [fst] in *.
    apply app_inv_intro.
    + exact Hr.
    + apply AppState.reach_setFrequencyType, Hst.
    + rewrite HK', HK. appstate_field.
    + congruence.
    + plots_same Hpl.
  - (* initial phases *)
    destruct Hinv as (Hsim & Hst & HK & HN & Hpl).
    pose proof (reach_setInitialPhases g init (App.random app) _ Hsim) as Hr.
    destruct (setInitialPhases_frame g init (App.simulator app) (App.random app))
      as (HN' & _ & _ & HK').
    destruct (setInitialPhases g init (App.simulator app) (App.random app))
      as [sim c']. cbn [fst] in *.
    apply app_inv_updateVisuals. apply app_inv_intro.
    + exact Hr.
    + apply AppState.reach_clearHistory, Hst.
    + rewrite HK', HK. reflexivity.
    + congruence.
    + apply plots_ok_clearHistory, Hpl.
  - (* perturbation *)
    destruct Hinv as (Hsim & Hst & HK & HN & Hpl).
    pose proof (reach_perturb g intensity (App.random app) _ Hsim) as Hr.
    destruct (perturb_frame g intensity (App.simulator app) (App.random app))
      as [HN' HK'].
    destruct (perturb g intensity (App.simulator app) (App.random app))
      as [sim c']. cbn [fst] in *.
    apply app_inv_updateVisuals. apply app_inv_intro; try assumption; congruence.
  - state_only_event Hinv AppState.reach_setSpeed.
  - state_only_event Hinv AppState.reach_toggleRunning.
  - (* single step *)
    destruct Hinv as (Hsim & Hst & HK & HN & Hpl).
    apply app_inv_updateVisuals. apply app_inv_intro; try assumption.
    apply reach_step, Hsim.
  - (* reset *)
    destruct Hinv as (Hsim & Hst & HK & HN & Hpl).
    pose proof (reach_setInitialPhases g "random" (App.random app) _
                  (reach_setCoupling g 1.0 _ Hsim)) as Hr.
    destruct (setInitialPhases_frame g "random"
                (setCoupling 1.0 (App.simulator app)) (App.random app))
      as (HN' & _ & _ & HK').
    destruct (setInitialPhases g "random" (setCoupling 1.0 (App.simulator app))
                (App.random app)) as [sim c']. cbn [fst] in *.
    apply app_inv_updateVisuals. apply app_inv_intro.
    + exact Hr.
    + apply AppState.reach_reset, Hst.
    + rewrite HK'. rewrite setCoupling_nonneg by lra. appstate_field; lra.
    + rewrite HN'. exact HN.
    + apply plots_ok_reset, Hpl.
  - (* animation frame *)
    apply app_inv_animate, Hinv.
Qed.

Lemma app_reachable_inv (g : Rng) (app : App.t) :
  App.reachable g app -> app_inv g app.
Proof.
  induction 1 as [c app Hc | ev app _ IH]; [|apply app_inv_handle, IH].
  unfold App.constructor in Hc.
  destruct (constructor g 16 c) as [[sim c']|] eqn:Hsim; [|discriminate].
  injection Hc as <-. apply app_inv_updateVisuals.
  apply app_inv_intro.
  - exact (reach_new g 16 c sim c' Hsim).
  - apply AppState.reach_new.
  - rewrite constructor_success in Hsim by lia. injection Hsim as <- _.
    reflexivity.
  - rewrite constructor_success in Hsim by lia. injection Hsim as <- _.
    reflexivity.
  - repeat split; constructor.
Qed.

Lemma app_of_start (g : Rng) : App.constructor g 0 = Ok (app_of g).
Proof.
  unfold App.constructor, app_of. rewrite constructor_success by lia.
  rewrite ring_of_eq by lia. reflexivity.
Qed.

Lemma app_of_reachable (g : Rng) : App.reachable g (app_of g).
Proof. exact (App.reach_start g 0 (app_of g) (app_of_start g)). Defined.

(** X19. Whatever the user does, the coupling the simulator integrates with is
    the one the application state shows: in every state of the running
    application [simulator.K = appState.K], a value in [0, 5]; the ring
    keeps its 16 oscillators and every phase lies in [0, 2π). *)
Theorem app_coupling_in_sync (g : Rng) (app : App.t) :
  App.reachable g app ->
  K (App.simulator app) = AppState.K (App.appState app) /\
  0 <= K (App.simulator app) <= 5 /\
  N (App.simulator app) = 16%nat /\
  length (phases (App.simulator app)) = 16%nat /\
  (forall (i : nat) (x : R),
     phases (App.simulator app) !! i = Some x -> 0 <= x < TWO_PI).
Proof.
  intros Hr. destruct (app_reachable_inv g app Hr) as (Hsim & Hst & HK & HN & _).
  destruct (reachable_invariant g _ Hsim) as [(Hlen & _) Hrange].
  pose proof (reachable_ok _ Hst) as (HKr & _).
  split; [exact HK|]. split; [rewrite HK; exact HKr|]. split; [exact HN|].
  split; [congruence|].
  intros i x Hx. exact (proj1 (Forall_lookup _ _) Hrange i x Hx).
Qed.

Lemma app_coupling_in_sync_witness :
  K (App.simulator
       (App.handle zero_rng App.Frame
          (App.handle zero_rng App.SweepUpClick
             (App.handle zero_rng (App.KSliderInput 9) (app_of zero_rng)))))
  = AppState.K
      (App.appState
         (App.handle zero_rng App.Frame
            (App.handle zero_rng App.SweepUpClick
               (App.handle zero_rng (App.KSliderInput 9) (app_of zero_rng))))).
Proof.
  apply (app_coupling_in_sync zero_rng).
  do 3 apply App.reach_event. apply app_of_reachable.
Defined.

(** X20. What the application keeps for its two graphs: in every state of
    the running application no value of [rHistory] is negative, there are
    at most 500 of them, and each point of the two hysteresis curves has
    [K] in [0, 5] and an [r] that is not negative. *)
Theorem app_plot_data_in_range (g : Rng) (app : App.t) :
  App.reachable g app ->
  (forall (i : nat) (x : R),
     AppState.rHistory (App.appState app) !! i = Some x -> 0 <= x) /\
  (length (AppState.rHistory (App.appState app)) <= 500)%nat /\
  (forall (i : nat) (p : Point.t),
     AppState.hysteresisUp (App.appState app) !! i = Some p \/
     AppState.hysteresisDown (App.appState app) !! i = Some p ->
     0 <= Point.K p <= 5 /\ 0 <= Point.r p).
Proof.
  intros Hr.
  destruct (app_reachable_inv g app Hr) as (_ & Hst & _ & _ & Hh & Hu & Hd).
  pose proof (reachable_ok _ Hst) as (_ & _ & _ & _ & _ & Hlen & _).
  split; [|split; [exact Hlen|]].
  - intros i x Hx. exact (proj1 (Forall_lookup _ _) Hh i x Hx).
  - intros i p [Hp|Hp].
    + exact (proj1 (Forall_lookup _ _) Hu i p Hp).
    + exact (proj1 (Forall_lookup _ _) Hd i p Hp).
Qed.

Lemma app_plot_data_in_range_witness :
  (length (AppState.rHistory
             (App.appState (App.handle zero_rng App.StepClick (app_of zero_rng))))
   <= 500)%nat.
Proof.
  apply (app_plot_data_in_range zero_rng).
  apply App.reach_event, app_of_reachable.
Defined.

(** ** Animation frames *)

Lemma updateVisuals_fields (app : App.t) :
  App.simulator (App.updateVisuals app) = App.simulator app /\
  App.random (App.updateVisuals app) = App.random app /\
  AppState.running (App.appState (App.updateVisuals app))
    = AppState.running (App.appState app) /\
  AppState.time (App.appState (App.updateVisuals app))
    = AppState.time (App.appState app) /\
  AppState.dt (App.appState (App.updateVisuals app))
    = AppState.dt (App.appState app) /\
  AppState.speedMultiplier (App.appState (App.updateVisuals app))
    = AppState.speedMultiplier (App.appState app) /\
  same_sweep (App.appState (App.updateVisuals app)) (App.appState app).
Proof.
  unfold App.updateVisuals, same_sweep. cbn [App.simulator App.appState App.random].
  repeat split; appstate_field.
Qed.

Lemma animate_plain (app : App.t) :
  AppState.running (App.appState app) = true ->
  AppState.sweeping (App.appState app) = false ->
  App.animate app
    = App.updateVisuals
        (App.mk (step (AppState.getEffectiveDt (App.appState app)) (App.simulator app))
           (AppState.set_time (App.appState app)
              (AppState.time (App.appState app)
               + AppState.getEffectiveDt (App.appState app)))
           (App.random app)).
Proof.
  intros Hrun Hsw. unfold App.animate. rewrite Hrun.
  cbn [AppState.sweeping AppState.set_time]. rewrite Hsw. reflexivity.
Qed.

Lemma frames_S (n : nat) (app : App.t) :
  frames (S n) app = App.animate (frames n app).
Proof. reflexivity. Qed.

(** X21. While the application is playing and no sweep is on, [n] animation
    frames are [n] Euler steps of the effective time step: the simulator
    is [step(dt·speed)] applied [n] times, [appState.time] has advanced by
    [n·dt·speed], and no random number has been drawn.  While it is
    paused, frames change nothing. *)
Theorem frames_are_euler_steps (n : nat) (app : App.t) :
  (AppState.running (App.appState app) = false -> frames n app = app) /\
  (AppState.running (App.appState app) = true ->
   AppState.sweeping (App.appState app) = false ->
   App.simulator (frames n app)
     = Nat.iter n (step (AppState.getEffectiveDt (App.appState app)))
         (App.simulator app) /\
   AppState.time (App.appState (frames n app))
     = AppState.time (App.appState app)
       + INR n * AppState.getEffectiveDt (App.appState app) /\
   App.random (frames n app) = App.random app).
Proof.
  split.
  - intros Hrun. induction n as [|n IH]; [reflexivity|].
    rewrite frames_S, IH. unfold App.animate. rewrite Hrun. reflexivity.
  - intros Hrun Hsw.
    assert (H : App.simulator (frames n app)
                = Nat.iter n (step (AppState.getEffectiveDt (App.appState app)))
                    (App.simulator app) /\
                AppState.time (App.appState (frames n app))
                = AppState.time (App.appState app)
                  + INR n * AppState.getEffectiveDt (App.appState app) /\
                App.random (frames n app) = App.random app /\
                AppState.running (App.appState (frames n app)) = true /\
                AppState.sweeping (App.appState (frames n app)) = false /\
                AppState.getEffectiveDt (App.appState (frames n app))
                = AppState.getEffectiveDt (App.appState app)).
    { induction n as [|n (Hs & Ht & Hc & Hr & Hw & Hd)].
      - change (frames 0 app) with app. cbn [Nat.iter nat_rect INR].
        repeat split; auto. lra.
      - rewrite frames_S, (animate_plain _ Hr Hw).
        set (a := frames n app) in *.
        destruct (updateVisuals_fields
                    (App.mk (step (AppState.getEffectiveDt (App.appState a))
                               (App.simulator a))
                       (AppState.set_time (App.appState a)
                          (AppState.time (App.appState a)
                           + AppState.getEffectiveDt (App.appState a)))
                       (App.random a)))
          as (Us & Uc & Ur & Ut & Ud & Up & (_ & Uw & _)).
        cbn [App.simulator App.appState App.random] in *.
        rewrite Us, Uc, Ur, Ut. unfold AppState.getEffectiveDt in *.
        rewrite Ud, Up, Uw. cbn [AppState.time AppState.set_time AppState.running
          AppState.sweeping AppState.dt AppState.speedMultiplier].
        rewrite Hs, Ht, Hd. repeat split; auto.
        rewrite S_INR. ring. }
    destruct H as (Hs & Ht & Hc & _). auto.
Qed.

Lemma frames_are_euler_steps_witness :
  App.simulator (frames 3 (App.handle zero_rng App.PlayPauseClick (app_of zero_rng)))
    = Nat.iter 3
        (step (AppState.getEffectiveDt
                 (App.appState
                    (App.handle zero_rng App.PlayPauseClick (app_of zero_rng)))))
        (App.simulator (App.handle zero_rng App.PlayPauseClick (app_of zero_rng))).
Proof.
  apply (frames_are_euler_steps 3
           (App.handle zero_rng App.PlayPauseClick (app_of zero_rng))).
  - unfold App.handle, app_of, App.updateVisuals.
    cbn [App.appState App.simulator App.random]. appstate_field.
  - unfold App.handle, app_of, App.updateVisuals.
    cbn [App.appState App.simulator App.random]. appstate_field.
Defined.

(** ** A sweep seen from the application *)

Lemma same_sweep_refl (st : AppState.t) : same_sweep st st.
Proof. repeat split. Qed.

Lemma same_sweep_trans (a b c : AppState.t) :
  same_sweep a b -> same_sweep b c -> same_sweep a c.
Proof. unfold same_sweep. intros (-> & -> & -> & ->) H. exact H. Qed.

Lemma sweep_tick_respects (st1 st2 : AppState.t) :
  same_sweep st1 st2 -> same_sweep (sweep_tick st1) (sweep_tick st2).
Proof.
  intros (HK & Hs & Hd & Hv).
  unfold sweep_tick, AppState.updateSweep, same_sweep.
  cbn [AppState.K AppState.set_K]. rewrite HK, Hs, Hd, Hv.
  destruct (AppState.sweeping st2) eqn:Hs2; cbn [negb fst];
    [|repeat split; congruence].
  destruct (Js.le _ 0); [|destruct (Js.ge _ 5)];
    unfold AppState.stopSweep, AppState.notifyChange; cbn;
    destruct (AppState.onStateChange st1), (AppState.onStateChange st2); cbn;
    repeat split; congruence.
Qed.

Lemma sweep_tick_running (st : AppState.t) :
  AppState.running (sweep_tick st) = AppState.running st.
Proof.
  unfold sweep_tick, AppState.updateSweep.
  destruct (AppState.sweeping st); cbn [negb fst]; [|reflexivity].
  cbn [AppState.K AppState.set_K].
  destruct (Js.le _ 0); [|destruct (Js.ge _ 5)];
    unfold AppState.stopSweep, AppState.notifyChange; cbn;
    destruct (AppState.onStateChange st); reflexivity.
Qed.

Lemma animate_sweep (app : App.t) :
  AppState.running (App.appState app) = true ->
  same_sweep (App.appState (App.animate app)) (sweep_tick (App.appState app)) /\
  AppState.running (App.appState (App.animate app)) = true.
Proof.
  intros Hrun. unfold App.animate. rewrite Hrun.
  set (st1 := AppState.set_time (App.appState app) _).
  assert (H1 : same_sweep st1 (App.appState app)) by (repeat split).
  assert (Hr1 : AppState.running st1 = true) by exact Hrun.
  destruct (AppState.sweeping st1) eqn:Hsw.
  - destruct (updateVisuals_fields
                (App.mk (setCoupling (AppState.K (fst (AppState.updateSweep st1)))
                           (step (AppState.getEffectiveDt (App.appState app))
                              (App.simulator app)))
                   (fst (AppState.updateSweep st1)) (App.random app)))
      as (_ & _ & Ur & _ & _ & _ & Uw).
    cbn [App.appState] in *. split.
    + eapply same_sweep_trans; [exact Uw|].
      apply (sweep_tick_respects st1), H1.
    + rewrite Ur. fold (sweep_tick st1). rewrite (sweep_tick_running st1).
      exact Hr1.
  - destruct (updateVisuals_fields
                (App.mk (step (AppState.getEffectiveDt (App.appState app))
                           (App.simulator app)) st1 (App.random app)))
      as (_ & _ & Ur & _ & _ & _ & Uw).
    cbn [App.appState] in *. split; [|rewrite Ur; exact Hr1].
    eapply same_sweep_trans; [exact Uw|].
    unfold sweep_tick. rewrite sweep_tick_off by exact Hsw. exact H1.
Qed.

Lemma frames_sweep (n : nat) (app : App.t) :
  AppState.running (App.appState app) = true ->
  same_sweep (App.appState (frames n app))
    (Nat.iter n sweep_tick (App.appState app)) /\
  AppState.running (App.appState (frames n app)) = true.
Proof.
  intros Hrun. induction n as [|n [IH IHr]].
  - split; [apply same_sweep_refl | exact Hrun].
  - rewrite frames_S. destruct (animate_sweep (frames n app) IHr) as [Hs Hr].
    split; [|exact Hr].
    eapply same_sweep_trans; [exact Hs|].
    change (Nat.iter (S n) sweep_tick (App.appState app))
      with (sweep_tick (Nat.iter n sweep_tick (App.appState app))).
    apply sweep_tick_respects, IH.
Qed.

Lemma frames_reachable (g : Rng) (n : nat) (app : App.t) :
  App.reachable g app -> App.reachable g (frames n app).
Proof.
  intros H. induction n as [|n IH]; [exact H|].
  rewrite frames_S. exact (App.reach_event g App.Frame _ IH).
Qed.

Lemma sweep_click_state (d : R) (st : AppState.t) :
  AppState.running (AppState.setRunning true (AppState.startSweep d st)) = true /\
  same_sweep (AppState.setRunning true (AppState.startSweep d st))
    (AppState.startSweep d st).
Proof. unfold same_sweep. repeat split; appstate_field. Qed.

Lemma sweep_from_click (g : Rng) (d target : R) (app : App.t) (ev : App.Event) :
  App.reachable g app ->
  App.handle g ev app
    = App.mk (App.simulator app)
        (AppState.setRunning true (AppState.startSweep d (App.appState app)))
        (App.random app) ->
  (target = 5 /\ 0 < d) \/ (target = 0 /\ d < 0) ->
  exists n : nat,
    AppState.sweeping (App.appState (frames n (App.handle g ev app))) = false /\
    AppState.K (App.appState (frames n (App.handle g ev app))) = target /\
    K (App.simulator (frames n (App.handle g ev app))) = target.
Proof.
  intros Hr Hev Hcase.
  assert (Hr' : App.reachable g (App.handle g ev app))
    by (apply App.reach_event, Hr).
  rewrite Hev in *.
  set (st0 := AppState.setRunning true (AppState.startSweep d (App.appState app))) in *.
  destruct (app_reachable_inv g _ Hr') as (_ & Hst0 & _).
  cbn [App.appState] in Hst0.
  pose proof (reachable_ok _ Hst0) as (HK0 & _ & _ & Hv0 & _).
  destruct (sweep_click_state d (App.appState app)) as [Hrun (Hk & Hs & Hd & Hv)].
  destruct (startSweep_fields d (App.appState app)) as (_ & Hsw & Hdir & _).
  fold st0 in Hrun, Hk, Hs, Hd, Hv.
  assert (Hsw0 : AppState.sweeping st0 = true) by congruence.
  assert (Hd0 : AppState.sweepDirection st0 = d) by congruence.
  assert (Hticks : exists n : nat,
            AppState.sweeping (Nat.iter (S n) sweep_tick st0) = false /\
            AppState.K (Nat.iter (S n) sweep_tick st0) = target).
  { destruct Hcase as [[-> Hpos] | [-> Hneg]].
    - destruct (enough_ticks (5 - AppState.K st0) (d * 0.005)
                  ltac:(lra) ltac:(lra)) as [m Hm].
      destruct (sweep_runs_out 5 m st0 Hsw0 HK0) as (n & _ & H1 & H2 & _).
      + left. rewrite Hd0, Hv0. repeat split; lra.
      + exists n. auto.
    - destruct (enough_ticks (AppState.K st0) (- (d * 0.005))
                  ltac:(lra) ltac:(lra)) as [m Hm].
      destruct (sweep_runs_out 0 m st0 Hsw0 HK0) as (n & _ & H1 & H2 & _).
      + right. rewrite Hd0, Hv0. repeat split; lra.
      + exists n. auto. }
  destruct Hticks as (n & Hoff & Hend). exists (S n).
  destruct (frames_sweep (S n) (App.mk (App.simulator app) st0 (App.random app))
              Hrun) as [(Fk & Fs & _) _].
  cbn [App.appState] in Fk, Fs.
  destruct (app_reachable_inv g _ (frames_reachable g (S n) _ Hr'))
    as (_ & _ & HKsim & _).
  split; [congruence|]. split; [congruence|]. rewrite HKsim. congruence.
Qed.

(** X22. The sweep buttons do what they promise: from any state of the running
    application, after a click on the sweep-up button some number of
    animation frames later the sweep has stopped by itself with
    [appState.K] and the simulator's coupling both exactly 5; after a click
    on the sweep-down button likewise with both exactly 0. *)
Theorem sweep_buttons_reach_bounds (g : Rng) (app : App.t) :
  App.reachable g app ->
  (exists n : nat,
     AppState.sweeping
       (App.appState (frames n (App.handle g App.SweepUpClick app))) = false /\
     AppState.K (App.appState (frames n (App.handle g App.SweepUpClick app))) = 5 /\
     K (App.simulator (frames n (App.handle g App.SweepUpClick app))) = 5) /\
  (exists n : nat,
     AppState.sweeping
       (App.appState (frames n (App.handle g App.SweepDownClick app))) = false /\
     AppState.K (App.appState (frames n (App.handle g App.SweepDownClick app))) = 0 /\
     K (App.simulator (frames n (App.handle g App.SweepDownClick app))) = 0).
Proof.
  intros Hr. split.
  - apply (sweep_from_click g 1 5 app App.SweepUpClick Hr); [reflexivity|].
    left. split; [reflexivity | lra].
  - apply (sweep_from_click g (-1) 0 app App.SweepDownClick Hr); [reflexivity|].
    right. split; [reflexivity | lra].
Qed.

Lemma sweep_buttons_reach_bounds_witness :
  exists n : nat,
    K (App.simulator (frames n (App.handle zero_rng App.SweepUpClick (app_of zero_rng))))
      = 5.
Proof.
  destruct (sweep_buttons_reach_bounds zero_rng (app_of zero_rng)
              (app_of_reachable zero_rng)) as [(n & _ & _ & H) _].
  exists n. exact H.
Defined.

(** ** The experiment outside its intended arguments *)

(** X23. [run] asked for no simulation, or for a negative number of them, runs
    none: every counter is 0, [total] is the number asked for (so for a
    negative number the counters do not sum to [total]) and no random
    number is drawn.  Asked for at least one simulation of a ring of
    negative size, it ends in the [RangeError] of the first
    [new KuramotoSimulator(N)], whatever [K] and [steps]. *)
Theorem run_outside_domain (g : Rng) (numSims : Z) (K : R) (n steps : Z)
    (c : nat) :
  ((numSims <= 0)%Z ->
   Experiments.run g numSims K n steps c
     = Ok (Experiments.mkResults 0 0 0 0 numSims, c)) /\
  ((1 <= numSims)%Z -> (n < 0)%Z ->
   Experiments.run g numSims K n steps c = RangeError).
Proof.
  split.
  - intros H. unfold Experiments.run.
    replace (Z.to_nat numSims) with 0%nat by lia. reflexivity.
  - intros H Hn. unfold Experiments.run.
    destruct (Z.to_nat numSims) as [|m] eqn:Hm; [lia|].
    generalize (Ok (Experiments.mkResults 0 0 0 0 numSims, c)).
    clear Hm. induction m as [|m IH]; intros init.
    + unfold Js.for_loop. cbn [seq fold_left]. destruct init as [[res c0]|];
        [|reflexivity].
      unfold Experiments.simulation. rewrite constructor_error by exact Hn.
      reflexivity.
    + rewrite for_loop_S, IH. reflexivity.
Qed.

Lemma run_outside_domain_witness :
  Experiments.run zero_rng (-3) 1 16 2000 0
    = Ok (Experiments.mkResults 0 0 0 0 (-3), 0%nat) /\
  Experiments.run zero_rng 50 1 (-1) 2000 0 = RangeError.
Proof.
  split.
  - apply (run_outside_domain zero_rng (-3) 1 16 2000 0). lia.
  - apply (run_outside_domain zero_rng 50 1 (-1) 2000 0); lia.
Defined.

(** ** The plots stay between their axes *)

Lemma extends_refl (P : Canvas.Call -> Prop) (ctx : Canvas.t) :
  Canvas.extends P ctx ctx.
Proof.
  repeat split. exists []. split; [symmetry; apply app_nil_r | constructor].
Qed.

Lemma extends_call (P : Canvas.Call -> Prop) (ctx ctx' : Canvas.t)
    (c : Canvas.Call) :
  Canvas.extends P ctx ctx' -> P c -> Canvas.extends P ctx (ctx' .> c).
Proof.
  intros (Hw & Hh & new & Hnew & HP) Hc. split; [exact Hw|]. split; [exact Hh|].
  exists (new ++ [c]). split.
  - cbn [Canvas.call Canvas.calls]. rewrite Hnew, app_assoc. reflexivity.
  - apply Forall_app. split; [exact HP | repeat constructor; exact Hc].
Qed.

Lemma extends_trans (P : Canvas.Call -> Prop) (a b c : Canvas.t) :
  Canvas.extends P a b -> Canvas.extends P b c -> Canvas.extends P a c.
Proof.
  intros (Hw & Hh & n1 & H1 & P1) (Hw' & Hh' & n2 & H2 & P2).
  split; [congruence|]. split; [congruence|].
  exists (n1 ++ n2). split.
  - rewrite H2, H1, app_assoc. reflexivity.
  - apply Forall_app. split; assumption.
Qed.

Lemma extends_impl (P Q : Canvas.Call -> Prop) (a b : Canvas.t) :
  (forall c, P c -> Q c) -> Canvas.extends P a b -> Canvas.extends Q a b.
Proof.
  intros HPQ (Hw & Hh & new & Hnew & HP). split; [exact Hw|]. split; [exact Hh|].
  exists new. split; [exact Hnew|]. eapply Forall_impl; [exact HP | exact HPQ].
Qed.

Lemma extends_loop (P : Canvas.Call -> Prop) (n : nat)
    (body : nat -> Canvas.t -> Canvas.t) (ctx : Canvas.t) :
  (forall i cv, (i < n)%nat -> Canvas.extends P cv (body i cv)) ->
  Canvas.extends P ctx (Js.for_loop n body ctx).
Proof.
  intros Hbody. induction n as [|n IH]; [apply extends_refl|].
  rewrite for_loop_S. eapply extends_trans.
  - apply IH. intros i cv Hi. apply Hbody. lia.
  - apply Hbody. lia.
Qed.

Lemma load_unit_value (a : list R) (i : nat) :
  Forall App.unit_value a -> (i < length a)%nat -> 0 <= Js.load a i <= 1.
Proof.
  intros Ha Hi. unfold Js.load.
  destruct (lookup_lt_is_Some_2 a i Hi) as [v Hv]. rewrite Hv.
  exact (proj1 (Forall_lookup _ a) Ha i v Hv).
Qed.

Lemma point_in_plot (data : list Point.t) (i : nat) :
  Forall App.in_plot data -> (i < length data)%nat ->
  App.in_plot (Graphs.point data i).
Proof.
  intros Ha Hi. unfold Graphs.point.
  destruct (lookup_lt_is_Some_2 data i Hi) as [v Hv]. rewrite Hv.
  exact (proj1 (Forall_lookup _ data) Ha i v Hv).
Qed.

Lemma scaled_inside (t len : R) : 0 <= t <= 1 -> 0 <= len -> 0 <= t * len <= len.
Proof. intros Ht Hlen. split; nra. Qed.

Lemma index_fraction (i n : nat) :
  (i < n)%nat -> (1 < n)%nat -> 0 <= INR i / (INR n - 1) <= 1.
Proof.
  intros Hi Hn.
  assert (H1 : 1 <= INR n - 1).
  { replace 1 with (INR 2 - 1) at 1 by (simpl; lra).
    apply Rplus_le_compat_r, le_INR. lia. }
  assert (H2 : INR i <= INR n - 1).
  { replace (INR n - 1) with (INR (n - 1)) by (rewrite minus_INR by lia; simpl; lra).
    apply le_INR. lia. }
  pose proof (pos_INR i) as H0.
  split.
  - apply Rmult_le_pos; [exact H0|]. left. apply Rinv_0_lt_compat. lra.
  - apply (Rmult_le_reg_r (INR n - 1)); [lra|].
    unfold Rdiv. rewrite Rmult_assoc, Rinv_l by lra. lra.
Qed.

Ltac calls_inside :=
  repeat first
    [ apply extends_refl
    | apply extends_call;
      [| unfold inside_axes, pen_inside; try exact I; lra ] ].

Lemma plotCurve_extends (ctx : Canvas.t) (data : list Point.t) (plotW plotH : R)
    (p : Graphs.Padding) (color : string) (w h : R) :
  Forall App.in_plot data -> 0 <= plotW -> 0 <= plotH ->
  Canvas.extends
    (pen_inside (Graphs.left p) (Graphs.left p + plotW)
       (h - Graphs.bottom p - plotH) (h - Graphs.bottom p))
    ctx (Graphs.plotCurve ctx data plotW plotH p color w h).
Proof.
  intros Hdata HW HH. unfold Graphs.plotCurve.
  destruct (length data <? 2)%nat; [apply extends_refl|].
  apply extends_call; [|exact I].
  eapply extends_trans; [|apply extends_loop].
  - repeat (apply extends_call; [|exact I]). apply extends_refl.
  - intros i cv Hi. destruct (point_in_plot data i Hdata Hi) as [HK Hr].
    assert (Hx : 0 <= Point.K (Graphs.point data i) / 5 * plotW <= plotW)
      by (apply scaled_inside; lra).
    assert (Hy : 0 <= Point.r (Graphs.point data i) * plotH <= plotH)
      by (apply scaled_inside; lra).
    destruct (i =? 0)%nat; (apply extends_call; [apply extends_refl|]);
      unfold pen_inside; lra.
Qed.

Lemma rgraph_extends (rc hc : Canvas.t) (rHistory : list R) :
  65 <= Canvas.width rc -> 50 <= Canvas.height rc ->
  Forall App.unit_value rHistory ->
  Canvas.extends (inside_axes rc) rc
    (Graphs.rCanvas (Graphs.renderRGraph rHistory (Graphs.constructor rc hc))).
Proof.
  intros Hw Hh Hdata. unfold Graphs.renderRGraph, Graphs.constructor.
  cbn [Graphs.rCanvas Graphs.hCanvas Graphs.padding Graphs.left Graphs.right
       Graphs.top Graphs.bottom].
  do 3 (apply extends_call; [|exact I]).
  destruct (Nat.ltb_spec 1 (length rHistory)) as [Hlen|Hlen]; [|calls_inside].
  apply extends_call; [|exact I].
  eapply extends_trans; [|apply extends_loop].
  - calls_inside.
  - intros i cv Hi.
    pose proof (load_unit_value rHistory i Hdata Hi) as Hr.
    pose proof (index_fraction i (length rHistory) Hi Hlen) as Ht.
    assert (Hx : 0 <= INR i / (INR (length rHistory) - 1)
                      * (Canvas.width rc - 45 - 20)
                 <= Canvas.width rc - 45 - 20)
      by (apply scaled_inside; lra).
    assert (Hy : 0 <= Js.load rHistory i * (Canvas.height rc - 20 - 30)
                 <= Canvas.height rc - 20 - 30)
      by (apply scaled_inside; lra).
    destruct (i =? 0)%nat; (apply extends_call; [apply extends_refl|]);
      unfold inside_axes, pen_inside; lra.
Qed.

Lemma hysteresis_extends (rc hc : Canvas.t) (upData downData : list Point.t) :
  65 <= Canvas.width hc -> 50 <= Canvas.height hc ->
  Forall App.in_plot upData -> Forall App.in_plot downData ->
  Canvas.extends (inside_axes hc) hc
    (Graphs.hCanvas
       (Graphs.renderHysteresis upData downData (Graphs.constructor rc hc))).
Proof.
  intros Hw Hh Hup Hdown. unfold Graphs.renderHysteresis, Graphs.constructor.
  cbn [Graphs.rCanvas Graphs.hCanvas Graphs.padding Graphs.left Graphs.right
       Graphs.top Graphs.bottom].
  set (p := Graphs.mkPadding 20 20 30 45).
  assert (Hcurve : forall ctx data color,
            Forall App.in_plot data ->
            Canvas.extends (inside_axes hc) ctx
              (Graphs.plotCurve ctx data (Canvas.width hc - 45 - 20)
                 (Canvas.height hc - 20 - 30) p color
                 (Canvas.width hc) (Canvas.height hc))).
  { intros ctx data color Hdata.
    eapply extends_impl;
      [|apply plotCurve_extends; [exact Hdata | lra | lra]].
    intros c. unfold inside_axes, pen_inside, p.
    cbn [Graphs.left Graphs.bottom]. destruct c; try exact (fun H => H); lra. }
  assert (Hlegend : forall ctx,
            Canvas.extends (inside_axes hc) hc ctx ->
            Canvas.extends (inside_axes hc) hc
              (if ((0 <? length upData)%nat || (0 <? length downData)%nat)%bool
               then ctx .> Canvas.font "10px sans-serif"
                        .> Canvas.fillStyle "rgba(6, 182, 212, 0.9)"
                        .> Canvas.fillText "▲ K↑" (Canvas.width hc - 40) (20 + 10)
                        .> Canvas.fillStyle "rgba(236, 72, 153, 0.9)"
                        .> Canvas.fillText "▼ K↓" (Canvas.width hc - 40) (20 + 22)
               else ctx)).
  { intros ctx Hctx.
    destruct ((0 <? length upData)%nat || (0 <? length downData)%nat)%bool;
      [|exact Hctx].
    repeat (apply extends_call; [|exact I]). exact Hctx. }
  apply Hlegend.
  eapply extends_trans; [|apply Hcurve, Hdown].
  eapply extends_trans; [|apply Hcurve, Hup].
  calls_inside.
Qed.

(** X24. On a canvas of at least 65 by 50 pixels, [renderRGraph] given values of
    [r] in [0, 1] only adds calls to the context of the r(t) canvas, and
    every [moveTo] and [lineTo] among them, axes, grid line and curve, goes
    to a point of the rectangle between the axes,
    [45 <= x <= width - 20] and [20 <= y <= height - 30]; the other canvas
    is not touched.  A history of fewer than two values draws no curve: the
    calls are those for the empty history. *)
Theorem rgraph_inside_axes (rc hc : Canvas.t) (rHistory : list R) :
  65 <= Canvas.width rc -> 50 <= Canvas.height rc ->
  Forall App.unit_value rHistory ->
  Canvas.extends (inside_axes rc) rc
    (Graphs.rCanvas (Graphs.renderRGraph rHistory (Graphs.constructor rc hc))) /\
  Graphs.hCanvas (Graphs.renderRGraph rHistory (Graphs.constructor rc hc)) = hc /\
  ((length rHistory <= 1)%nat ->
   Graphs.renderRGraph rHistory (Graphs.constructor rc hc)
     = Graphs.renderRGraph [] (Graphs.constructor rc hc)).
Proof.
  intros Hw Hh Hdata. split; [apply rgraph_extends; assumption|].
  split; [reflexivity|].
  intros Hlen. unfold Graphs.renderRGraph.
  destruct (Nat.ltb_spec 1 (length rHistory)) as [H|_]; [lia|]. reflexivity.
Qed.

Lemma rgraph_inside_axes_witness :
  Canvas.extends (inside_axes (Canvas.mk 400 200 [])) (Canvas.mk 400 200 [])
    (Graphs.rCanvas
       (Graphs.renderRGraph [0.2; 0.9; 1]
          (Graphs.constructor (Canvas.mk 400 200 []) (Canvas.mk 300 200 [])))).
Proof.
  apply (rgraph_inside_axes (Canvas.mk 400 200 []) (Canvas.mk 300 200 [])
           [0.2; 0.9; 1]).
  - cbn [Canvas.width]. lra.
  - cbn [Canvas.height]. lra.
  - repeat constructor; unfold App.unit_value; lra.
Defined.

(** X25. On a canvas of at least 65 by 50 pixels, [renderHysteresis] given
    points with [K] in [0, 5] and [r] in [0, 1] only adds calls to the
    context of the hysteresis canvas, and every [moveTo] and [lineTo] among
    them, axes and both curves, goes to a point of the rectangle between
    the axes; the r(t) canvas is not touched. *)
Theorem hysteresis_inside_axes (rc hc : Canvas.t)
    (upData downData : list Point.t) :
  65 <= Canvas.width hc -> 50 <= Canvas.height hc ->
  Forall App.in_plot upData -> Forall App.in_plot downData ->
  Canvas.extends (inside_axes hc) hc
    (Graphs.hCanvas
       (Graphs.renderHysteresis upData downData (Graphs.constructor rc hc))) /\
  Graphs.rCanvas
    (Graphs.renderHysteresis upData downData (Graphs.constructor rc hc)) = rc.
Proof.
  intros Hw Hh Hup Hdown. split; [apply hysteresis_extends; assumption|].
  reflexivity.
Qed.

Lemma hysteresis_inside_axes_witness :
  Canvas.extends (inside_axes (Canvas.mk 300 200 [])) (Canvas.mk 300 200 [])
    (Graphs.hCanvas
       (Graphs.renderHysteresis
          [Point.mk 0 0.1; Point.mk 2.5 0.4; Point.mk 5 1] [Point.mk 5 1]
          (Graphs.constructor (Canvas.mk 400 200 []) (Canvas.mk 300 200 [])))).
Proof.
  apply (hysteresis_inside_axes (Canvas.mk 400 200 []) (Canvas.mk 300 200 [])
           [Point.mk 0 0.1; Point.mk 2.5 0.4; Point.mk 5 1] [Point.mk 5 1]).
  - cbn [Canvas.width]. lra.
  - cbn [Canvas.height]. lra.
  - repeat constructor; cbn [Point.K Point.r]; lra.
  - repeat constructor; cbn [Point.K Point.r]; lra.
Defined.

Lemma load_recorded (a : list R) (i : nat) :
  Forall App.recorded_value a -> (i < length a)%nat -> 0 <= Js.load a i.
Proof.
  intros Ha Hi. unfold Js.load.
  destruct (lookup_lt_is_Some_2 a i Hi) as [v Hv]. rewrite Hv.
  exact (proj1 (Forall_lookup _ a) Ha i v Hv).
Qed.

Lemma point_recorded (data : list Point.t) (i : nat) :
  Forall App.recorded_point data -> (i < length data)%nat ->
  App.recorded_point (Graphs.point data i).
Proof.
  intros Ha Hi. unfold Graphs.point.
  destruct (lookup_lt_is_Some_2 data i Hi) as [v Hv]. rewrite Hv.
  exact (proj1 (Forall_lookup _ data) Ha i v Hv).
Qed.

Ltac calls_above :=
  repeat first
    [ apply extends_refl
    | apply extends_call;
      [| unfold over_baseline, pen_above; try exact I; lra ] ].

Lemma plotCurve_above (ctx : Canvas.t) (data : list Point.t) (plotW plotH : R)
    (p : Graphs.Padding) (color : string) (w h : R) :
  Forall App.recorded_point data -> 0 <= plotW -> 0 <= plotH ->
  Canvas.extends
    (pen_above (Graphs.left p) (Graphs.left p + plotW) (h - Graphs.bottom p))
    ctx (Graphs.plotCurve ctx data plotW plotH p color w h).
Proof.
  intros Hdata HW HH. unfold Graphs.plotCurve.
  destruct (length data <? 2)%nat; [apply extends_refl|].
  apply extends_call; [|exact I].
  eapply extends_trans; [|apply extends_loop].
  - repeat (apply extends_call; [|exact I]). apply extends_refl.
  - intros i cv Hi. destruct (point_recorded data i Hdata Hi) as [HK Hr].
    assert (Hx : 0 <= Point.K (Graphs.point data i) / 5 * plotW <= plotW)
      by (apply scaled_inside; lra).
    assert (Hy : 0 <= Point.r (Graphs.point data i) * plotH)
      by (apply Rmult_le_pos; assumption).
    destruct (i =? 0)%nat; (apply extends_call; [apply extends_refl|]);
      unfold pen_above; lra.
Qed.

Lemma rgraph_above (rc hc : Canvas.t) (rHistory : list R) :
  65 <= Canvas.width rc -> 50 <= Canvas.height rc ->
  Forall App.recorded_value rHistory ->
  Canvas.extends (over_baseline rc) rc
    (Graphs.rCanvas (Graphs.renderRGraph rHistory (Graphs.constructor rc hc))).
Proof.
  intros Hw Hh Hdata. unfold Graphs.renderRGraph, Graphs.constructor.
  cbn [Graphs.rCanvas Graphs.hCanvas Graphs.padding Graphs.left Graphs.right
       Graphs.top Graphs.bottom].
  do 3 (apply extends_call; [|exact I]).
  destruct (Nat.ltb_spec 1 (length rHistory)) as [Hlen|Hlen]; [|calls_above].
  apply extends_call; [|exact I].
  eapply extends_trans; [|apply extends_loop].
  - calls_above.
  - intros i cv Hi.
    pose proof (load_recorded rHistory i Hdata Hi) as Hr.
    pose proof (index_fraction i (length rHistory) Hi Hlen) as Ht.
    assert (Hx : 0 <= INR i / (INR (length rHistory) - 1)
                      * (Canvas.width rc - 45 - 20)
                 <= Canvas.width rc - 45 - 20)
      by (apply scaled_inside; lra).
    assert (Hy : 0 <= Js.load rHistory i * (Canvas.height rc - 20 - 30))
      by (apply Rmult_le_pos; lra).
    destruct (i =? 0)%nat; (apply extends_call; [apply extends_refl|]);
      unfold over_baseline, pen_above; lra.
Qed.

Lemma hysteresis_above (rc hc : Canvas.t) (upData downData : list Point.t) :
  65 <= Canvas.width hc -> 50 <= Canvas.height hc ->
  Forall App.recorded_point upData -> Forall App.recorded_point downData ->
  Canvas.extends (over_baseline hc) hc
    (Graphs.hCanvas
       (Graphs.renderHysteresis upData downData (Graphs.constructor rc hc))).
Proof.
  intros Hw Hh Hup Hdown. unfold Graphs.renderHysteresis, Graphs.constructor.
  cbn [Graphs.rCanvas Graphs.hCanvas Graphs.padding Graphs.left Graphs.right
       Graphs.top Graphs.bottom].
  set (p := Graphs.mkPadding 20 20 30 45).
  assert (Hcurve : forall ctx data color,
            Forall App.recorded_point data ->
            Canvas.extends (over_baseline hc) ctx
              (Graphs.plotCurve ctx data (Canvas.width hc - 45 - 20)
                 (Canvas.height hc - 20 - 30) p color
                 (Canvas.width hc) (Canvas.height hc))).
  { intros ctx data color Hdata.
    eapply extends_impl;
      [|apply plotCurve_above; [exact Hdata | lra | lra]].
    intros c. unfold over_baseline, pen_above, p.
    cbn [Graphs.left Graphs.bottom]. destruct c; try exact (fun H => H); lra. }
  assert (Hlegend : forall ctx,
            Canvas.extends (over_baseline hc) hc ctx ->
            Canvas.extends (over_baseline hc) hc
              (if ((0 <? length upData)%nat || (0 <? length downData)%nat)%bool
               then ctx .> Canvas.font "10px sans-serif"
                        .> Canvas.fillStyle "rgba(6, 182, 212, 0.9)"
                        .> Canvas.fillText "▲ K↑" (Canvas.width hc - 40) (20 + 10)
                        .> Canvas.fillStyle "rgba(236, 72, 153, 0.9)"
                        .> Canvas.fillText "▼ K↓" (Canvas.width hc - 40) (20 + 22)
               else ctx)).
  { intros ctx Hctx.
    destruct ((0 <? length upData)%nat || (0 <? length downData)%nat)%bool;
      [|exact Hctx].
    repeat (apply extends_call; [|exact I]). exact Hctx. }
  apply Hlegend.
  eapply extends_trans; [|apply Hcurve, Hdown].
  eapply extends_trans; [|apply Hcurve, Hup].
  calls_above.
Qed.

(** X26. What [updateVisuals] hands to the two plots stays over their
    x-axes: in every state the running application can reach, on canvases
    of at least 65 by 50 pixels, rendering [appState.rHistory] and then the
    two hysteresis curves of [appState] sends every [moveTo] and [lineTo]
    on either canvas to a point with [45 <= x <= width - 20] and
    [y <= height - 30].  Towards the top nothing is claimed: the [r] read
    from the simulator is not negative, but rounding can put it above 1
    and the point then above the end of the y-axis. *)
Theorem app_plots_over_baseline (g : Rng) (app : App.t) (rc hc : Canvas.t) :
  App.reachable g app ->
  65 <= Canvas.width rc -> 50 <= Canvas.height rc ->
  65 <= Canvas.width hc -> 50 <= Canvas.height hc ->
  Canvas.extends (over_baseline rc) rc
    (Graphs.rCanvas
       (Graphs.renderHysteresis
          (AppState.hysteresisUp (App.appState app))
          (AppState.hysteresisDown (App.appState app))
          (Graphs.renderRGraph (AppState.rHistory (App.appState app))
             (Graphs.constructor rc hc)))) /\
  Canvas.extends (over_baseline hc) hc
    (Graphs.hCanvas
       (Graphs.renderHysteresis
          (AppState.hysteresisUp (App.appState app))
          (AppState.hysteresisDown (App.appState app))
          (Graphs.renderRGraph (AppState.rHistory (App.appState app))
             (Graphs.constructor rc hc)))).
Proof.
  intros Hreach Hrw Hrh Hhw Hhh.
  destruct (app_reachable_inv g app Hreach) as (_ & _ & _ & _ & Hr & Hup & Hdown).
  split.
  - exact (rgraph_above rc hc _ Hrw Hrh Hr).
  - exact (hysteresis_above _ hc _ _ Hhw Hhh Hup Hdown).
Qed.

Lemma app_plots_over_baseline_witness :
  Canvas.extends (over_baseline (Canvas.mk 300 200 [])) (Canvas.mk 300 200 [])
    (Graphs.hCanvas
       (Graphs.renderHysteresis
          (AppState.hysteresisUp
             (App.appState (App.handle zero_rng App.SweepUpClick (app_of zero_rng))))
          (AppState.hysteresisDown
             (App.appState (App.handle zero_rng App.SweepUpClick (app_of zero_rng))))
          (Graphs.renderRGraph
             (AppState.rHistory
                (App.appState
                   (App.handle zero_rng App.SweepUpClick (app_of zero_rng))))
             (Graphs.constructor (Canvas.mk 400 200 []) (Canvas.mk 300 200 []))))).
Proof.
  apply (app_plots_over_baseline zero_rng
           (App.handle zero_rng App.SweepUpClick (app_of zero_rng))
           (Canvas.mk 400 200 []) (Canvas.mk 300 200 [])).
  - apply App.reach_event, app_of_reachable.
  - cbn [Canvas.width]. lra.
  - cbn [Canvas.height]. lra.
  - cbn [Canvas.width]. lra.
  - cbn [Canvas.height]. lra.
Defined.
